(** * Memedge: a shallow embedding of the memory engine

    The development follows the TypeScript sources:
    - [memory/blocks.ts]              the block store and its cache,
    - [tools/memory-executor.ts]      the tool handlers,
    - [memory/semantic-search.ts]     embeddings and cosine ranking,
    - [summaries/recursive-summarization.ts] the summary ladder,
    - [memory/migration.ts]           the legacy migration,
    - [memory/memory.ts]              the legacy manager.

    JavaScript strings are sequences of UTF-16 code units, numbers are
    IEEE-754 binary64 values, an [Effect] is a function of the store that
    returns an exit value together with the store it leaves behind. *)

From Stdlib Require Import ZArith NArith List Bool Lia String Ascii DecimalString Zpower.
From Stdlib Require Import Floats.
From stdpp Require Import base option list gmap sorting.

Set Warnings "-register-all".
Local Open Scope Z_scope.

(** ** JavaScript strings *)

Module JsString.

(** A string value is the list of its UTF-16 code units. *)
Abbreviation jsstring := (list N).

(** A literal whose characters are all below U+0100. *)
Definition js (s : String.string) : jsstring :=
  List.map N_of_ascii (list_ascii_of_string s).

(** [WhiteSpace] and [LineTerminator] code points of ECMA-262, the
    characters [String.prototype.trim] strips. *)
Definition isWhiteSpace (c : N) : bool :=
  ((9 <=? c) && (c <=? 13) || (c =? 32) || (c =? 160) || (c =? 5760)
   || (8192 <=? c) && (c <=? 8202) || (c =? 8232) || (c =? 8233)
   || (c =? 8239) || (c =? 8287) || (c =? 12288) || (c =? 65279))%N.

Fixpoint trimStart (s : jsstring) : jsstring :=
  match s with
  | c :: s' => if isWhiteSpace c then trimStart s' else s
  | [] => []
  end.

Definition trimEnd (s : jsstring) : jsstring :=
  rev (trimStart (rev s)).

(** [s.trim()] *)
Definition trim (s : jsstring) : jsstring := trimEnd (trimStart s).

Fixpoint startsWith (p s : jsstring) : bool :=
  match p, s with
  | [], _ => true
  | _ :: _, [] => false
  | a :: p', b :: s' => (a =? b)%N && startsWith p' s'
  end.


(** [s.indexOf(p)]: the least position at which [p] occurs, [None]
    standing for -1. *)
Fixpoint indexOf (p s : jsstring) : option nat :=
  if startsWith p s then Some 0%nat
  else match s with
       | [] => None
       | _ :: s' => S <$> indexOf p s'
       end.

(** [s.includes(p)] *)
Definition includes (p s : jsstring) : bool :=
  match indexOf p s with Some _ => true | None => false end.

(** [s.substring(0, n)] *)
Definition substring0 (n : nat) (s : jsstring) : jsstring := firstn n s.

Definition dollar : N := 36.

(** [GetSubstitution] of ECMA-262 for a string pattern: there are no
    captures, so [$$], [$&], [$`] and [$'] are the only patterns that
    are expanded; a [$] before anything else stands for itself. *)
Fixpoint getSubstitution (matched before after template : jsstring)
  : jsstring :=
  match template with
  | [] => []
  | c :: rest =>
      if (c =? dollar)%N then
        match rest with
        | d :: rest' =>
            if (d =? 36)%N then dollar :: getSubstitution matched before after rest'
            else if (d =? 38)%N then matched ++ getSubstitution matched before after rest'
            else if (d =? 96)%N then before ++ getSubstitution matched before after rest'
            else if (d =? 39)%N then after ++ getSubstitution matched before after rest'
            else c :: getSubstitution matched before after rest
        | [] => [c]
        end
      else c :: getSubstitution matched before after rest
  end.

(** [s.replace(p, r)] with a string pattern [p] and a string
    replacement [r]: the first occurrence only. *)
Definition replace (p r s : jsstring) : jsstring :=
  match indexOf p s with
  | None => s
  | Some i =>
      let before := firstn i s in
      let after := skipn (i + length p) s in
      before ++ getSubstitution p before after r ++ after
  end.

(** The substitution a reader of the specification expects: the first
    occurrence of [p] gives way to [r] taken literally. *)
Definition replaceFirstLiteral (p r s : jsstring) : jsstring :=
  match indexOf p s with
  | None => s
  | Some i => firstn i s ++ r ++ skipn (i + length p) s
  end.

Definition isHighSurrogate (c : N) : bool := ((55296 <=? c) && (c <=? 56319))%N.
Definition isLowSurrogate (c : N) : bool := ((56320 <=? c) && (c <=? 57343))%N.

(** [s.isWellFormed()]: no surrogate stands alone. These are the
    strings a TEXT column gives back as they were written: the store
    keeps text in UTF-8, where a lone surrogate becomes U+FFFD. *)
Fixpoint isWellFormed (s : jsstring) : bool :=
  match s with
  | [] => true
  | c :: rest =>
      if isHighSurrogate c then
        match rest with
        | d :: rest' => isLowSurrogate d && isWellFormed rest'
        | [] => false
        end
      else negb (isLowSurrogate c) && isWellFormed rest
  end.

End JsString.

Import JsString.

(** ** The store: tables, cache and clock *)

Module Store.

(** [type MemoryBlockType = 'core' | 'archival'] *)
Inductive MemoryBlockType : Type := core | archival.

(** A parsed JSON value ([metadata] is [Record<string, any>]). *)
Inductive Json : Type :=
| JNull
| JBool (b : bool)
| JNumber (x : float)
| JString (s : jsstring)
| JArray (items : list Json)
| JObject (members : list (jsstring * Json)).

(** [interface MemoryBlock] *)
Record MemoryBlock : Type := mkMemoryBlock {
  id : jsstring;
  label : jsstring;
  content : jsstring;
  type : MemoryBlockType;
  updated_at : Z;
  metadata : Json
}.

(** A row of [memory_blocks], keyed by its [id]; [metadata] is a
    nullable TEXT column. *)
Record BlockRow : Type := mkBlockRow {
  row_label : jsstring;
  row_content : jsstring;
  row_type : MemoryBlockType;
  row_updated_at : Z;
  row_metadata : option jsstring
}.

(** A row of the legacy table [agent_memory]. *)
Record LegacyRow : Type := mkLegacyRow {
  purpose : jsstring;
  text : jsstring;
  legacy_updated_at : Z
}.

(** [interface ConversationSummary], a row of
    [conversation_summaries_v2]. *)
Record ConversationSummary : Type := mkConversationSummary {
  summary_id : Z;
  summary : jsstring;
  summary_level : nat;
  message_count : Z;
  parent_summary_id : option Z;
  created_at : Z
}.

(** The AUTOINCREMENT table: its rows in rowid order and the largest
    rowid handed out so far. *)
Record SummaryTable : Type := mkSummaryTable {
  summary_rows : list ConversationSummary;
  summary_seq : Z
}.

(** The SQL store. A table that was never created is [None]. Tables
    that are only read by key are finite maps; tables that are scanned
    with ORDER BY are lists in rowid order. The [embedding] column is
    kept as the vector its JSON text encodes. A TEXT value is kept as
    the string that was written: the store holds text in UTF-8, so
    this is what it does with the well-formed strings, and a string
    with a lone surrogate is not one of its values. *)
Record Db : Type := mkDb {
  memory_blocks : option (gmap jsstring BlockRow);
  memory_embeddings : option (gmap jsstring (list float));
  agent_memory : option (list LegacyRow);
  agent_memory_legacy_backup : option (list LegacyRow);
  conversation_summaries_v2 : option SummaryTable
}.

(** What the engine runs in: the SQL store, the [blocksCache] of the
    block manager, the wall clock read by [Date.now()] and the number
    of requests sent to the external models so far. *)
Record World : Type := mkWorld {
  db : Db;
  blocksCache : gmap jsstring MemoryBlock;
  clock : Z;
  requests : nat
}.

Definition with_db (d : Db) (w : World) : World :=
  mkWorld d (blocksCache w) (clock w) (requests w).

Definition with_cache (c : gmap jsstring MemoryBlock) (w : World) : World :=
  mkWorld (db w) c (clock w) (requests w).

Definition with_requests (n : nat) (w : World) : World :=
  mkWorld (db w) (blocksCache w) (clock w) n.

(** Time passing between two operations. *)
Definition elapse (d : Z) (w : World) : World :=
  mkWorld (db w) (blocksCache w) (clock w + d) (requests w).

Definition set_memory_blocks (t : option (gmap jsstring BlockRow)) (d : Db) : Db :=
  mkDb t (memory_embeddings d) (agent_memory d)
       (agent_memory_legacy_backup d) (conversation_summaries_v2 d).

Definition set_memory_embeddings (t : option (gmap jsstring (list float))) (d : Db) : Db :=
  mkDb (memory_blocks d) t (agent_memory d)
       (agent_memory_legacy_backup d) (conversation_summaries_v2 d).

Definition set_legacy (t b : option (list LegacyRow)) (d : Db) : Db :=
  mkDb (memory_blocks d) (memory_embeddings d) t b (conversation_summaries_v2 d).

Definition set_summaries (t : option SummaryTable) (d : Db) : Db :=
  mkDb (memory_blocks d) (memory_embeddings d) (agent_memory d)
       (agent_memory_legacy_backup d) t.

(** Exceptions [sql.exec] throws. *)
Inductive SqlFault : Type :=
| NoSuchTable (name : String.string)
| ConstraintFailed (what : String.string)
| TableAlreadyExists (name : String.string).

(** [SELECT ... FROM memory_blocks WHERE id = ?] *)
Definition select_block (i : jsstring) (d : Db) : SqlFault + option BlockRow :=
  match memory_blocks d with
  | None => inl (NoSuchTable "memory_blocks")
  | Some t => inr (t !! i)
  end.

(** [INSERT INTO memory_blocks (...) VALUES (...)]; [id] is the
    primary key. *)
Definition insert_block (i : jsstring) (r : BlockRow) (d : Db) : SqlFault + Db :=
  match memory_blocks d with
  | None => inl (NoSuchTable "memory_blocks")
  | Some t =>
      match t !! i with
      | Some _ => inl (ConstraintFailed "UNIQUE memory_blocks.id")
      | None => inr (set_memory_blocks (Some (<[i := r]> t)) d)
      end
  end.

(** [UPDATE memory_blocks SET content = ?, updated_at = ? WHERE id = ?] *)
Definition update_block (c : jsstring) (ts : Z) (i : jsstring) (d : Db) : SqlFault + Db :=
  match memory_blocks d with
  | None => inl (NoSuchTable "memory_blocks")
  | Some t =>
      let set r := mkBlockRow (row_label r) c (row_type r) ts (row_metadata r) in
      inr (set_memory_blocks (Some (alter set i t)) d)
  end.

(** [DELETE FROM memory_blocks WHERE id = ?] *)
Definition delete_block (i : jsstring) (d : Db) : SqlFault + Db :=
  match memory_blocks d with
  | None => inl (NoSuchTable "memory_blocks")
  | Some t => inr (set_memory_blocks (Some (delete i t)) d)
  end.

(** [SELECT COUNT( * ) FROM memory_blocks] *)
Definition count_blocks (d : Db) : SqlFault + nat :=
  match memory_blocks d with
  | None => inl (NoSuchTable "memory_blocks")
  | Some t => inr (size t)
  end.

(** [SELECT COUNT( * ) FROM agent_memory] *)
Definition count_legacy (d : Db) : SqlFault + nat :=
  match agent_memory d with
  | None => inl (NoSuchTable "agent_memory")
  | Some t => inr (length t)
  end.

(** [INSERT OR REPLACE INTO memory_embeddings (...) VALUES (?, ?, ?)] *)
Definition upsert_embedding (i : jsstring) (v : list float) (d : Db) : SqlFault + Db :=
  match memory_embeddings d with
  | None => inl (NoSuchTable "memory_embeddings")
  | Some t => inr (set_memory_embeddings (Some (<[i := v]> t)) d)
  end.

(** [SELECT block_id, embedding FROM memory_embeddings] *)
Definition select_embeddings (d : Db) : SqlFault + gmap jsstring (list float) :=
  match memory_embeddings d with
  | None => inl (NoSuchTable "memory_embeddings")
  | Some t => inr t
  end.

(** [DELETE FROM memory_embeddings WHERE block_id = ?] *)
Definition delete_embedding (i : jsstring) (d : Db) : SqlFault + Db :=
  match memory_embeddings d with
  | None => inl (NoSuchTable "memory_embeddings")
  | Some t => inr (set_memory_embeddings (Some (delete i t)) d)
  end.

(** [ALTER TABLE agent_memory RENAME TO agent_memory_legacy_backup] *)
Definition rename_legacy_to_backup (d : Db) : SqlFault + Db :=
  match agent_memory d, agent_memory_legacy_backup d with
  | None, _ => inl (NoSuchTable "agent_memory")
  | Some _, Some _ => inl (TableAlreadyExists "agent_memory_legacy_backup")
  | Some t, None => inr (set_legacy None (Some t) d)
  end.

(** [CREATE TABLE IF NOT EXISTS agent_memory (...)], the statement of
    [initializeDatabase] in [memory/memory.ts]. *)
Definition create_legacy_table (d : Db) : SqlFault + Db :=
  match agent_memory d with
  | Some _ => inr d
  | None => inr (set_legacy (Some []) (agent_memory_legacy_backup d) d)
  end.

(** [INSERT OR REPLACE INTO agent_memory (purpose, text, updated_at)
     VALUES (?, ?, ?)], the statement of [writeMemory] in
    [memory/memory.ts]; [purpose] is the primary key. *)
Definition upsert_legacy (p t : jsstring) (ts : Z) (d : Db) : SqlFault + Db :=
  match agent_memory d with
  | None => inl (NoSuchTable "agent_memory")
  | Some rows =>
      inr (set_legacy
             (Some (filter (fun r => purpose r <> p) rows ++ [mkLegacyRow p t ts]))
             (agent_memory_legacy_backup d) d)
  end.

(** The order in which a scan of [memory_blocks] meets its rows. SQL
    leaves it open and the store settles it; every row is met once. *)
Class Scan : Type := mkScan {
  scanBlocks : gmap jsstring BlockRow -> list (jsstring * BlockRow);
  scanBlocks_rows : forall t, scanBlocks t ≡ₚ map_to_list t
}.

(** The statements that sort rows of [conversation_summaries_v2] and
    of [agent_memory]. *)
Inductive SummaryStatement : Type :=
| UnconsolidatedOldestFirst
| BaseNewestFirst
| RecursiveHighestFirst.

Inductive LegacyStatement : Type :=
| LegacyOldestFirst
| LegacyNewestFirst.

(** The order in which a statement meets the rows of a table before it
    sorts them. It follows from the access path the store picks (the
    table by rowid, an index read forwards or backwards), on which SQL
    is silent; it decides the order of the rows that [ORDER BY] leaves
    tied. Every row is met once. *)
Class Plan : Type := mkPlan {
  scanSummaries :
    SummaryStatement -> list ConversationSummary -> list ConversationSummary;
  scanSummaries_rows : forall q rows, scanSummaries q rows ≡ₚ rows;
  scanLegacy : LegacyStatement -> list LegacyRow -> list LegacyRow;
  scanLegacy_rows : forall q rows, scanLegacy q rows ≡ₚ rows
}.

(** [ORDER BY]: the rows are arranged so that [x] comes ahead of [y]
    whenever [first x y]; rows that neither is first of keep the order
    in which the scan met them. *)
Fixpoint insertOrdered {A} (first : A -> A -> bool) (x : A) (l : list A)
  : list A :=
  match l with
  | [] => [x]
  | y :: l' =>
      if first y x then y :: insertOrdered first x l' else x :: l
  end.

Definition orderBy {A} (first : A -> A -> bool) (l : list A) : list A :=
  foldr (insertOrdered first) [] l.

(** [WHERE type = ?], when a type is given. *)
Definition ofType (ty : option MemoryBlockType) (r : BlockRow) : bool :=
  match ty, row_type r with
  | None, _ | Some core, core | Some archival, archival => true
  | _, _ => false
  end.

(** [SELECT ... FROM memory_blocks [WHERE type = ?]
     ORDER BY updated_at DESC] *)
Definition select_blocks `{Scan} (ty : option MemoryBlockType) (d : Db)
  : SqlFault + list (jsstring * BlockRow) :=
  match memory_blocks d with
  | None => inl (NoSuchTable "memory_blocks")
  | Some t =>
      inr (orderBy (fun x y => row_updated_at (snd y) <? row_updated_at (snd x))
             (filter (fun r => ofType ty (snd r) = true) (scanBlocks t)))
  end.

(** [SELECT name FROM sqlite_master WHERE type='table' AND
     name='agent_memory_legacy_backup'], then [[...cursor].length === 0] *)
Definition backup_table_missing (d : Db) : bool :=
  match agent_memory_legacy_backup d with Some _ => false | None => true end.

(** [DROP TABLE IF EXISTS agent_memory] *)
Definition drop_legacy (d : Db) : SqlFault + Db :=
  inr (set_legacy None (agent_memory_legacy_backup d) d).

(** [ALTER TABLE agent_memory_legacy_backup RENAME TO agent_memory] *)
Definition rename_backup_to_legacy (d : Db) : SqlFault + Db :=
  match agent_memory_legacy_backup d, agent_memory d with
  | None, _ => inl (NoSuchTable "agent_memory_legacy_backup")
  | Some _, Some _ => inl (TableAlreadyExists "agent_memory")
  | Some t, None => inr (set_legacy (Some t) None d)
  end.




(** [CREATE TABLE IF NOT EXISTS conversation_summaries_v2 (...)] with
    its two indexes. *)
Definition create_summaries_table (d : Db) : SqlFault + Db :=
  match conversation_summaries_v2 d with
  | Some _ => inr d
  | None => inr (set_summaries (Some (mkSummaryTable [] 0)) d)
  end.

End Store.

Import Store.

(** ** Effects *)

Module Effect.

(** What a failure carries in its [cause] field. *)
Inductive Cause : Type :=
| CauseText (msg : jsstring)
| CauseSql (fault : SqlFault)
| CauseJson
| CauseRejected.

(** [class MemoryError] and [class StorageError]: a tagged error with
    the name of the operation and its cause. *)
Record TaggedError : Type := mkError {
  operation : String.string;
  cause : Cause
}.

(** How an effect ends: with a value, with a typed failure, or with a
    defect (an exception thrown outside [Effect.try]). *)
Inductive Exit (A : Type) : Type :=
| Success (a : A)
| Failure (e : TaggedError)
| Die (thrown : Cause).

Arguments Success {A} a.
Arguments Failure {A} e.
Arguments Die {A} thrown.

(** An effect reads and writes the world; what it wrote before it
    failed stays written. *)
Definition Effect (A : Type) : Type := World -> Exit A * World.

Definition succeed {A} (a : A) : Effect A := fun w => (Success a, w).

Definition fail {A} (e : TaggedError) : Effect A := fun w => (Failure e, w).

Definition die {A} (c : Cause) : Effect A := fun w => (Die c, w).

(** [yield*] inside [Effect.gen] *)
Definition bind {A B} (m : Effect A) (k : A -> Effect B) : Effect B :=
  fun w =>
    match m w with
    | (Success a, w') => k a w'
    | (Failure e, w') => (Failure e, w')
    | (Die c, w') => (Die c, w')
    end.

(** [Effect.orElseSucceed(m, () => a)]: a typed failure becomes [a];
    a defect is not caught. *)
Definition orElseSucceed {A} (m : Effect A) (a : A) : Effect A :=
  fun w =>
    match m w with
    | (Failure _, w') => (Success a, w')
    | r => r
    end.

(** [Date.now()] *)
Definition Date_now : Effect Z := fun w => (Success (clock w), w).

(** [Effect.try] around a statement that writes the database. *)
Definition try_write (op : String.string) (q : Db -> SqlFault + Db) : Effect unit :=
  fun w =>
    match q (db w) with
    | inl f => (Failure (mkError op (CauseSql f)), w)
    | inr d => (Success tt, with_db d w)
    end.

(** [Effect.try] around a query. *)
Definition try_read {A} (op : String.string) (q : Db -> SqlFault + A) : Effect A :=
  fun w =>
    match q (db w) with
    | inl f => (Failure (mkError op (CauseSql f)), w)
    | inr a => (Success a, w)
    end.

(** A statement run outside [Effect.try]: an exception is a defect. *)
Definition exec_write (q : Db -> SqlFault + Db) : Effect unit :=
  fun w =>
    match q (db w) with
    | inl f => (Die (CauseSql f), w)
    | inr d => (Success tt, with_db d w)
    end.

Definition exec_read {A} (q : Db -> SqlFault + A) : Effect A :=
  fun w =>
    match q (db w) with
    | inl f => (Die (CauseSql f), w)
    | inr a => (Success a, w)
    end.

(** [Effect.orElse(m, () => that)]: after a typed failure of [m],
    [that] runs in the world [m] left; a defect is not caught. *)
Definition orElse {A} (m that : Effect A) : Effect A :=
  fun w =>
    match m w with
    | (Failure _, w') => that w'
    | r => r
    end.

End Effect.

Import Effect.

Notation "'let*' x ':=' m 'in' k" := (bind m (fun x => k))
  (at level 10, x name, m at level 200, k at level 200).
Notation "m ';;' k" := (bind m (fun _ => k))
  (at level 100, k at level 200, right associativity).

(** ** The host: built-ins and external services *)

Module Host.

(** What [ai.run] resolves to: a rejected promise, or a response whose
    [data] field may be missing. *)
Inductive AiOutcome : Type :=
| AiRejected
| AiResponse (data : option (list (list float))).

(** [format: 'openai' | 'azure_openai' | 'gemini' | 'none'] of
    [LlmConfig], in [shared/types]. *)
Inductive LlmFormat : Type := openai | azure_openai | gemini | none.

(** The arguments of [generateText] that vary: the model made by
    [createLLMModel], the system instruction and the user message (the
    temperature is always 0.3). *)
Record LlmRequest : Type := mkLlmRequest {
  llm_provider : LlmFormat;
  llm_apiKey : jsstring;
  llm_model : jsstring;
  llm_system : jsstring;
  llm_prompt : jsstring
}.

(** Built-ins of the host language and the two external models. The
    models answer a request by its position in the sequence of requests
    as well as by its content: the same text may be answered
    differently, or not at all, the next time. *)
Class Env : Type := mkEnv {
  JSON_parse : jsstring -> option Json;
  toLowerCase : jsstring -> jsstring;
  ai_run : nat -> jsstring -> AiOutcome;
  generateText : nat -> LlmRequest -> option jsstring
}.

(** [Math.round(x)]: the integer nearest to [x], a half going up; NaN,
    the infinities and the zeros are returned as they are, and a value
    in [-0.5, 0) gives the negative zero. *)
Definition Math_round (x : float) : float :=
  match Prim2SF x with
  | S754_finite s m e =>
      if 0 <=? e then x
      else
        let half := 2 ^ (- e - 1) in
        let n := if s then (half - Z.pos m) / (2 * half)
                 else (Z.pos m + half) / (2 * half) in
        if n =? 0 then (if s then (-0)%float else 0%float)
        else if s then (- of_uint63 (Uint63.of_Z (- n)))%float
        else of_uint63 (Uint63.of_Z n)
  | _ => x
  end.

End Host.

Import Host.

(** ** memory/semantic-search.ts *)

Module SemanticSearch.

Section WithHost.
Context `{Env}.

(** [generateEmbedding(text)] *)
Definition generateEmbedding (text : jsstring) : Effect (list float) :=
  fun w =>
    let w' := with_requests (S (requests w)) w in
    match ai_run (requests w) text with
    | AiRejected =>
        (Failure (mkError "generate embedding" CauseRejected), w')
    | AiResponse (Some (v :: _)) => (Success v, w')
    | AiResponse _ =>
        (Failure (mkError "generate embedding"
                    (CauseText (js "No embedding returned from AI"))), w')
    end.

(** The loop of [cosineSimilarity]: the three running sums. *)
Fixpoint accumulate (a b : list float) (dotProduct normA normB : float)
  : float * float * float :=
  match a, b with
  | x :: a', y :: b' =>
      accumulate a' b' (dotProduct + x * y)%float
                 (normA + x * x)%float (normB + y * y)%float
  | _, _ => (dotProduct, normA, normB)
  end.

(** [cosineSimilarity(a, b)]; [inl] is the thrown [Error]. *)
Definition cosineSimilarity (a b : list float) : jsstring + float :=
  if negb (length a =? length b)%nat then
    inl (js "Vectors must have same length")
  else
    let '(dotProduct, normA, normB) := accumulate a b 0%float 0%float 0%float in
    let denominator := (sqrt normA * sqrt normB)%float in
    if (denominator =? 0)%float then inr 0%float
    else inr (dotProduct / denominator)%float.

(** A number of an array after [JSON.stringify] and [JSON.parse]: -0
    is written as 0; NaN and the infinities are written as [null],
    which the products of [cosineSimilarity] take for 0. *)
Definition afterJson (x : float) : float :=
  if (x =? 0)%float || PrimFloat.is_nan x || PrimFloat.is_infinity x
  then 0%float else x.

(** [storeBlockEmbedding(blockId, embedding)]: the row holds the JSON
    text of the vector, kept here as the vector that is read from it. *)
Definition storeBlockEmbedding (blockId : jsstring) (embedding : list float)
  : Effect unit :=
  exec_write (upsert_embedding blockId (afterJson <$> embedding)).

(** [getAllBlockEmbeddings()] *)
Definition getAllBlockEmbeddings : Effect (gmap jsstring (list float)) :=
  exec_read select_embeddings.

(** [{ block, score }] *)
Record Scored : Type := mkScored {
  block : MemoryBlock;
  score : float
}.

(** The loop of [searchMemoryBlocks] that scores the blocks. *)
Fixpoint scoreBlocks (queryEmbedding : list float)
    (blockEmbeddings : gmap jsstring (list float))
    (threshold : float) (blocks : list MemoryBlock) : jsstring + list Scored :=
  match blocks with
  | [] => inr []
  | b :: rest =>
      match blockEmbeddings !! id b with
      | None => scoreBlocks queryEmbedding blockEmbeddings threshold rest
      | Some embedding =>
          match cosineSimilarity queryEmbedding embedding with
          | inl msg => inl msg
          | inr s =>
              match scoreBlocks queryEmbedding blockEmbeddings threshold rest with
              | inl msg => inl msg
              | inr results =>
                  if (threshold <=? s)%float
                  then inr (mkScored b s :: results)
                  else inr results
              end
          end
      end
  end.

(** [(a, b) => b.score - a.score] *)
Definition byScoreDescending (a b : Scored) : float :=
  (score b - score a)%float.

(** [Array.prototype.sort(comparefn)], a stable sort: an element moves
    behind a later one only when [comparefn] of the two is positive. *)
Fixpoint sortInsert {A} (comparefn : A -> A -> float) (x : A) (l : list A)
  : list A :=
  match l with
  | [] => [x]
  | y :: l' =>
      if (0 <? comparefn x y)%float
      then y :: sortInsert comparefn x l'
      else x :: l
  end.

Definition Array_sort {A} (comparefn : A -> A -> float) (l : list A) : list A :=
  foldr (sortInsert comparefn) [] l.

(** [searchMemoryBlocks(query, blocks, limit = 5, threshold = 0.5)] *)
Definition searchMemoryBlocks (query : jsstring) (blocks : list MemoryBlock)
    (limit : nat) (threshold : float) : Effect (list Scored) :=
  let* queryEmbedding := generateEmbedding query in
  let* blockEmbeddings := getAllBlockEmbeddings in
  match scoreBlocks queryEmbedding blockEmbeddings threshold blocks with
  | inl msg => die (CauseText msg)
  | inr results =>
      succeed (firstn limit (Array_sort byScoreDescending results))
  end.

Definition default_limit : nat := 5.
Definition default_threshold : float := 0.5%float.

(** The loop of [ensureBlockEmbeddings]. *)
Fixpoint ensureLoop (existingEmbeddings : gmap jsstring (list float))
    (blocks : list MemoryBlock) (generated : nat) : Effect nat :=
  match blocks with
  | [] => succeed generated
  | b :: rest =>
      match existingEmbeddings !! id b with
      | Some _ => ensureLoop existingEmbeddings rest generated
      | None =>
          let* embedding := generateEmbedding (content b) in
          storeBlockEmbedding (id b) embedding ;;
          ensureLoop existingEmbeddings rest (S generated)
      end
  end.

(** [ensureBlockEmbeddings(blocks)] *)
Definition ensureBlockEmbeddings (blocks : list MemoryBlock) : Effect nat :=
  let* existingEmbeddings := getAllBlockEmbeddings in
  ensureLoop existingEmbeddings blocks 0%nat.

(** [updateBlockEmbedding(blockId, content)] *)
Definition updateBlockEmbedding (blockId content : jsstring) : Effect unit :=
  let* embedding := generateEmbedding content in
  storeBlockEmbedding blockId embedding.

(** [deleteBlockEmbedding(blockId)] *)
Definition deleteBlockEmbedding (blockId : jsstring) : Effect unit :=
  exec_write (delete_embedding blockId).

End WithHost.

End SemanticSearch.

(** ** memory/blocks.ts *)

Module MemoryBlocks.

Section WithHost.
Context `{Env}.

(** [(row[5] as string) || '{}'] *)
Definition metadataText (m : option jsstring) : jsstring :=
  match m with
  | None | Some [] => js "{}"
  | Some t => t
  end.

(** The block a row of [memory_blocks] is read into; [None] when
    [JSON.parse] throws. *)
Definition blockOfRow (i : jsstring) (r : BlockRow) : option MemoryBlock :=
  match JSON_parse (metadataText (row_metadata r)) with
  | Some m =>
      Some (mkMemoryBlock i (row_label r) (row_content r) (row_type r)
              (row_updated_at r) m)
  | None => None
  end.

(** [getBlock(id)] *)
Definition getBlock (i : jsstring) : Effect (option MemoryBlock) :=
  fun w =>
    match blocksCache w !! i with
    | Some cached => (Success (Some cached), w)
    | None =>
        match select_block i (db w) with
        | inl f => (Failure (mkError "getBlock" (CauseSql f)), w)
        | inr None => (Success None, w)
        | inr (Some row) =>
            match blockOfRow i row with
            | None => (Failure (mkError "getBlock" CauseJson), w)
            | Some b =>
                (Success (Some b), with_cache (<[i := b]> (blocksCache w)) w)
            end
        end
    end.

(** [blocksCache.set(id, block)] *)
Definition cacheSet (i : jsstring) (b : MemoryBlock) : Effect unit :=
  fun w => (Success tt, with_cache (<[i := b]> (blocksCache w)) w).

(** [createBlock(id, label, content, type = 'core')] *)
Definition createBlock (i l c : jsstring) (t : MemoryBlockType)
  : Effect MemoryBlock :=
  let* timestamp := Date_now in
  let metadata := js "{}" in
  try_write "createBlock"
    (insert_block i (mkBlockRow l c t timestamp (Some metadata))) ;;
  let block := mkMemoryBlock i l c t timestamp (JObject []) in
  cacheSet i block ;;
  succeed block.

(** The cache update of [updateBlock]: the cached object, if there is
    one, is assigned the new content and timestamp. *)
Definition cacheTouch (i c : jsstring) (ts : Z) : Effect unit :=
  fun w =>
    let touch b :=
      mkMemoryBlock (id b) (label b) c (type b) ts (metadata b) in
    (Success tt, with_cache (alter touch i (blocksCache w)) w).

(** [updateBlock(id, content)] *)
Definition updateBlock (i c : jsstring) : Effect unit :=
  let* timestamp := Date_now in
  try_write "updateBlock" (update_block c timestamp i) ;;
  cacheTouch i c timestamp.

(** [deleteBlock(id)] *)
Definition deleteBlock (i : jsstring) : Effect unit :=
  try_write "deleteBlock" (delete_block i) ;;
  fun w => (Success tt, with_cache (delete i (blocksCache w)) w).

(** [position: 'start' | 'end'] *)
Inductive Position : Type := start | end_.

Definition newline : jsstring := [10%N].

Definition blockNotFound (op : String.string) (blockId : jsstring) : TaggedError :=
  mkError op (CauseText (js "Block not found: " ++ blockId)).

(** [insertContent(blockId, content, position = 'end')] *)
Definition insertContent (blockId c : jsstring) (position : Position)
  : Effect unit :=
  let* block := getBlock blockId in
  match block with
  | None => fail (blockNotFound "insertContent" blockId)
  | Some block =>
      let newContent :=
        match position with
        | start => c ++ newline ++ content block
        | end_ => content block ++ newline ++ c
        end in
      updateBlock blockId (trim newContent)
  end.

(** [replaceContent(blockId, oldContent, newContent)] *)
Definition replaceContent (blockId oldContent newContent : jsstring)
  : Effect unit :=
  let* block := getBlock blockId in
  match block with
  | None => fail (blockNotFound "replaceContent" blockId)
  | Some block =>
      let updated := JsString.replace oldContent newContent (content block) in
      updateBlock blockId updated
  end.

(** [rethinkBlock(blockId, newContent, reason?)] *)
Definition rethinkBlock (blockId newContent : jsstring)
    (reason : option jsstring) : Effect unit :=
  let* block := getBlock blockId in
  match block with
  | None => fail (blockNotFound "rethinkBlock" blockId)
  | Some _ => updateBlock blockId newContent
  end.

Context {scan : Scan}.

(** The loop of [getAllBlocks]: every row is read into a block, which
    is pushed to the result and put into the cache. A [JSON.parse] that
    throws ends the loop; the blocks cached by then stay cached. *)
Fixpoint readBlocks (rows : list (jsstring * BlockRow))
  : Effect (list MemoryBlock) :=
  match rows with
  | [] => succeed []
  | (i, r) :: rest =>
      match blockOfRow i r with
      | None => fail (mkError "getAllBlocks" CauseJson)
      | Some b =>
          cacheSet i b ;;
          let* blocks := readBlocks rest in
          succeed (b :: blocks)
      end
  end.

(** [getAllBlocks(type?)] *)
Definition getAllBlocks (ty : option MemoryBlockType)
  : Effect (list MemoryBlock) :=
  let* rows := try_read "getAllBlocks" (select_blocks ty) in
  readBlocks rows.

End WithHost.

End MemoryBlocks.

(** ** tools/memory-executor.ts *)

Module MemoryExecutor.

Import MemoryBlocks.

Section WithHost.
Context `{Env}.

(** [{ success, message }] *)
Record ToolResult : Type := mkToolResult {
  success : bool;
  message : jsstring
}.

Definition quote : jsstring := js "'".

(** [executeMemoryInsert(args)] *)
Definition executeMemoryInsert (block_id c : jsstring)
    (position : option Position) : Effect ToolResult :=
  let* block := getBlock block_id in
  match block with
  | None =>
      succeed (mkToolResult false
        (js "Block '" ++ block_id ++
         js "' does not exist. Use memory_create_block to create it first."))
  | Some _ =>
      let pos := match position with Some p => p | None => end_ end in
      insertContent block_id c pos ;;
      succeed (mkToolResult true
        (js "Successfully inserted content into block '" ++ block_id ++
         js "' at " ++ match pos with start => js "start" | end_ => js "end" end))
  end.

(** [executeMemoryReplace(args)] *)
Definition executeMemoryReplace (block_id old_content new_content : jsstring)
  : Effect ToolResult :=
  let* block := getBlock block_id in
  match block with
  | None =>
      succeed (mkToolResult false
        (js "Block '" ++ block_id ++ js "' does not exist."))
  | Some block =>
      if negb (includes old_content (content block)) then
        succeed (mkToolResult false
          (js "Content to replace not found in block '" ++ block_id ++
           js "'. Current content: " ++ substring0 100 (content block) ++
           js "..."))
      else
        replaceContent block_id old_content new_content ;;
        succeed (mkToolResult true
          (js "Successfully replaced content in block '" ++ block_id ++ quote))
  end.

(** [executeMemoryRethink(args)] *)
Definition executeMemoryRethink (block_id new_content : jsstring)
    (reason : option jsstring) : Effect ToolResult :=
  let* block := getBlock block_id in
  match block with
  | None =>
      succeed (mkToolResult false
        (js "Block '" ++ block_id ++ js "' does not exist."))
  | Some _ =>
      rethinkBlock block_id new_content reason ;;
      let reasonMsg :=
        match reason with
        | None | Some [] => []
        | Some r => js " (Reason: " ++ r ++ js ")"
        end in
      succeed (mkToolResult true
        (js "Successfully rewrote block '" ++ block_id ++ quote ++ reasonMsg))
  end.

(** [{ success, message, block_id }] *)
Record CreateBlockResult : Type := mkCreateBlockResult {
  outcome : ToolResult;
  created_block_id : jsstring
}.

Definition typeName (t : MemoryBlockType) : jsstring :=
  match t with core => js "core" | archival => js "archival" end.

(** [executeMemoryCreateBlock(args)] *)
Definition executeMemoryCreateBlock (block_id l c : jsstring)
    (t : option MemoryBlockType) : Effect CreateBlockResult :=
  let* existing := getBlock block_id in
  match existing with
  | Some _ =>
      succeed (mkCreateBlockResult
        (mkToolResult false
           (js "Block '" ++ block_id ++
            js "' already exists. Use memory_replace or memory_rethink to modify it."))
        block_id)
  | None =>
      let ty := match t with Some t => t | None => core end in
      createBlock block_id l c ty ;;
      succeed (mkCreateBlockResult
        (mkToolResult true
           (js "Successfully created " ++ typeName ty ++ js " memory block '" ++
            block_id ++ js "' (" ++ l ++ js ")"))
        block_id)
  end.

Context {scan : Scan}.

(** An entry of [results] in [executeMemorySearch]. *)
Record SearchResult : Type := mkSearchResult {
  result_block_id : jsstring;
  result_label : jsstring;
  result_content : jsstring;
  result_score : float
}.

(** [args.limit || 5]: a limit that is missing or zero gives way to the
    default. *)
Definition limitOr (limit : option nat) (fallback : nat) : nat :=
  match limit with
  | None | Some O => fallback
  | Some n => n
  end.

(** The text search of [executeMemorySearch]: the blocks whose content
    holds the query, letter case aside, each with the score 1.0. *)
Definition textMatches (query : jsstring) (blocksToSearch : list MemoryBlock)
    (limit : option nat) : list SearchResult :=
  let query := toLowerCase query in
  firstn (limitOr limit 5)
    ((fun b => mkSearchResult (id b) (label b) (content b) 1%float) <$>
     filter (fun b => includes query (toLowerCase (content b)) = true)
       blocksToSearch).

(** [executeMemorySearch(args)] *)
Definition executeMemorySearch (query : jsstring)
    (blocks : option (list jsstring)) (limit : option nat)
    (useSemanticSearch : bool) : Effect (list SearchResult) :=
  let* allBlocks := getAllBlocks None in
  let blocksToSearch :=
    match blocks with
    | Some ids => filter (fun b => id b ∈ ids) allBlocks
    | None => allBlocks
    end in
  if useSemanticSearch then
    let semanticSearchEffect :=
      let* results :=
        SemanticSearch.searchMemoryBlocks query blocksToSearch (limitOr limit 5)
          SemanticSearch.default_threshold in
      succeed
        ((fun r =>
            mkSearchResult (id (SemanticSearch.block r)) (label (SemanticSearch.block r))
              (content (SemanticSearch.block r))
              (Math_round (SemanticSearch.score r * 100) / 100)%float) <$> results) in
    let fallbackEffect := succeed (textMatches query blocksToSearch limit) in
    orElse semanticSearchEffect fallbackEffect
  else succeed (textMatches query blocksToSearch limit).

End WithHost.

End MemoryExecutor.

(** ** summaries/recursive-summarization.ts *)

Module Summaries.

(** [interface SummarizationConfig] *)
Record SummarizationConfig : Type := mkConfig {
  baseSummaryThreshold : nat;
  recursiveThreshold : nat;
  maxLevel : nat;
  recentSummaryCount : nat
}.

Definition DEFAULT_CONFIG : SummarizationConfig := mkConfig 20 10 3 3.

(** [LlmConfig], [PersonaConfig] and [Message] of [shared/types], with
    the fields the summarizers read. *)
Record LlmConfig : Type := mkLlmConfig {
  format : LlmFormat;
  secret : option jsstring;
  model_name : option jsstring
}.

Record PersonaConfig : Type := mkPersona {
  llm_config : option LlmConfig
}.

(** [role: 'user' | 'assistant' | 'tool'] *)
Inductive Role : Type := user | assistant | tool.

Definition roleName (r : Role) : jsstring :=
  match r with
  | user => js "user"
  | assistant => js "assistant"
  | tool => js "tool"
  end.

Definition formatName (f : LlmFormat) : jsstring :=
  match f with
  | openai => js "openai"
  | azure_openai => js "azure_openai"
  | gemini => js "gemini"
  | none => js "none"
  end.

(** A message whose [content] is an array of tool results, not a
    string, has [None]. *)
Record Message : Type := mkMessage {
  role : Role;
  message_content : option jsstring
}.

(** [what || fallback] on an optional string *)
Definition orDefault (what : option jsstring) (fallback : jsstring) : jsstring :=
  match what with
  | None | Some [] => fallback
  | Some s => s
  end.

(** What [createLLMModel] builds: a provider with its key, applied to
    a model name. *)
Record LlmModel : Type := mkLlmModel {
  provider : LlmFormat;
  apiKey : jsstring;
  modelName : jsstring
}.

(** [createLLMModel(config)]: the model, or the thrown [Error]. *)
Definition createLLMModel (config : LlmConfig) : jsstring + LlmModel :=
  match format config with
  | openai =>
      inr (mkLlmModel openai (orDefault (secret config) [])
             (orDefault (model_name config) (js "gpt-4o-mini")))
  | gemini =>
      inr (mkLlmModel gemini (orDefault (secret config) [])
             (orDefault (model_name config) (js "gemini-2.0-flash-exp")))
  | other => inl (js "Unsupported format: " ++ formatName other)
  end.

(** [parts.join(sep)] *)
Fixpoint join (sep : jsstring) (parts : list jsstring) : jsstring :=
  match parts with
  | [] => []
  | [p] => p
  | p :: rest => p ++ sep ++ join sep rest
  end.

(** A non-negative integer printed in decimal. *)
Definition decimal (n : nat) : jsstring :=
  js (NilEmpty.string_of_uint (Nat.to_uint n)).

Definition blankLine : jsstring := [10%N; 10%N].

(** Rows of one level that have no parent yet. *)
Definition unconsolidatedAt (level : nat) (s : ConversationSummary) : bool :=
  (summary_level s =? level)%nat &&
  match parent_summary_id s with None => true | Some _ => false end.

(** [ORDER BY created_at ASC]: rows with the same timestamp stay in
    the order in which the scan met them. *)
Fixpoint insertByCreatedAt (x : ConversationSummary)
    (l : list ConversationSummary) : list ConversationSummary :=
  match l with
  | [] => [x]
  | y :: l' =>
      if created_at y <? created_at x
      then y :: insertByCreatedAt x l'
      else x :: l
  end.

Definition orderByCreatedAt (l : list ConversationSummary)
  : list ConversationSummary :=
  foldr insertByCreatedAt [] l.

(** [SELECT ... WHERE summary_level = ? AND parent_summary_id IS NULL
     ORDER BY created_at ASC LIMIT ?] *)
Definition select_unconsolidated {plan : Plan} (level limit : nat) (d : Db)
  : SqlFault + list ConversationSummary :=
  match conversation_summaries_v2 d with
  | None => inl (NoSuchTable "conversation_summaries_v2")
  | Some t =>
      inr (firstn limit
             (orderByCreatedAt
                (filter (fun s => unconsolidatedAt level s = true)
                   (scanSummaries UnconsolidatedOldestFirst (summary_rows t)))))
  end.

(** The rowid an AUTOINCREMENT insert hands out. *)
Definition next_rowid (t : SummaryTable) : Z :=
  Z.max (summary_seq t) (foldr Z.max 0 (summary_id <$> summary_rows t)) + 1.

(** [INSERT INTO conversation_summaries_v2 (...) VALUES (?, ?, ?, NULL, ?)] *)
Definition insert_summary (s : jsstring) (level : nat) (count ts : Z) (d : Db)
  : SqlFault + Db :=
  match conversation_summaries_v2 d with
  | None => inl (NoSuchTable "conversation_summaries_v2")
  | Some t =>
      let rowid := next_rowid t in
      let row := mkConversationSummary rowid s level count None ts in
      inr (set_summaries
             (Some (mkSummaryTable (summary_rows t ++ [row]) rowid)) d)
  end.

(** [SELECT last_insert_rowid() as id], after an insert into the
    summaries. *)
Definition last_insert_rowid (d : Db) : SqlFault + Z :=
  match conversation_summaries_v2 d with
  | None => inr 0
  | Some t => inr (summary_seq t)
  end.

Section WithHost.
Context `{Env} {plan : Plan}.

(** Whether the store enforces the FOREIGN KEY of [parent_summary_id]
    ([PRAGMA foreign_keys]). *)
Variable foreign_keys : bool.

(** [UPDATE conversation_summaries_v2 SET parent_summary_id = ?
     WHERE id = ?] *)
Definition update_parent (parentId i : Z) (d : Db) : SqlFault + Db :=
  match conversation_summaries_v2 d with
  | None => inl (NoSuchTable "conversation_summaries_v2")
  | Some t =>
      let hit := existsb (fun s => summary_id s =? i) (summary_rows t) in
      let known := existsb (fun s => summary_id s =? parentId) (summary_rows t) in
      if foreign_keys && hit && negb known then
        inl (ConstraintFailed "FOREIGN KEY parent_summary_id")
      else
        let set s :=
          if summary_id s =? i then
            mkConversationSummary (summary_id s) (summary s) (summary_level s)
              (message_count s) (Some parentId) (created_at s)
          else s in
        inr (set_summaries
               (Some (mkSummaryTable (set <$> summary_rows t) (summary_seq t))) d)
  end.

(** The request both summarizers send, and what comes back. *)
Definition askModel (op : String.string) (model : LlmModel)
    (system prompt : jsstring) : Effect jsstring :=
  fun w =>
    let w' := with_requests (S (requests w)) w in
    match generateText (requests w)
            (mkLlmRequest (provider model) (apiKey model) (modelName model)
               system prompt) with
    | Some t => (Success t, w')
    | None => (Failure (mkError op CauseRejected), w')
    end.

Definition baseSystem : jsstring :=
  js "You are a helpful assistant that creates concise summaries of conversations. Create a 2-3 sentence summary that captures the key topics discussed and any important outcomes or decisions.".

Definition recursiveSystem : jsstring :=
  js "You are creating a higher-level summary that consolidates multiple conversation summaries. Create a concise 3-4 sentence summary that captures the key themes and outcomes across all the conversations.".

(** [createBaseSummary(messages, persona)] *)
Definition createBaseSummary (messages : list Message) (persona : PersonaConfig)
  : Effect Z :=
  match llm_config persona with
  | None => die (CauseText (js "LLM config required for summarization"))
  | Some config =>
      match createLLMModel config with
      | inl msg => die (CauseText msg)
      | inr llmModel =>
          let conversationText :=
            join blankLine
              ((fun msg =>
                  roleName (role msg) ++ js ": " ++
                  match message_content msg with
                  | Some c => c
                  | None => js "[tool result]"
                  end) <$> messages) in
          let* result :=
            askModel "create base summary" llmModel baseSystem
              (js "Please summarize this conversation:" ++ blankLine ++
               conversationText) in
          let* timestamp := Date_now in
          exec_write
            (insert_summary result 0 (Z.of_nat (length messages)) timestamp) ;;
          exec_read last_insert_rowid
      end
  end.

(** [summaries.map((s, i) => `Summary ${i + 1}: ${s.summary}`)] *)
Fixpoint numbered (i : nat) (summaries : list ConversationSummary)
  : list jsstring :=
  match summaries with
  | [] => []
  | s :: rest =>
      (js "Summary " ++ decimal (i + 1) ++ js ": " ++ summary s)
        :: numbered (S i) rest
  end.

(** [createRecursiveSummary(summaries, targetLevel, persona)]. The
    counts are integers; [reduce] adds them as numbers, which gives
    their sum as long as the sums stay within 2^53 in magnitude. Past
    that the numbers are rounded, which the integers here are not. *)
Definition createRecursiveSummary (summaries : list ConversationSummary)
    (targetLevel : nat) (persona : PersonaConfig) : Effect Z :=
  match llm_config persona with
  | None => die (CauseText (js "LLM config required for summarization"))
  | Some config =>
      match createLLMModel config with
      | inl msg => die (CauseText msg)
      | inr llmModel =>
          let summaryText := join blankLine (numbered 0 summaries) in
          let* result :=
            askModel "create recursive summary" llmModel recursiveSystem
              (js "Please create a consolidated summary of these conversation summaries:"
               ++ blankLine ++ summaryText) in
          let totalMessages :=
            fold_left (fun sum s => sum + message_count s) summaries 0 in
          let* timestamp := Date_now in
          exec_write (insert_summary result targetLevel totalMessages timestamp) ;;
          exec_read last_insert_rowid
      end
  end.

(** What [checkRecursiveSummarizationNeeded] returns:
    [{ needed: false }] or [{ needed: true, level, summaries }]. *)
Inductive Promotion : Type :=
| NotNeeded
| Needed (level : nat) (summaries : list ConversationSummary).

(** The [for] loop of [checkRecursiveSummarizationNeeded]: [level]
    runs upwards through the [remaining] levels below [maxLevel]. *)
Fixpoint checkLevels (threshold : nat) (level remaining : nat)
  : Effect Promotion :=
  match remaining with
  | O => succeed NotNeeded
  | S remaining' =>
      let* summaries := exec_read (select_unconsolidated level (threshold + 1)) in
      if (threshold <=? length summaries)%nat then
        succeed (Needed (level + 1) (firstn threshold summaries))
      else checkLevels threshold (S level) remaining'
  end.

(** [checkRecursiveSummarizationNeeded(config = DEFAULT_CONFIG)] *)
Definition checkRecursiveSummarizationNeeded (config : SummarizationConfig)
  : Effect Promotion :=
  checkLevels (recursiveThreshold config) 0 (maxLevel config).

(** [markSummariesConsolidated(summaryIds, parentId)] *)
Fixpoint markSummariesConsolidated (summaryIds : list Z) (parentId : Z)
  : Effect unit :=
  match summaryIds with
  | [] => succeed tt
  | i :: rest =>
      exec_write (update_parent parentId i) ;;
      markSummariesConsolidated rest parentId
  end.

End WithHost.

(** [initializeDatabase()] *)
Definition initializeDatabase : Effect unit :=
  exec_write create_summaries_table.

(** [SELECT ... WHERE summary_level = 0 ORDER BY created_at DESC
     LIMIT ?] *)
Definition select_recent_base {plan : Plan} (limit : nat) (d : Db)
  : SqlFault + list ConversationSummary :=
  match conversation_summaries_v2 d with
  | None => inl (NoSuchTable "conversation_summaries_v2")
  | Some t =>
      inr (firstn limit
             (orderBy (fun x y => created_at y <? created_at x)
                (filter (fun s => summary_level s = 0%nat)
                   (scanSummaries BaseNewestFirst (summary_rows t)))))
  end.

(** [ORDER BY summary_level DESC, created_at DESC] *)
Definition higherThenNewer (x y : ConversationSummary) : bool :=
  (summary_level y <? summary_level x)%nat ||
  ((summary_level x =? summary_level y)%nat && (created_at y <? created_at x)).

(** [SELECT ... WHERE summary_level > 0
     ORDER BY summary_level DESC, created_at DESC LIMIT 2] *)
Definition select_recent_recursive {plan : Plan} (d : Db)
  : SqlFault + list ConversationSummary :=
  match conversation_summaries_v2 d with
  | None => inl (NoSuchTable "conversation_summaries_v2")
  | Some t =>
      inr (firstn 2
             (orderBy higherThenNewer
                (filter (fun s => (0 < summary_level s)%nat)
                   (scanSummaries RecursiveHighestFirst (summary_rows t)))))
  end.

(** [{ base, recursive }] *)
Record LoadedSummaries : Type := mkLoaded {
  base : list ConversationSummary;
  recursive : list ConversationSummary
}.

(** [loadSummariesForContext(config = DEFAULT_CONFIG)] *)
Definition loadSummariesForContext {plan : Plan} (config : SummarizationConfig)
  : Effect LoadedSummaries :=
  let* baseSummaries := exec_read (select_recent_base (recentSummaryCount config)) in
  let* recursiveSummaries := exec_read select_recent_recursive in
  succeed (mkLoaded baseSummaries recursiveSummaries).

End Summaries.

(** ** memory/migration.ts *)

Module Migration.

Import MemoryBlocks.

(** [interface MigrationResult] *)
Record MigrationResult : Type := mkResult {
  total : nat;
  migrated : nat;
  skipped : nat;
  errors : list jsstring
}.

(** [ORDER BY updated_at ASC] over the legacy rows: rows with the same
    timestamp stay in the order in which the scan met them. *)
Fixpoint insertByUpdatedAt (x : LegacyRow) (l : list LegacyRow) : list LegacyRow :=
  match l with
  | [] => [x]
  | y :: l' =>
      if legacy_updated_at y <? legacy_updated_at x
      then y :: insertByUpdatedAt x l'
      else x :: l
  end.

(** [SELECT purpose, text, updated_at FROM agent_memory
     ORDER BY updated_at ASC] *)
Definition select_legacy {plan : Plan} (d : Db) : SqlFault + list LegacyRow :=
  match agent_memory d with
  | None => inl (NoSuchTable "agent_memory")
  | Some t => inr (foldr insertByUpdatedAt [] (scanLegacy LegacyOldestFirst t))
  end.

(** [SELECT name FROM sqlite_master WHERE type='table' AND
     name='agent_memory'], then [[...cursor].length > 0] *)
Definition legacy_table_exists (d : Db) : SqlFault + bool :=
  inr (match agent_memory d with Some _ => true | None => false end).

(** A regular expression that is an alternation of literal words
    matches when one of them occurs. *)
Definition matchesAny (words : list jsstring) (s : jsstring) : bool :=
  existsb (fun w => includes w s) words.

Definition humanWords : list jsstring :=
  [js "user"; js "customer"; js "person"; js "human"; js "client"; js "people"].

Definition personaWords : list jsstring :=
  [js "agent"; js "persona"; js "identity"; js "role"; js "assistant"].

Section WithHost.
Context `{Env} {plan : Plan}.

(** The target block of a legacy entry. *)
Definition targetBlock (p : jsstring) : jsstring :=
  let purposeLower := toLowerCase p in
  if matchesAny humanWords purposeLower then js "human"
  else if matchesAny personaWords purposeLower then js "persona"
  else js "context".

Definition standardBlocks : list (jsstring * jsstring) :=
  [(js "human", js "Human"); (js "persona", js "Persona");
   (js "context", js "Context")].

(** The loop that creates the standard blocks that do not exist. *)
Fixpoint ensureStandardBlocks (blocks : list (jsstring * jsstring)) : Effect unit :=
  match blocks with
  | [] => succeed tt
  | (i, l) :: rest =>
      let* existing := getBlock i in
      match existing with
      | Some _ => ensureStandardBlocks rest
      | None => createBlock i l [] core ;; ensureStandardBlocks rest
      end
  end.

(** The loop over the legacy rows. The rows hold strings, so nothing in
    the body throws; a failing [insertContent] fails the migration. *)
Fixpoint migrateRows (memories : list LegacyRow) (result : MigrationResult)
  : Effect MigrationResult :=
  match memories with
  | [] => succeed result
  | row :: rest =>
      let formattedContent :=
        js "**" ++ purpose row ++ js "**" ++ newline ++ text row in
      insertContent (targetBlock (purpose row)) formattedContent end_ ;;
      migrateRows rest
        (mkResult (total result) (S (migrated result)) (skipped result)
           (errors result))
  end.

(** [migrateLegacyMemoriesToBlocks()] *)
Definition migrateLegacyMemoriesToBlocks : Effect MigrationResult :=
  let result := mkResult 0 0 0 [] in
  let* tableCheck := try_read "check legacy table" legacy_table_exists in
  if negb tableCheck then succeed result
  else
    ensureStandardBlocks standardBlocks ;;
    let* memories := try_read "query legacy memories" select_legacy in
    let result := mkResult (length memories) 0 0 [] in
    let* result := migrateRows memories result in
    (if (0 <? migrated result)%nat
     then orElseSucceed (try_write "rename legacy table" rename_legacy_to_backup) tt
     else succeed tt) ;;
    succeed result.

(** [checkMigrationNeeded()] *)
Definition checkMigrationNeeded : Effect bool :=
  let hasLegacyDataEffect :=
    let* count := try_read "check legacy data" count_legacy in
    succeed (0 <? count)%nat in
  let* hasLegacyData := orElseSucceed hasLegacyDataEffect false in
  if negb hasLegacyData then succeed false
  else
    let hasNewDataEffect :=
      let* count := try_read "check new data" count_blocks in
      succeed (0 <? count)%nat in
    let* hasNewData := orElseSucceed hasNewDataEffect false in
    succeed (hasLegacyData && negb hasNewData).

End WithHost.

(** [rollbackMigration()]: one [Effect.try] around the check for the
    backup, the DROP and the RENAME. *)
Definition rollbackMigration : Effect unit :=
  fun w =>
    if backup_table_missing (db w) then
      (Failure (mkError "rollback migration"
                  (CauseText (js "No backup table found"))), w)
    else
      match drop_legacy (db w) with
      | inl f => (Failure (mkError "rollback migration" (CauseSql f)), w)
      | inr dropped =>
          match rename_backup_to_legacy dropped with
          | inl f =>
              (Failure (mkError "rollback migration" (CauseSql f)),
               with_db dropped w)
          | inr restored => (Success tt, with_db restored w)
          end
      end.

(** [s.replace(/\s+/g, '_')]: every run of white space becomes one
    underscore. [inRun] tells that the unit before was white space. *)
Fixpoint underscoreRuns (inRun : bool) (s : jsstring) : jsstring :=
  match s with
  | [] => []
  | c :: s' =>
      if isWhiteSpace c then
        if inRun then underscoreRuns true s'
        else 95%N :: underscoreRuns true s'
      else c :: underscoreRuns false s'
  end.

Section Exporting.
Context `{Env} {scan : Scan}.

(** [block.label.toLowerCase().replace(/\s+/g, '_')] *)
Definition purposeOfLabel (l : jsstring) : jsstring :=
  underscoreRuns false (toLowerCase l).

(** The loop of [exportBlocksToLegacy]. *)
Fixpoint exportLoop (blocks : list MemoryBlock) (exportedCount : nat)
  : Effect nat :=
  match blocks with
  | [] => succeed exportedCount
  | b :: rest =>
      try_write "export block to legacy"
        (upsert_legacy (purposeOfLabel (label b)) (content b) (updated_at b)) ;;
      exportLoop rest (S exportedCount)
  end.

(** [exportBlocksToLegacy()] *)
Definition exportBlocksToLegacy : Effect nat :=
  let* blocks := getAllBlocks (Some core) in
  try_write "create legacy table" create_legacy_table ;;
  exportLoop blocks 0%nat.

End Exporting.

End Migration.

(** ** memory/memory.ts *)

Module LegacyMemory.




(** What the legacy manager runs in: the world of the engine and its
    own [memoriesCache]. An entry ([interface MemoryEntry]) has the
    three fields of a row of [agent_memory]. *)
Record Manager : Type := mkManager {
  world : World;
  memoriesCache : list (jsstring * LegacyRow)
}.

Definition Managed (A : Type) : Type := Manager -> Exit A * Manager.

(** [initializeDatabase()] *)
Definition initializeDatabase : Managed unit :=
  fun m =>
    match create_legacy_table (db (world m)) with
    | inl f => (Failure (mkError "initializeDatabase" (CauseSql f)), m)
    | inr d => (Success tt, mkManager (with_db d (world m)) (memoriesCache m))
    end.







End LegacyMemory.

(** ** Notions the statements are phrased in *)

Module Spec.

Import MemoryBlocks SemanticSearch Summaries.

Section WithHost.
Context `{Env}.

(** Block [b] is present under [i]: its row is in [memory_blocks] and
    the cache, if it holds the id at all, holds the same block. *)
Definition stored (i : jsstring) (b : MemoryBlock) (w : World) : Prop :=
  exists t r,
    memory_blocks (db w) = Some t /\ t !! i = Some r /\
    blockOfRow i r = Some b /\
    (blocksCache w !! i = None \/ blocksCache w !! i = Some b).

(** No block is present under [i]. *)
Definition absent (i : jsstring) (w : World) : Prop :=
  blocksCache w !! i = None /\
  exists t, memory_blocks (db w) = Some t /\ t !! i = None.

(** Every cached block has a row: the cache is filled from the table
    and emptied with it. *)
Definition cacheBacked (w : World) : Prop :=
  forall i b, blocksCache w !! i = Some b ->
    exists t r, memory_blocks (db w) = Some t /\ t !! i = Some r.

(** The table of blocks exists and has a row. *)
Definition hasBlocks (w : World) : Prop :=
  exists t, memory_blocks (db w) = Some t /\ (0 < size t)%nat.

(** [b] with the content and timestamp an update leaves. *)
Definition rewritten (b : MemoryBlock) (c : jsstring) (ts : Z) : MemoryBlock :=
  mkMemoryBlock (id b) (label b) c (type b) ts (metadata b).

End WithHost.



Definition sumSquares (a : list float) : float :=
  fold_left (fun acc x => (acc + x * x)%float) a 0%float.


(** The blocks a search keeps, in input order: those with a stored
    embedding whose score reaches the threshold. *)
Definition kept (q : list float) (embeddings : gmap jsstring (list float))
    (threshold : float) (blocks : list MemoryBlock) : list Scored :=
  omap (fun b =>
          match embeddings !! id b with
          | Some e =>
              match cosineSimilarity q e with
              | inr s => if (threshold <=? s)%float then Some (mkScored b s) else None
              | inl _ => None
              end
          | None => None
          end) blocks.

(** A value above zero: a positive number or plus infinity. *)
Definition positive_sf (r : spec_float) : bool :=
  match r with
  | S754_infinity false | S754_finite false _ _ => true
  | _ => false
  end.


(** The unconsolidated summaries of a level: the rows of the level
    that have no parent, as the table holds them. *)
Definition unconsolidated (t : SummaryTable) (level : nat)
  : list ConversationSummary :=
  filter (fun s => summary_level s = level /\ parent_summary_id s = None)
    (summary_rows t).

(** The counts add up within the integers that numbers hold exactly:
    there the sum of the numbers is the sum of the integers. *)
Definition exactlySummed (summaries : list ConversationSummary) : Prop :=
  foldr Z.add 0 ((fun s => Z.abs (message_count s)) <$> summaries) <= 2 ^ 53.

(** The operations on the summary ladder. *)
Inductive SummaryOp : Type :=
| CreateBase (messages : list Message) (persona : PersonaConfig)
| CreateRecursive (summaries : list ConversationSummary) (targetLevel : nat)
    (persona : PersonaConfig)
| MarkConsolidated (summaryIds : list Z) (parentId : Z).

Section Ladder.
Context `{Env}.
Variable foreign_keys : bool.

(** The world one operation leaves, however it ends. *)
Definition step (w : World) (op : SummaryOp) : World :=
  match op with
  | CreateBase messages persona => snd (createBaseSummary messages persona w)
  | CreateRecursive summaries targetLevel persona =>
      snd (createRecursiveSummary summaries targetLevel persona w)
  | MarkConsolidated summaryIds parentId =>
      snd (markSummariesConsolidated foreign_keys summaryIds parentId w)
  end.

Definition run (w : World) (ops : list SummaryOp) : World :=
  fold_left step ops w.

End Ladder.

(** The rows of the summaries, none when the table is missing. *)
Definition summaryRows (w : World) : list ConversationSummary :=
  match conversation_summaries_v2 (db w) with
  | Some t => summary_rows t
  | None => []
  end.

(** Whether an operation names row [i] for consolidation. *)
Definition marks (op : SummaryOp) (i : Z) : Prop :=
  match op with
  | MarkConsolidated summaryIds _ => i ∈ summaryIds
  | _ => False
  end.

(** What every operation on the ladder keeps of the rows that are
    there: a row stays at its position with its id, a parent that is
    set stays set, and it stays the same for the rows whose id is not
    [named]. *)
Definition preserved (named : Z -> Prop) (w w' : World) : Prop :=
  forall k row, summaryRows w !! k = Some row ->
    exists row',
      summaryRows w' !! k = Some row' /\
      summary_id row' = summary_id row /\
      (is_Some (parent_summary_id row) -> is_Some (parent_summary_id row')) /\
      (~ named (summary_id row) -> parent_summary_id row' = parent_summary_id row).

(** The legacy table and its backup are the same in both worlds. *)
Definition sameLegacy (w w' : World) : Prop :=
  agent_memory (db w') = agent_memory (db w) /\
  agent_memory_legacy_backup (db w') = agent_memory_legacy_backup (db w).

(** The embeddings stored in a world, none when the table is missing. *)
Definition embeddingsOf (w : World) : gmap jsstring (list float) :=
  match memory_embeddings (db w) with
  | Some t => t
  | None => ∅
  end.

(** The input blocks that had no embedding among [existing]. *)
Definition lacking (existing : gmap jsstring (list float))
    (blocks : list MemoryBlock) : list MemoryBlock :=
  filter (fun b => existing !! id b = None) blocks.

(** The operations of the block manager. *)
Inductive BlockOp : Type :=
| GetBlock (i : jsstring)
| GetAllBlocks (ty : option MemoryBlockType)
| CreateBlock (i l c : jsstring) (t : MemoryBlockType)
| UpdateBlock (i c : jsstring)
| DeleteBlock (i : jsstring)
| InsertContent (i c : jsstring) (position : Position)
| ReplaceContent (i oldContent newContent : jsstring)
| RethinkBlock (i c : jsstring) (reason : option jsstring).

(** The strings that an operation hands to the store are well formed,
    so that the store gives them back as they are. The reason of a
    rethink is logged, not stored. *)
Definition wellFormedOp (op : BlockOp) : bool :=
  match op with
  | GetBlock i | DeleteBlock i => isWellFormed i
  | GetAllBlocks _ => true
  | CreateBlock i l c _ => isWellFormed i && isWellFormed l && isWellFormed c
  | UpdateBlock i c | InsertContent i c _ | RethinkBlock i c _ =>
      isWellFormed i && isWellFormed c
  | ReplaceContent i oldContent newContent =>
      isWellFormed i && isWellFormed oldContent && isWellFormed newContent
  end.

Section Manager.
Context `{Env} {scan : Scan}.

(** The cache agrees with the table: a cached block is what its row
    reads as. *)
Definition coherent (w : World) : Prop :=
  forall i b, blocksCache w !! i = Some b ->
    exists t r, memory_blocks (db w) = Some t /\ t !! i = Some r /\
                blockOfRow i r = Some b.

(** The world one operation of the manager leaves, however it ends. *)
Definition perform (w : World) (op : BlockOp) : World :=
  match op with
  | GetBlock i => snd (getBlock i w)
  | GetAllBlocks ty => snd (getAllBlocks ty w)
  | CreateBlock i l c t => snd (createBlock i l c t w)
  | UpdateBlock i c => snd (updateBlock i c w)
  | DeleteBlock i => snd (deleteBlock i w)
  | InsertContent i c position => snd (insertContent i c position w)
  | ReplaceContent i oldContent newContent =>
      snd (replaceContent i oldContent newContent w)
  | RethinkBlock i c reason => snd (rethinkBlock i c reason w)
  end.

End Manager.

(** The row a consolidation leaves of [s]. *)
Definition consolidatedInto (parentId : Z) (s : ConversationSummary)
  : ConversationSummary :=
  mkConversationSummary (summary_id s) (summary s) (summary_level s)
    (message_count s) (Some parentId) (created_at s).

(** What is left of a migrated entry: its heading and its text up to
    the white space at its end. *)
Definition migratedText (row : LegacyRow) : jsstring :=
  js "**" ++ purpose row ++ js "**" ++ trimEnd (newline ++ text row).

(** The entries [done] are in the cached blocks they were moved to. *)
Definition entriesKept `{Env} (done : list LegacyRow) (w : World) : Prop :=
  forall row, row ∈ done ->
    exists b, blocksCache w !! Migration.targetBlock (purpose row) = Some b /\
              includes (migratedText row) (content b) = true.

End Spec.

(** ** Sample hosts and stores *)

Module Fixtures.

(** A [JSON.parse] that knows the one text the engine writes. *)
Definition parseMetadata (s : jsstring) : option Json :=
  if decide (s = js "{}") then Some (JObject []) else None.

(** Lower-casing of the letters A to Z. *)
Definition asciiLower (s : jsstring) : jsstring :=
  (fun c => if (65 <=? c)%N && (c <=? 90)%N then (c + 32)%N else c) <$> s.

(** A host whose models always answer. *)
Definition online : Env :=
  mkEnv parseMetadata asciiLower
    (fun _ _ => AiResponse (Some [[0.5; 0.25; 0.125]%float]))
    (fun _ _ => Some (js "A summary.")).

(** A host whose embedding model is out of reach. *)
Definition offline : Env :=
  mkEnv parseMetadata asciiLower (fun _ _ => AiRejected) (fun _ _ => None).

(** A host whose embedding model answers twice and then fails. *)
Definition flaky : Env :=
  mkEnv parseMetadata asciiLower
    (fun n _ => if (n <? 2)%nat then AiResponse (Some [[1; 0]%float]) else AiRejected)
    (fun _ _ => Some (js "A summary.")).

Definition emptyDb : Db := mkDb (Some ∅) (Some ∅) None None (Some (mkSummaryTable [] 0)).

(** A store just initialized, at some time of day. *)
Definition fresh : World := mkWorld emptyDb ∅ 1700000000000 0.

(** [fresh] with one core block whose id is [b]. *)
Definition withBlock (c : jsstring) : World :=
  mkWorld
    (set_memory_blocks
       (Some {[ js "b" := mkBlockRow (js "B") c core 1600000000000 (Some (js "{}")) ]})
       emptyDb)
    ∅ 1700000000000 0.

Definition blockB (c : jsstring) : MemoryBlock :=
  mkMemoryBlock (js "b") (js "B") c core 1600000000000 (JObject []).

(** A host whose embedding model places every text on the first
    axis. *)
Definition axial : Env :=
  mkEnv parseMetadata asciiLower
    (fun _ _ => AiResponse (Some [[1; 0]%float]))
    (fun _ _ => Some (js "A summary.")).

Definition blockNamed (name : String.string) : MemoryBlock :=
  mkMemoryBlock (js name) (js name) (js "text") core 1600000000000 (JObject []).

(** Six blocks; [plain] has no stored embedding, [steep] and [steep2]
    score the same. *)
Definition searchBlocks : list MemoryBlock :=
  [blockNamed "steep"; blockNamed "plain"; blockNamed "across";
   blockNamed "near"; blockNamed "steep2"; blockNamed "along"].

Definition searchWorld : World :=
  mkWorld
    (set_memory_embeddings
       (Some (<[js "steep" := [3; 4]%float]>
               (<[js "across" := [0; 1]%float]>
                 (<[js "near" := [4; 3]%float]>
                   (<[js "steep2" := [3; 4]%float]>
                     (<[js "along" := [1; 0]%float]> ∅))))))
       emptyDb)
    ∅ 1700000000000 0.

(** A ladder of [n] base summaries, one per second, none of them
    consolidated. *)
Definition baseSummaries (n : nat) : list ConversationSummary :=
  (fun i => mkConversationSummary (Z.of_nat i + 1) (js "s") 0 20 None
              (1700000000000 + 1000 * Z.of_nat i)) <$> seq 0 n.

Definition ladderWorld (n : nat) : World :=
  mkWorld
    (set_summaries (Some (mkSummaryTable (baseSummaries n) (Z.of_nat n))) emptyDb)
    ∅ 1700000100000 0.

(** One base summary and two summaries of level 1. *)
Definition promotedWorld : World :=
  mkWorld
    (set_summaries
       (Some (mkSummaryTable
                [mkConversationSummary 1 (js "base") 0 20 None 1700000000000;
                 mkConversationSummary 2 (js "first") 1 200 None 1700000001000;
                 mkConversationSummary 3 (js "second") 1 200 None 1700000002000]
                3))
       emptyDb)
    ∅ 1700000100000 0.

(** A store that meets the rows of a table in rowid order, and one
    that meets them in the opposite order, as when an index is read
    backwards. *)
Definition rowidOrder : Plan :=
  mkPlan (fun _ rows => rows) (fun _ rows => reflexivity rows)
         (fun _ rows => rows) (fun _ rows => reflexivity rows).

Definition backwards : Plan :=
  mkPlan (fun _ => reverse) (fun _ => reverse_Permutation)
         (fun _ => reverse) (fun _ => reverse_Permutation).

(** Four base summaries written in the same millisecond, none of them
    consolidated, and a configuration that promotes three at a time. *)
Definition tiedSummaries : list ConversationSummary :=
  (fun i => mkConversationSummary i (js "s") 0 20 None 1700000000000)
    <$> [1; 2; 3; 4].

Definition tiedWorld : World :=
  mkWorld (set_summaries (Some (mkSummaryTable tiedSummaries 4)) emptyDb)
    ∅ 1700000100000 0.

Definition byThree : Summaries.SummarizationConfig := Summaries.mkConfig 20 3 3 3.

(** A store with three legacy entries and no backup. *)
Definition legacyWorld : World :=
  mkWorld
    (set_legacy
       (Some [mkLegacyRow (js "customer_notes") (js "prefers email") 1600000000000;
              mkLegacyRow (js "user_preferences") (js "likes tea") 1650000000000;
              mkLegacyRow (js "agent_info") (js "a helper") 1660000000000])
       None emptyDb)
    ∅ 1700000000000 0.

(** [legacyWorld] after its migration, when the legacy manager has
    created its table again and an entry has been written to it: both
    [agent_memory] and its backup exist. *)
Definition remigratedWorld : World :=
  let migrated :=
    snd (Migration.migrateLegacyMemoriesToBlocks (H := online) (plan := backwards)
           legacyWorld) in
  snd ((try_write "initializeDatabase" create_legacy_table ;;
        try_write "writeMemory"
          (upsert_legacy (js "user_preferences") (js "likes tea") 1700000060000))
         (elapse 60000 migrated)).

(** Three blocks, none of them embedded yet. *)
Definition threeBlocks : list MemoryBlock :=
  [blockNamed "one"; blockNamed "two"; blockNamed "three"].

(** A store that scans [memory_blocks] in the order of its keys. *)
Definition keyOrder : Scan :=
  mkScan map_to_list (fun t => reflexivity (map_to_list t)).

(** A store with two core blocks and an archival one, none of them in
    the cache. *)
Definition shelfWorld : World :=
  mkWorld
    (set_memory_blocks
       (Some (<[js "human" := mkBlockRow (js "Human") (js "Ann likes Tea") core
                                1600000000000 (Some (js "{}"))]>
               (<[js "persona" := mkBlockRow (js "My  Persona") (js "A helper") core
                                    1650000000000 None]>
                 (<[js "notes" := mkBlockRow (js "Notes") (js "tea at five") archival
                                    1660000000000 (Some (js "{}"))]> ∅))))
       emptyDb)
    ∅ 1700000000000 0.

(** [shelfWorld] before the table of embeddings was created. *)
Definition bareWorld : World :=
  mkWorld (set_memory_embeddings None (db shelfWorld)) ∅ 1700000000000 0.

(** [withBlock c] with an embedding stored for its block. *)
Definition embeddedWorld (c : jsstring) : World :=
  mkWorld
    (set_memory_embeddings (Some {[ js "b" := [1; 0]%float ]}) (db (withBlock c)))
    ∅ 1700000000000 0.

(** A persona whose summaries an OpenAI model writes, and one set up
    for Azure. *)
Definition summarizer : Summaries.PersonaConfig :=
  Summaries.mkPersona (Some (Summaries.mkLlmConfig openai None None)).

Definition azurePersona : Summaries.PersonaConfig :=
  Summaries.mkPersona (Some (Summaries.mkLlmConfig azure_openai None None)).


End Fixtures.

(** * Properties *)

Import MemoryBlocks MemoryExecutor SemanticSearch Summaries Migration Spec.

(** ** The block store *)

Section BlockStore.
Context `{Env}.

Lemma getBlock_cached i b w :
  blocksCache w !! i = Some b -> getBlock i w = (Success (Some b), w).
Proof. intros Hc. unfold getBlock. now rewrite Hc. Qed.

Lemma getBlock_loaded i b t r w :
  blocksCache w !! i = None ->
  memory_blocks (db w) = Some t -> t !! i = Some r ->
  blockOfRow i r = Some b ->
  getBlock i w = (Success (Some b), with_cache (<[i := b]> (blocksCache w)) w).
Proof.
  intros Hc Ht Hr Hb. unfold getBlock, select_block.
  now rewrite Hc, Ht, Hr, Hb.
Qed.

Lemma getBlock_absent i w :
  absent i w -> getBlock i w = (Success None, w).
Proof.
  intros [Hc (t & Ht & Hr)]. unfold getBlock, select_block.
  now rewrite Hc, Ht, Hr.
Qed.

(** Reading a block that is present returns it, leaves the tables
    alone and keeps it present. *)
Lemma getBlock_stored i b w :
  stored i b w ->
  exists w', getBlock i w = (Success (Some b), w') /\
             db w' = db w /\ clock w' = clock w /\ requests w' = requests w /\
             blocksCache w' !! i = Some b.
Proof.
  intros (t & r & Ht & Hr & Hb & [Hc | Hc]).
  - eexists. split; [eapply getBlock_loaded; eauto |].
    cbn. repeat split. apply lookup_insert_eq.
  - exists w. split; [now apply getBlock_cached | auto].
Qed.

Lemma updateBlock_run i c t w :
  memory_blocks (db w) = Some t ->
  updateBlock i c w =
    (Success tt,
     mkWorld
       (set_memory_blocks
          (Some (alter (fun r => mkBlockRow (row_label r) c (row_type r)
                                   (clock w) (row_metadata r)) i t)) (db w))
       (alter (fun b => rewritten b c (clock w)) i (blocksCache w))
       (clock w) (requests w)).
Proof.
  intros Ht. unfold updateBlock, bind, Date_now, try_write, update_block, cacheTouch.
  rewrite Ht. reflexivity.
Qed.

Lemma blockOfRow_rewritten i r b c ts :
  blockOfRow i r = Some b ->
  blockOfRow i (mkBlockRow (row_label r) c (row_type r) ts (row_metadata r))
  = Some (rewritten b c ts).
Proof.
  unfold blockOfRow. cbn. destruct (JSON_parse _); [|discriminate].
  intros [= <-]. reflexivity.
Qed.

(** Updating a block that is present succeeds and leaves it present
    with the new content and the time of the update. *)
Lemma updateBlock_stored i b c w :
  blocksCache w !! i = Some b -> stored i b w ->
  exists w', updateBlock i c w = (Success tt, w') /\
             stored i (rewritten b c (clock w)) w' /\
             blocksCache w' !! i = Some (rewritten b c (clock w)) /\
             clock w' = clock w /\ requests w' = requests w /\
             memory_embeddings (db w') = memory_embeddings (db w).
Proof.
  intros Hc (t & r & Ht & Hr & Hb & _).
  eexists. split; [now apply updateBlock_run with (t := t) |].
  assert (Hc' : alter (fun b0 => rewritten b0 c (clock w)) i (blocksCache w) !! i
                = Some (rewritten b c (clock w))).
  { rewrite lookup_alter_eq, Hc. reflexivity. }
  cbn. repeat split; auto.
  eexists _, _. cbn. repeat split.
  - rewrite lookup_alter_eq, Hr. reflexivity.
  - now apply blockOfRow_rewritten.
  - now right.
Qed.

End BlockStore.

Section CreateAndFetch.
Context `{Env}.

Lemma createBlock_run i l c t w tbl :
  memory_blocks (db w) = Some tbl -> tbl !! i = None ->
  createBlock i l c t w =
    (Success (mkMemoryBlock i l c t (clock w) (JObject [])),
     mkWorld
       (set_memory_blocks
          (Some (<[i := mkBlockRow l c t (clock w) (Some (js "{}"))]> tbl)) (db w))
       (<[i := mkMemoryBlock i l c t (clock w) (JObject [])]> (blocksCache w))
       (clock w) (requests w)).
Proof.
  intros Ht Hi.
  unfold createBlock, bind, Date_now, try_write, insert_block, cacheSet, succeed.
  rewrite Ht, Hi. reflexivity.
Qed.

(** [createBlock] succeeds exactly when its INSERT does: the table is
    there and the id is new. *)
Lemma createBlock_success_iff i l c t w :
  (exists b w', createBlock i l c t w = (Success b, w')) <->
  (exists tbl, memory_blocks (db w) = Some tbl /\ tbl !! i = None).
Proof.
  split.
  - intros (b & w' & Hrun). revert Hrun.
    unfold createBlock, bind, Date_now, try_write, insert_block.
    destruct (memory_blocks (db w)) as [tbl|]; [|discriminate].
    destruct (tbl !! i) eqn:Hi; [discriminate|]. eauto.
  - intros (tbl & Ht & Hi). erewrite createBlock_run by eauto. eauto.
Qed.

(** C4. After [createBlock(id, label, content, type)] has succeeded,
    [getBlock(id)] returns a block with these four fields, an empty
    object as metadata and the time of the creation as [updated_at],
    which is not after any later reading of the clock. *)
Theorem createBlock_then_getBlock i l c t w b w' d :
  createBlock i l c t w = (Success b, w') -> 0 <= d ->
  exists b',
    getBlock i (elapse d w') = (Success (Some b'), elapse d w') /\
    b' = b /\
    id b' = i /\ label b' = l /\ content b' = c /\ type b' = t /\
    metadata b' = JObject [] /\
    updated_at b' = clock w /\ updated_at b' <= clock (elapse d w').
Proof.
  intros Hrun Hd.
  destruct (proj1 (createBlock_success_iff i l c t w)) as (tbl & Ht & Hi); [eauto|].
  rewrite (createBlock_run _ _ _ _ _ _ Ht Hi) in Hrun.
  injection Hrun as <- <-.
  eexists. split.
  - apply getBlock_cached. cbn. apply lookup_insert_eq.
  - cbn. repeat split; lia.
Qed.

(** Neither operation ever touches the embeddings or the model. *)
Lemma createBlock_leaves_embeddings i l c t w :
  memory_embeddings (db (snd (createBlock i l c t w))) = memory_embeddings (db w) /\
  requests (snd (createBlock i l c t w)) = requests w.
Proof.
  unfold createBlock, bind, Date_now, try_write, insert_block, cacheSet, succeed.
  destruct (memory_blocks (db w)) as [tbl|]; cbn; auto.
  destruct (tbl !! i); cbn; auto.
Qed.

Lemma updateBlock_leaves_embeddings i c w :
  memory_embeddings (db (snd (updateBlock i c w))) = memory_embeddings (db w) /\
  requests (snd (updateBlock i c w)) = requests w.
Proof.
  unfold updateBlock, bind, Date_now, try_write, update_block, cacheTouch.
  destruct (memory_blocks (db w)) as [tbl|]; cbn; auto.
Qed.

End CreateAndFetch.

(** C1, as the code has it. A block is created in a store whose
    embedding model answers every request: the block is written, yet
    no request reaches the model and [memory_embeddings] has no row for
    the block. [updateBlockEmbedding], which would write that row, is
    not called by [createBlock] or [updateBlock]. *)
Theorem createBlock_stores_no_embedding :
  let run := createBlock (js "b") (js "B") (js "hello") core Fixtures.fresh in
  let after := updateBlock (js "b") (js "hello again") (snd run) in
  fst run = Success (mkMemoryBlock (js "b") (js "B") (js "hello") core
                       1700000000000 (JObject [])) /\
  requests (snd run) = 0%nat /\
  memory_embeddings (db (snd run)) = Some ∅ /\
  fst after = Success tt /\
  requests (snd after) = 0%nat /\
  memory_embeddings (db (snd after)) = Some ∅ /\
  memory_embeddings
    (db (snd (updateBlockEmbedding (H := Fixtures.online) (js "b") (js "hello again") (snd after))))
  = Some {[ js "b" := [0.5; 0.25; 0.125]%float ]}.
Proof.
  cbv zeta.
  erewrite createBlock_run by (cbn; eauto using lookup_empty).
  cbn [fst snd].
  erewrite updateBlock_run by (cbn; eauto).
  cbn. repeat split; reflexivity.
Qed.

Lemma createBlock_then_getBlock_witness :
  exists b',
    getBlock (H := Fixtures.online) (js "test-block")
      (elapse 250
         (snd (createBlock (js "test-block") (js "Test Block") (js "Test content")
                 core Fixtures.fresh)))
    = (Success (Some b'),
       elapse 250
         (snd (createBlock (js "test-block") (js "Test Block") (js "Test content")
                 core Fixtures.fresh))) /\
    b' = mkMemoryBlock (js "test-block") (js "Test Block") (js "Test content")
           core 1700000000000 (JObject []) /\
    id b' = js "test-block" /\ label b' = js "Test Block" /\
    content b' = js "Test content" /\ type b' = core /\
    metadata b' = JObject [] /\
    updated_at b' = 1700000000000 /\ updated_at b' <= 1700000000250.
Proof.
  apply (createBlock_then_getBlock (H := Fixtures.online)
           (js "test-block") (js "Test Block") (js "Test content") core
           Fixtures.fresh
           (mkMemoryBlock (js "test-block") (js "Test Block") (js "Test content")
              core 1700000000000 (JObject []))
           (snd (createBlock (js "test-block")
                   (js "Test Block") (js "Test content") core Fixtures.fresh))
           250).
  - erewrite createBlock_run by (cbn; eauto using lookup_empty). reflexivity.
  - lia.
Defined.

(** ** Trimming *)













(** ** Inserting into a block *)

Section InsertContent.
Context `{Env}.

Lemma stored_cached i b w :
  stored i b w -> blocksCache w !! i = Some b \/ blocksCache w !! i = None.
Proof. intros (t & r & _ & _ & _ & [Hc | Hc]); auto. Qed.



End InsertContent.



(** ** Replacing in a block *)

Section ReplaceContent.
Context `{Env}.

(** The handler answers a pattern that does not occur with
    [success: false] and writes nothing. *)
Lemma executeMemoryReplace_not_found i old new b w :
  stored i b w -> includes old (content b) = false ->
  exists w' msg,
    executeMemoryReplace i old new w = (Success (mkToolResult false msg), w') /\
    startsWith (js "Content to replace not found in block '") msg = true /\
    db w' = db w /\ stored i b w'.
Proof.
  intros Hs Hno.
  destruct (getBlock_stored i b w Hs) as (w1 & Hget & Hdb & _ & _ & Hc).
  exists w1, (js "Content to replace not found in block '" ++ i ++
              js "'. Current content: " ++ substring0 100 (content b) ++ js "...").
  unfold executeMemoryReplace, bind. rewrite Hget, Hno. cbn [negb].
  repeat split; auto.
  destruct Hs as (t & r & Ht & Hr & Hb & _).
  exists t, r. rewrite Hdb. auto.
Qed.

(** A pattern that occurs is replaced as [String.prototype.replace]
    replaces it. *)
Lemma executeMemoryReplace_found i old new b w :
  stored i b w -> includes old (content b) = true ->
  exists w' msg,
    executeMemoryReplace i old new w = (Success (mkToolResult true msg), w') /\
    stored i (rewritten b (JsString.replace old new (content b)) (clock w)) w'.
Proof.
  intros Hs Hyes.
  destruct (getBlock_stored i b w Hs) as (w1 & Hget & Hdb & Hclk & _ & Hc).
  assert (Hs1 : stored i b w1).
  { destruct Hs as (t & r & Ht & Hr & Hb & _). exists t, r. rewrite Hdb. auto. }
  destruct (updateBlock_stored i b (JsString.replace old new (content b)) w1 Hc Hs1)
    as (w2 & Hup & Hs2 & _).
  exists w2, (js "Successfully replaced content in block '" ++ i ++ quote).
  unfold executeMemoryReplace, bind. rewrite Hget, Hyes. cbn [negb].
  unfold replaceContent, bind. rewrite (getBlock_cached i b w1 Hc), Hup.
  rewrite <- Hclk. split; [reflexivity | exact Hs2].
Qed.

End ReplaceContent.

(** A replacement without a dollar sign is taken literally. *)
Lemma getSubstitution_literal matched before after template :
  dollar ∉ template ->
  getSubstitution matched before after template = template.
Proof.
  induction template as [|c rest IH]; [reflexivity|].
  intros Hno. cbn [getSubstitution].
  destruct (c =? dollar)%N eqn:Hc.
  - apply N.eqb_eq in Hc. subst c. exfalso. apply Hno. left.
  - f_equal. apply IH. intros Hin. apply Hno. now right.
Qed.

Lemma replace_literal p r s :
  dollar ∉ r -> JsString.replace p r s = replaceFirstLiteral p r s.
Proof.
  intros Hno. unfold JsString.replace, replaceFirstLiteral.
  destruct (indexOf p s); [|reflexivity].
  now rewrite getSubstitution_literal.
Qed.

(** C3, as the code has it. The replacement text is handed to
    [String.prototype.replace], which expands [$$], [$&], [$`] and
    [$']: replacing "TBD" by "$$$" in "Price: TBD" reports success
    and stores "Price: $$", where the first-occurrence substitution is
    "Price: $$$". *)
Theorem executeMemoryReplace_expands_dollar :
  let run := executeMemoryReplace (H := Fixtures.online)
               (js "b") (js "TBD") (js "$$$") (Fixtures.withBlock (js "Price: TBD")) in
  fst run = Success (mkToolResult true
                       (js "Successfully replaced content in block 'b'")) /\
  fst (getBlock (H := Fixtures.online) (js "b") (snd run))
  = Success (Some (rewritten (Fixtures.blockB (js "Price: TBD"))
                     (js "Price: $$") 1700000000000)) /\
  replaceFirstLiteral (js "TBD") (js "$$$") (js "Price: TBD") = js "Price: $$$".
Proof. repeat split; vm_compute; reflexivity. Qed.

(** The example of the specification. *)
Example executeMemoryReplace_example :
  let run := executeMemoryReplace (H := Fixtures.online)
               (js "b") (js "old text") (js "new text")
               (Fixtures.withBlock (js "The old text here")) in
  fst (getBlock (H := Fixtures.online) (js "b") (snd run))
  = Success (Some (rewritten (Fixtures.blockB (js "The old text here"))
                     (js "The new text here") 1700000000000)).
Proof. vm_compute. reflexivity. Qed.

(** ** Cosine similarity *)









(** The scenarios of the test suite: identical and orthogonal unit
    vectors give exactly 1 and 0. *)
Example cosineSimilarity_identical :
  cosineSimilarity [1; 0; 0]%float [1; 0; 0]%float = inr 1%float.
Proof. reflexivity. Qed.

Example cosineSimilarity_orthogonal :
  cosineSimilarity [1; 0; 0]%float [0; 1; 0]%float = inr 0%float.
Proof. reflexivity. Qed.


(** Where nothing underflows or overflows the quotient is still
    rounded: the similarity of (1, 1) with itself is the double just
    below 1. *)
Lemma cosineSimilarity_self_below_one :
  (0 <? sqrt (sumSquares [1; 1]%float))%float = true /\
  cosineSimilarity [1; 1]%float [1; 1]%float <> inr 1%float.
Proof.
  split; [reflexivity|].
  intros E.
  apply (f_equal (fun r => match r with
                           | inr x => (x =? 1)%float
                           | inl _ => false
                           end)) in E.
  vm_compute in E. discriminate.
Qed.

(** With the opposite vector the result is the double just above -1. *)
Example cosineSimilarity_opposite :
  cosineSimilarity [1; 1]%float [-1; -1]%float
  = inr (- (2 / (sqrt 2 * sqrt 2)))%float /\
  (- (2 / (sqrt 2 * sqrt 2)) =? -1)%float = false.
Proof. split; reflexivity. Qed.

(** ** The order of binary64 values *)

Ltac fold_pos_compare :=
  repeat match goal with
    | |- context [PosDef.Pos.compare_cont Eq ?a ?b] =>
        change (PosDef.Pos.compare_cont Eq a b) with (Pos.compare a b)
    end.

Lemma SFcompare_antisym x y :
  SFcompare y x = CompOpp <$> SFcompare x y.
Proof.
  destruct x as [sx|sx| |sx mx ex], y as [sy|sy| |sy my ey]; cbn;
    try reflexivity;
    try (destruct sx; reflexivity); try (destruct sy; reflexivity);
    try (destruct sx, sy; reflexivity).
  destruct sx, sy; try reflexivity; f_equal; fold_pos_compare;
    rewrite (Z.compare_antisym ey ex), (Pos.compare_antisym my mx);
    destruct (ey ?= ex)%Z, (my ?= mx)%positive; reflexivity.
Qed.

Lemma SFcompare_trans x y z :
  SFcompare x y = Some Lt \/ SFcompare x y = Some Eq ->
  SFcompare y z = Some Lt \/ SFcompare y z = Some Eq ->
  SFcompare x z = Some Lt \/ SFcompare x z = Some Eq.
Proof.
  destruct x as [sx|sx| |sx mx ex], y as [sy|sy| |sy my ey],
           z as [sz|sz| |sz mz ez]; cbn;
    try (intros [H|H] [H'|H']; discriminate);
    try (destruct sx, sy, sz; cbn; intuition congruence).
  all: try (destruct sx, sy; cbn; intuition congruence).
  all: try (destruct sx, sz; cbn; intuition congruence).
  all: try (destruct sy, sz; cbn; intuition congruence).
  all: fold_pos_compare.
  all: destruct sx, sy, sz; cbn; try (intuition congruence).
  all: destruct (Z.compare_spec ex ey), (Z.compare_spec ey ez),
         (Z.compare_spec ex ez); try lia; try (intuition congruence).
  all: subst.
  all: fold_pos_compare.
  all: destruct (Pos.compare_spec mx my), (Pos.compare_spec my mz),
         (Pos.compare_spec mx mz); cbn; try lia; try (intuition congruence).
Qed.

Lemma float_leb_cases (x y : float) :
  (x <=? y)%float = true <->
  (SFcompare (Prim2SF x) (Prim2SF y) = Some Lt \/
   SFcompare (Prim2SF x) (Prim2SF y) = Some Eq).
Proof.
  rewrite FloatAxioms.leb_spec. unfold SFleb.
  destruct (SFcompare _ _) as [[| |]|]; intuition congruence.
Qed.

Lemma float_leb_trans (x y z : float) :
  (x <=? y)%float = true -> (y <=? z)%float = true -> (x <=? z)%float = true.
Proof.
  intros Hxy Hyz. apply (proj2 (float_leb_cases x z)).
  apply (proj1 (float_leb_cases x y)) in Hxy.
  apply (proj1 (float_leb_cases y z)) in Hyz.
  eapply SFcompare_trans; eauto.
Qed.

(** Values that are not NaN are ordered totally: [x < y] fails exactly
    when [y <= x]. *)
Lemma float_ltb_negb_leb (x y : float) :
  (x <=? x)%float = true -> (y <=? y)%float = true ->
  (x <? y)%float = negb (y <=? x)%float.
Proof.
  rewrite FloatAxioms.ltb_spec, !FloatAxioms.leb_spec. unfold SFltb, SFleb.
  rewrite (SFcompare_antisym (Prim2SF x) (Prim2SF y)).
  destruct (Prim2SF x) as [sx|sx| |sx mx ex], (Prim2SF y) as [sy|sy| |sy my ey];
    cbn; try discriminate; intros _ _;
    try (destruct sx; reflexivity); try (destruct sy; reflexivity);
    try (destruct sx, sy; reflexivity).
  destruct sx, sy; try reflexivity;
    destruct (ex ?= ey)%Z; try reflexivity;
    destruct (PosDef.Pos.compare_cont Eq mx my); reflexivity.
Qed.

Lemma float_leb_refl_r (t s : float) :
  (t <=? s)%float = true -> (s <=? s)%float = true.
Proof.
  rewrite !FloatAxioms.leb_spec. unfold SFleb.
  destruct (Prim2SF t) as [st|st| |st mt et], (Prim2SF s) as [ss|ss| |ss ms es];
    cbn; try discriminate; intros _;
    try (destruct ss; reflexivity).
  all: fold_pos_compare; rewrite Z.compare_refl, Pos.compare_refl;
    destruct ss; reflexivity.
Qed.

Lemma float_ltb_leb (x y : float) :
  (x <? y)%float = true -> (x <=? y)%float = true.
Proof.
  rewrite FloatAxioms.ltb_spec, FloatAxioms.leb_spec. unfold SFltb, SFleb.
  destruct (SFcompare _ _) as [[| |]|]; congruence.
Qed.

Lemma float_eqb_leb (x v : float) :
  (x =? v)%float = true -> (x <=? v)%float = true /\ (v <=? x)%float = true.
Proof.
  rewrite FloatAxioms.eqb_spec, !FloatAxioms.leb_spec. unfold SFeqb, SFleb.
  rewrite (SFcompare_antisym (Prim2SF x) (Prim2SF v)).
  destruct (SFcompare _ _) as [[| |]|]; cbn; intuition congruence.
Qed.

(** Two values equal to a third are not below one another. *)
Lemma float_eqb_not_ltb (x y v : float) :
  (x =? v)%float = true -> (y =? v)%float = true -> (x <? y)%float = false.
Proof.
  intros Hx Hy.
  destruct (float_eqb_leb x v Hx) as [Hxv Hvx].
  destruct (float_eqb_leb y v Hy) as [Hyv Hvy].
  rewrite float_ltb_negb_leb by eauto using float_leb_refl_r.
  now rewrite (float_leb_trans y v x).
Qed.

(** ** The sign of a difference

    [b.score - a.score] is positive exactly when [a.score < b.score]:
    the difference of two binary64 values is rounded, but never to zero
    and never across it. *)

Lemma digits2_pos_bounds (m : positive) :
  2 ^ (Zpos (digits2_pos m) - 1) <= Zpos m < 2 ^ Zpos (digits2_pos m).
Proof.
  induction m as [m IH|m IH|]; cbn [digits2_pos].
  - rewrite Pos2Z.inj_succ.
    replace (Z.succ (Zpos (digits2_pos m)) - 1) with (Z.succ (Zpos (digits2_pos m) - 1)) by lia.
    rewrite !Z.pow_succ_r by lia. lia.
  - rewrite Pos2Z.inj_succ.
    replace (Z.succ (Zpos (digits2_pos m)) - 1) with (Z.succ (Zpos (digits2_pos m) - 1)) by lia.
    rewrite !Z.pow_succ_r by lia. lia.
  - cbn. lia.
Qed.

Lemma iter_xO_pow (m d : positive) :
  Zpos (Pos.iter xO m d) = Zpos m * 2 ^ Zpos d.
Proof.
  change (Pos.iter xO m d) with (shift_pos d m).
  rewrite shift_pos_correct, Z.mul_comm. reflexivity.
Qed.

Lemma SF_pos_iter (m d : positive) :
  Zpos (PosDef.Pos.iter xO m d) = Zpos m * 2 ^ Zpos d.
Proof. exact (iter_xO_pow m d). Qed.

Lemma shr_1_m mrs : 0 <= shr_m mrs -> shr_m (shr_1 mrs) = Z.div2 (shr_m mrs).
Proof.
  destruct mrs as [[|[p|p|]|p] r s]; cbn; try reflexivity; lia.
Qed.

Lemma iter_shr_m p : forall mrs,
  0 <= shr_m mrs ->
  shr_m (SpecFloat.iter_pos shr_1 p mrs) = Z.shiftr (shr_m mrs) (Zpos p).
Proof.
  induction p as [p IH|p IH|]; intros mrs Hm; cbn [SpecFloat.iter_pos].
  - assert (Ha : 0 <= shr_m (shr_1 mrs)).
    { rewrite shr_1_m by assumption. now apply Z.div2_nonneg. }
    pose proof (IH _ Ha) as Hb.
    assert (Hb0 : 0 <= shr_m (SpecFloat.iter_pos shr_1 p (shr_1 mrs))).
    { rewrite Hb. now apply Z.shiftr_nonneg. }
    rewrite (IH _ Hb0), Hb, shr_1_m by assumption.
    rewrite Z.div2_spec, !Z.shiftr_shiftr by lia. f_equal. lia.
  - pose proof (IH _ Hm) as Hb.
    assert (Hb0 : 0 <= shr_m (SpecFloat.iter_pos shr_1 p mrs)).
    { rewrite Hb. now apply Z.shiftr_nonneg. }
    rewrite (IH _ Hb0), Hb.
    rewrite Z.shiftr_shiftr by lia. f_equal. lia.
  - rewrite shr_1_m by assumption. now rewrite Z.div2_spec.
Qed.

Lemma shr_m_of_loc m l : shr_m (shr_record_of_loc m l) = m.
Proof. destruct l as [|[| |]]; reflexivity. Qed.

Lemma shr_fexp_positive m e l :
  SpecFloat.emin prec emax <= e ->
  0 < shr_m (fst (shr_fexp prec emax (Zpos m) e l)) /\
  SpecFloat.emin prec emax <= snd (shr_fexp prec emax (Zpos m) e l).
Proof.
  intros He. unfold shr_fexp, shr, fexp, Zdigits2.
  pose proof (digits2_pos_bounds m) as Hd.
  set (dg := Zpos (digits2_pos m)) in *.
  unfold SpecFloat.emin, prec, emax in *.
  destruct (Z.max (dg + e - 53) (3 - 1024 - 53) - e) as [|p|p] eqn:Hn; cbn [fst snd].
  - rewrite shr_m_of_loc. lia.
  - rewrite iter_shr_m, shr_m_of_loc by (rewrite shr_m_of_loc; lia).
    split; [|lia].
    rewrite Z.shiftr_div_pow2 by lia.
    apply Z.div_str_pos. split; [apply Z.pow_pos_nonneg; lia|].
    transitivity (2 ^ (dg - 1)); [|lia].
    apply Z.pow_le_mono_r; lia.
  - rewrite shr_m_of_loc. lia.
Qed.

Lemma binary_round_aux_positive m e l :
  SpecFloat.emin prec emax <= e ->
  positive_sf (binary_round_aux prec emax false (Zpos m) e l) = true.
Proof.
  intros He. unfold binary_round_aux.
  pose proof (shr_fexp_positive m e l He) as [Hm He'].
  destruct (shr_fexp prec emax (Zpos m) e l) as [mrs' e']. cbn [fst snd] in *.
  assert (Hr : 0 < round_nearest_even (shr_m mrs') (loc_of_shr_record mrs')).
  { unfold round_nearest_even.
    destruct (loc_of_shr_record mrs') as [|[| |]]; try lia.
    destruct (Z.even (shr_m mrs')); lia. }
  destruct (round_nearest_even (shr_m mrs') (loc_of_shr_record mrs')) as [|q|q];
    try lia.
  pose proof (shr_fexp_positive q e' loc_Exact He') as [Hm' _].
  destruct (shr_fexp prec emax (Zpos q) e' loc_Exact) as [mrs'' e''].
  cbn [fst snd] in *.
  destruct (shr_m mrs'') as [|q'|q']; try lia.
  now destruct (e'' <=? emax - prec).
Qed.

Lemma binary_round_aux_negative mx e l :
  positive_sf (binary_round_aux prec emax true mx e l) = false.
Proof.
  unfold binary_round_aux.
  destruct (shr_fexp prec emax mx e l) as [mrs' e'].
  destruct (shr_fexp prec emax _ e' loc_Exact) as [mrs'' e''].
  destruct (shr_m mrs'') as [|q'|q']; try reflexivity.
  now destruct (e'' <=? emax - prec).
Qed.

Lemma binary_normalize_positive D e :
  SpecFloat.emin prec emax <= e ->
  positive_sf (binary_normalize prec emax D e false) = (0 <? D).
Proof.
  intros He. destruct D as [|d|d]; cbn [binary_normalize]; unfold binary_round.
  - reflexivity.
  - destruct (shl_align d e _) as [mz ez] eqn:Hal.
    change (0 <? Zpos d) with true.
    apply binary_round_aux_positive.
    revert Hal. unfold shl_align, fexp.
    destruct (Z.max _ _ - e) eqn:Hn; intros [= <- <-]; lia.
  - destruct (shl_align d e _) as [mz ez].
    apply binary_round_aux_negative.
Qed.

Lemma bounded_canonical m e :
  bounded prec emax m e = true ->
  Zpos (digits2_pos m) <= 53 /\ -1074 <= e /\
  (-1074 < e -> Zpos (digits2_pos m) = 53).
Proof.
  unfold bounded, canonical_mantissa, fexp, SpecFloat.emin, prec, emax.
  rewrite andb_true_iff, Z.eqb_eq. lia.
Qed.

Lemma shl_align_val m e ez :
  ez <= e -> Zpos (fst (shl_align m e ez)) = Zpos m * 2 ^ (e - ez).
Proof.
  intros Hle. unfold shl_align.
  destruct (ez - e) as [|d|d] eqn:Hd; cbn [fst].
  - replace (e - ez) with 0 by lia. lia.
  - lia.
  - rewrite SF_pos_iter. f_equal. f_equal. lia.
Qed.

(** Of two canonical mantissas the one with the larger exponent is the
    larger once both are aligned. *)
Lemma aligned_lt m1 e1 m2 e2 :
  bounded prec emax m1 e1 = true -> bounded prec emax m2 e2 = true ->
  e1 < e2 ->
  Zpos m1 < Zpos m2 * 2 ^ (e2 - e1).
Proof.
  intros H1 H2 Hlt.
  destruct (bounded_canonical _ _ H1) as (Hd1 & He1 & _).
  destruct (bounded_canonical _ _ H2) as (_ & _ & Hd2).
  pose proof (digits2_pos_bounds m1) as [_ Hm1].
  pose proof (digits2_pos_bounds m2) as [Hm2 _].
  rewrite Hd2 in Hm2 by lia.
  assert (Hp1 : 2 ^ Zpos (digits2_pos m1) <= 2 ^ 53)
    by (apply Z.pow_le_mono_r; lia).
  assert (Hp2 : 2 ^ 1 <= 2 ^ (e2 - e1)) by (apply Z.pow_le_mono_r; lia).
  change (2 ^ 1) with 2 in Hp2.
  change (2 ^ (53 - 1)) with 4503599627370496 in Hm2.
  change (2 ^ 53) with 9007199254740992 in Hp1.
  nia.
Qed.

Lemma SFsub_sign X Y :
  SpecFloat.valid_binary prec emax X = true ->
  SpecFloat.valid_binary prec emax Y = true ->
  positive_sf (SF64sub Y X) = SFltb X Y.
Proof.
  unfold SF64sub, SFsub, SFltb.
  destruct X as [sx|sx| |sx mx ex], Y as [sy|sy| |sy my ey]; cbn;
    intros HX HY;
    try reflexivity;
    try (destruct sx; reflexivity); try (destruct sy; reflexivity);
    try (destruct sx, sy; reflexivity).
  destruct (bounded_canonical _ _ HX) as (_ & HeX & _).
  destruct (bounded_canonical _ _ HY) as (_ & HeY & _).
  rewrite binary_normalize_positive
    by (unfold SpecFloat.emin, prec, emax; lia).
  pose proof (shl_align_val my ey (Z.min ey ex) ltac:(lia)) as HMy.
  pose proof (shl_align_val mx ex (Z.min ey ex) ltac:(lia)) as HMx.
  destruct (shl_align my ey (Z.min ey ex)) as [My ey'].
  destruct (shl_align mx ex (Z.min ey ex)) as [Mx ex'].
  cbn [fst] in *.
  change (PosDef.Pos.compare_cont Eq mx my) with (Pos.compare mx my).
  destruct (Z.compare_spec ex ey) as [Heq | Hlt | Hgt].
  - subst ey. rewrite Z.min_id, Z.sub_diag in HMy, HMx.
    change (2 ^ 0) with 1 in HMy, HMx.
    destruct (Pos.compare_spec mx my) as [Hm | Hm | Hm];
      destruct sx, sy; cbn;
      try (apply Z.ltb_lt; lia); try (apply Z.ltb_ge; lia).
  - pose proof (aligned_lt _ _ _ _ HX HY Hlt) as Hord.
    rewrite Z.min_r in HMy, HMx by lia.
    rewrite Z.sub_diag in HMx. change (2 ^ 0) with 1 in HMx.
    destruct sx, sy; cbn;
      try (apply Z.ltb_lt; lia); try (apply Z.ltb_ge; lia).
  - pose proof (aligned_lt _ _ _ _ HY HX Hgt) as Hord.
    rewrite Z.min_l in HMy, HMx by lia.
    rewrite Z.sub_diag in HMy. change (2 ^ 0) with 1 in HMy.
    destruct sx, sy; cbn;
      try (apply Z.ltb_lt; lia); try (apply Z.ltb_ge; lia).
Qed.

(** The sign of a difference tells the order. *)
Lemma float_sub_sign (x y : float) : (0 <? y - x)%float = (x <? y)%float.
Proof.
  rewrite !FloatAxioms.ltb_spec, sub_spec.
  rewrite <- (SFsub_sign _ _ (Prim2SF_valid x) (Prim2SF_valid y)).
  change (Prim2SF 0) with (S754_zero false).
  unfold SFltb.
  destruct (SF64sub (Prim2SF y) (Prim2SF x)) as [s|s| |s m e]; cbn;
    try reflexivity; destruct s; reflexivity.
Qed.

(** ** Ranking *)

Lemma sortInsert_perm {A} (comparefn : A -> A -> float) x l :
  sortInsert comparefn x l ≡ₚ x :: l.
Proof.
  induction l as [|y l IH]; cbn; [reflexivity|].
  destruct (0 <? comparefn x y)%float; [|reflexivity].
  rewrite IH. apply Permutation_swap.
Qed.

Lemma Array_sort_perm {A} (comparefn : A -> A -> float) l :
  Array_sort comparefn l ≡ₚ l.
Proof.
  induction l as [|x l IH]; cbn; [reflexivity|].
  fold (Array_sort comparefn l). now rewrite sortInsert_perm, IH.
Qed.

Section Ranking.

(** The scores being sorted: none is NaN. *)
Variable scores : list float.
Hypothesis scores_numbers : forall s, s ∈ scores -> (s <=? s)%float = true.

Let ranked (l : list Scored) : Prop := forall r, r ∈ l -> score r ∈ scores.

Let notBelow (a b : Scored) : Prop := (score a <? score b)%float = false.

Local Abbreviation ties v := (fun r : Scored => (score r =? v)%float = true).

Lemma sortInsert_sorted x l :
  ranked (x :: l) -> StronglySorted notBelow l ->
  StronglySorted notBelow (sortInsert byScoreDescending x l).
Proof.
  intros Hr Hs. induction Hs as [|y l Hs IH Hy]; cbn.
  - repeat constructor.
  - assert (Hx : score x ∈ scores) by (apply Hr; left).
    assert (Hyr : score y ∈ scores) by (apply Hr; right; left).
    unfold byScoreDescending at 1. rewrite float_sub_sign.
    destruct (score x <? score y)%float eqn:Hlt.
    + constructor.
      * apply IH. intros r Hin. apply Hr.
        apply elem_of_cons in Hin as [-> | Hin]; [left | right; now right].
      * rewrite sortInsert_perm. constructor; [|assumption].
        unfold notBelow. rewrite float_ltb_negb_leb by auto.
        now rewrite (float_ltb_leb _ _ Hlt).
    + constructor; [now constructor|].
      constructor; [exact Hlt|].
      rewrite Forall_forall in Hy |- *. intros z Hz.
      assert (Hzr : score z ∈ scores) by (apply Hr; right; now right).
      specialize (Hy z Hz). unfold notBelow in *.
      rewrite float_ltb_negb_leb in Hlt, Hy |- * by auto.
      apply negb_false_iff in Hlt, Hy. apply negb_false_iff.
      now apply float_leb_trans with (y := score y).
Qed.

Lemma Array_sort_sorted l :
  ranked l -> StronglySorted notBelow (Array_sort byScoreDescending l).
Proof.
  induction l as [|x l IH]; intros Hr; cbn; [constructor|].
  fold (Array_sort byScoreDescending l).
  apply sortInsert_sorted.
  - intros r Hin. apply Hr.
    apply elem_of_cons in Hin as [-> | Hin]; [left | right].
    now rewrite Array_sort_perm in Hin.
  - apply IH. intros r Hin. apply Hr. now right.
Qed.

(** An element only moves behind elements of a higher score, so those
    that tie keep their order. *)
Lemma sortInsert_ties v x l :
  ranked (x :: l) ->
  filter (ties v) (sortInsert byScoreDescending x l) = filter (ties v) (x :: l).
Proof.
  intros Hr. induction l as [|y l IH]; cbn [sortInsert]; [reflexivity|].
  assert (Hx : score x ∈ scores) by (apply Hr; left).
  assert (Hyr : score y ∈ scores) by (apply Hr; right; left).
  unfold byScoreDescending at 1. rewrite float_sub_sign.
  destruct (score x <? score y)%float eqn:Hlt; [|reflexivity].
  rewrite (filter_cons (ties v) y), IH.
  2:{ intros r Hin. apply Hr.
      apply elem_of_cons in Hin as [-> | Hin]; [left | right; now right]. }
  rewrite !(filter_cons (ties v)).
  destruct (decide (ties v y)) as [Hty|]; [|reflexivity].
  destruct (decide (ties v x)) as [Htx|]; [|reflexivity].
  cbv beta in Hty, Htx.
  rewrite (float_eqb_not_ltb _ _ _ Htx Hty) in Hlt. discriminate.
Qed.

Lemma Array_sort_ties v l :
  ranked l ->
  filter (ties v) (Array_sort byScoreDescending l) = filter (ties v) l.
Proof.
  induction l as [|x l IH]; intros Hr; cbn; [reflexivity|].
  fold (Array_sort byScoreDescending l).
  rewrite sortInsert_ties.
  - rewrite !(filter_cons (ties v)), IH; [reflexivity|].
    intros r Hin. apply Hr. now right.
  - intros r Hin. apply Hr.
    apply elem_of_cons in Hin as [-> | Hin]; [left | right].
    now rewrite Array_sort_perm in Hin.
Qed.

End Ranking.

(** ** Semantic search *)

Section Search.
Context `{Env}.

Local Abbreviation ties v := (fun r : Scored => (score r =? v)%float = true).

Lemma scoreBlocks_kept q embeddings threshold blocks results :
  scoreBlocks q embeddings threshold blocks = inr results ->
  results = kept q embeddings threshold blocks.
Proof.
  revert results. induction blocks as [|b rest IH]; intros results; cbn.
  - now intros [= <-].
  - destruct (embeddings !! id b) as [e|]; [|exact (IH results)].
    destruct (cosineSimilarity q e) as [msg|s]; [discriminate|].
    destruct (scoreBlocks q embeddings threshold rest) as [msg|found];
      [discriminate|].
    specialize (IH found eq_refl). subst found.
    destruct (threshold <=? s)%float; now intros [= <-].
Qed.

Lemma kept_inv q embeddings threshold blocks r :
  r ∈ kept q embeddings threshold blocks ->
  (threshold <=? score r)%float = true /\ block r ∈ blocks /\
  exists e, embeddings !! id (block r) = Some e /\
            cosineSimilarity q e = inr (score r).
Proof.
  unfold kept. rewrite list_elem_of_omap. intros (b & Hb & Hr).
  destruct (embeddings !! id b) as [e|] eqn:He; [|discriminate].
  destruct (cosineSimilarity q e) as [msg|s] eqn:Hs; [discriminate|].
  destruct (threshold <=? s)%float eqn:Ht; [|discriminate].
  injection Hr as <-. cbn. eauto.
Qed.

(** Blocks without a stored embedding do not take part. *)
Lemma scoreBlocks_embedded q embeddings threshold blocks :
  scoreBlocks q embeddings threshold
    (filter (fun b => is_Some (embeddings !! id b)) blocks)
  = scoreBlocks q embeddings threshold blocks.
Proof.
  induction blocks as [|b rest IH]; [reflexivity|].
  rewrite filter_cons. cbn [scoreBlocks].
  destruct (decide (is_Some (embeddings !! id b))) as [[e He] | Hnone].
  - cbn [scoreBlocks]. rewrite He, IH. reflexivity.
  - destruct (embeddings !! id b) as [e|]; [|exact IH].
    exfalso. apply Hnone. eauto.
Qed.

Lemma generateEmbedding_db text w :
  db (snd (generateEmbedding text w)) = db w.
Proof.
  unfold generateEmbedding.
  destruct (ai_run (requests w) text) as [|[[|v rest]|]]; reflexivity.
Qed.

(** C6. A search that returns, returns at most [limit] pairs; each
    pair scores at least [threshold] and belongs to an input block that
    has a stored embedding, its score being the cosine similarity of
    the query with that embedding; the blocks without a stored
    embedding could as well be left out of the input. The pairs are
    the first [limit] of a ranking of all the blocks kept: the ranking
    holds each of them once, in descending order of score, and those of
    equal score in the order of the input. So no block that is left
    out scores higher than one that is returned. *)
Theorem searchMemoryBlocks_spec query blocks limit threshold w results w' :
  searchMemoryBlocks query blocks limit threshold w = (Success results, w') ->
  exists queryEmbedding blockEmbeddings,
    fst (generateEmbedding query w) = Success queryEmbedding /\
    memory_embeddings (db w) = Some blockEmbeddings /\
    let candidates := kept queryEmbedding blockEmbeddings threshold blocks in
    (length results <= limit)%nat /\
    (forall r, r ∈ results ->
       (threshold <=? score r)%float = true /\ block r ∈ blocks /\
       exists e, blockEmbeddings !! id (block r) = Some e /\
                 cosineSimilarity queryEmbedding e = inr (score r)) /\
    searchMemoryBlocks query
      (filter (fun b => is_Some (blockEmbeddings !! id b)) blocks)
      limit threshold w = (Success results, w') /\
    StronglySorted (fun a b => (score a <? score b)%float = false) results /\
    exists ranking,
      results = firstn limit ranking /\ ranking ≡ₚ candidates /\
      StronglySorted (fun a b => (score a <? score b)%float = false) ranking /\
      (forall v, filter (ties v) ranking = filter (ties v) candidates) /\
      (forall r r', r ∈ results -> r' ∈ skipn limit ranking ->
                    (score r <? score r')%float = false).
Proof.
  intros Hrun. generalize Hrun. unfold searchMemoryBlocks, bind.
  pose proof (generateEmbedding_db query w) as Hdb.
  destruct (generateEmbedding query w) as [[q|e|c] w1]; try discriminate.
  cbn in Hdb. unfold getAllBlockEmbeddings, exec_read, select_embeddings.
  rewrite Hdb.
  destruct (memory_embeddings (db w)) as [embeddings|]; [|discriminate].
  destruct (scoreBlocks q embeddings threshold blocks) as [msg|found] eqn:Hfound;
    [discriminate|].
  pose proof Hfound as Hscored.
  apply scoreBlocks_kept in Hfound. subst found.
  intros [= <- <-]. exists q, embeddings.
  split; [reflexivity|]. split; [reflexivity|]. cbv zeta.
  set (candidates := kept q embeddings threshold blocks).
  split; [|split; [|split]].
  - rewrite length_take. lia.
  - intros r Hr. apply (kept_inv q embeddings threshold blocks).
    apply subseteq_take in Hr. now rewrite Array_sort_perm in Hr.
  - rewrite scoreBlocks_embedded, Hscored. reflexivity.
  - assert (Hnum : forall s, s ∈ score <$> candidates -> (s <=? s)%float = true).
    { intros s Hs. apply list_elem_of_fmap_1 in Hs as (r & -> & Hr).
      apply kept_inv in Hr as [Ht _]. eapply float_leb_refl_r; eauto. }
    assert (Hranked : forall r, r ∈ candidates -> score r ∈ score <$> candidates).
    { intros r Hr. now apply list_elem_of_fmap_2. }
    pose proof (Array_sort_sorted (score <$> candidates) Hnum candidates Hranked)
      as Hsorted.
    split.
    + apply StronglySorted_app_1_l
        with (l2 := drop limit (Array_sort byScoreDescending candidates)).
      now rewrite take_drop.
    + exists (Array_sort byScoreDescending candidates).
      split; [reflexivity|]. split; [apply Array_sort_perm|].
      split; [exact Hsorted|]. split.
      * intros v. now apply (Array_sort_ties (score <$> candidates)).
      * intros r r' Hr Hr'.
        rewrite <- (take_drop limit (Array_sort byScoreDescending candidates))
          in Hsorted.
        exact (StronglySorted_app_1_elem_of _ _ _ _ _ Hsorted Hr Hr').
Qed.

End Search.

(** Six blocks are searched with threshold 0 and limit 3. The block
    without an embedding is not among the results, although a score of
    0 would have been enough; of the five that are ranked the two that
    score lowest are cut off, and of the two blocks that tie the one
    that comes first in the input is returned. *)
Lemma searchMemoryBlocks_spec_witness :
  let results :=
    [mkScored (Fixtures.blockNamed "along") 1%float;
     mkScored (Fixtures.blockNamed "near") (4 / 5)%float;
     mkScored (Fixtures.blockNamed "steep") (3 / 5)%float] in
  fst (searchMemoryBlocks (H := Fixtures.axial) (js "q") Fixtures.searchBlocks
         3 0%float Fixtures.searchWorld) = Success results /\
  (length results <= 3)%nat /\
  exists ranking,
    results = firstn 3 ranking /\ length ranking = 5%nat /\
    StronglySorted (fun a b => (score a <? score b)%float = false) ranking /\
    forall r r', r ∈ results -> r' ∈ skipn 3 ranking ->
                 (score r <? score r')%float = false.
Proof.
  intros results.
  assert (Hrun : searchMemoryBlocks (H := Fixtures.axial) (js "q")
                   Fixtures.searchBlocks 3 0%float Fixtures.searchWorld
                 = (Success results, with_requests 1 Fixtures.searchWorld))
    by (vm_compute; reflexivity).
  destruct (searchMemoryBlocks_spec (H := Fixtures.axial) _ _ _ _ _ _ _ Hrun)
    as (q & embeddings & Hq & Hembeddings & Hlen & _ & _ & _ & ranking & Hcut
        & Hperm & Hsorted & _ & Hrest).
  split; [now rewrite Hrun|]. split; [exact Hlen|].
  exists ranking. split; [exact Hcut|]. split; [|split; [exact Hsorted | exact Hrest]].
  rewrite Hperm.
  assert (Hq' : q = [1; 0]%float) by (vm_compute in Hq; congruence).
  assert (He : embeddings = Spec.embeddingsOf Fixtures.searchWorld).
  { unfold Spec.embeddingsOf. now rewrite Hembeddings. }
  rewrite Hq', He. vm_compute. reflexivity.
Defined.

(** ** The summary ladder: when to promote *)

Lemma insertByCreatedAt_perm x l : insertByCreatedAt x l ≡ₚ x :: l.
Proof.
  induction l as [|y l IH]; cbn; [reflexivity|].
  destruct (created_at y <? created_at x); [|reflexivity].
  rewrite IH. apply Permutation_swap.
Qed.

Lemma orderByCreatedAt_perm l : orderByCreatedAt l ≡ₚ l.
Proof.
  induction l as [|x l IH]; cbn; [reflexivity|].
  fold (orderByCreatedAt l). now rewrite insertByCreatedAt_perm, IH.
Qed.

Lemma insertByCreatedAt_sorted x l :
  StronglySorted (fun a b => created_at a <= created_at b) l ->
  StronglySorted (fun a b => created_at a <= created_at b) (insertByCreatedAt x l).
Proof.
  intros Hs. induction Hs as [|y l Hs IH Hy]; cbn.
  - repeat constructor.
  - destruct (created_at y <? created_at x) eqn:Hlt.
    + apply Z.ltb_lt in Hlt. constructor; [exact IH|].
      rewrite insertByCreatedAt_perm. constructor; [lia | assumption].
    + apply Z.ltb_ge in Hlt. constructor; [now constructor|].
      constructor; [assumption|].
      eapply Forall_impl; [exact Hy|]. cbn. intros z Hz. lia.
Qed.

Lemma orderByCreatedAt_sorted l :
  StronglySorted (fun a b => created_at a <= created_at b) (orderByCreatedAt l).
Proof.
  induction l as [|x l IH]; cbn; [constructor|].
  now apply insertByCreatedAt_sorted.
Qed.

(** The rows [unconsolidated] lists are the rows of that level without
    a parent. *)
Lemma unconsolidated_rows t level s :
  s ∈ unconsolidated t level <->
  s ∈ summary_rows t /\ summary_level s = level /\ parent_summary_id s = None.
Proof. unfold unconsolidated. rewrite list_elem_of_filter. tauto. Qed.

Lemma unconsolidatedAt_spec level s :
  unconsolidatedAt level s = true <->
  summary_level s = level /\ parent_summary_id s = None.
Proof.
  unfold unconsolidatedAt. rewrite andb_true_iff, Nat.eqb_eq.
  destruct (parent_summary_id s); intuition congruence.
Qed.

(** The WHERE clause of the check selects them. *)
Lemma unconsolidated_where t level :
  unconsolidated t level
  = filter (fun s => unconsolidatedAt level s = true) (summary_rows t).
Proof.
  unfold unconsolidated. apply list_filter_iff. intros s.
  symmetry. apply unconsolidatedAt_spec.
Qed.

Section Promotion.
Context {plan : Plan}.

(** What the query of the check reads before its LIMIT: the
    unconsolidated rows of the level, each once, oldest first. *)
Lemma select_unconsolidated_rows t level :
  let read :=
    orderByCreatedAt
      (filter (fun s => unconsolidatedAt level s = true)
         (scanSummaries UnconsolidatedOldestFirst (summary_rows t))) in
  read ≡ₚ unconsolidated t level /\
  StronglySorted (fun a b => created_at a <= created_at b) read.
Proof.
  cbv zeta. split; [|apply orderByCreatedAt_sorted].
  rewrite orderByCreatedAt_perm, unconsolidated_where.
  apply filter_Permutation, scanSummaries_rows.
Qed.

Lemma checkLevels_spec threshold t w :
  conversation_summaries_v2 (db w) = Some t ->
  forall remaining level,
  exists r,
    checkLevels threshold level remaining w = (Success r, w) /\
    match r with
    | Needed target summaries =>
        exists L rest,
          (level <= L < level + remaining)%nat /\ target = (L + 1)%nat /\
          length summaries = threshold /\
          summaries ++ rest ≡ₚ unconsolidated t L /\
          StronglySorted (fun a b => created_at a <= created_at b)
            (summaries ++ rest) /\
          forall L', (level <= L' < L)%nat ->
                     (length (unconsolidated t L') < threshold)%nat
    | NotNeeded =>
        forall L', (level <= L' < level + remaining)%nat ->
                   (length (unconsolidated t L') < threshold)%nat
    end.
Proof.
  intros Ht remaining.
  induction remaining as [|remaining IH]; intros level; cbn [checkLevels].
  - exists NotNeeded. split; [reflexivity|]. intros L' HL'. lia.
  - unfold bind, exec_read, select_unconsolidated. rewrite Ht.
    destruct (select_unconsolidated_rows t level) as [Hperm Hsorted].
    cbv zeta in Hperm, Hsorted.
    set (read := orderByCreatedAt _) in *.
    pose proof (Permutation_length Hperm) as Hlength.
    rewrite length_take.
    destruct (threshold <=? _)%nat eqn:Hle.
    + apply Nat.leb_le in Hle.
      exists (Needed (level + 1) (firstn threshold (firstn (threshold + 1) read))).
      split; [reflexivity|]. exists level, (drop threshold read).
      replace (firstn threshold (firstn (threshold + 1) read))
        with (take threshold read) by (rewrite take_take; f_equal; lia).
      split; [lia|]. split; [reflexivity|].
      split; [rewrite length_take; lia|].
      rewrite take_drop. split; [exact Hperm|]. split; [exact Hsorted|].
      intros L' HL'. lia.
    + apply Nat.leb_gt in Hle.
      destruct (IH (S level)) as (r & Hrun & Hr).
      exists r. split; [exact Hrun|].
      destruct r as [|target summaries].
      * intros L' HL'.
        destruct (decide (L' = level)) as [-> | Hne]; [lia|].
        apply Hr. lia.
      * destruct Hr as (L & rest & HL & Htarget & Hlen & Hrows & Hsort & Hbelow).
        exists L, rest. repeat split; auto; try lia.
        intros L' HL'.
        destruct (decide (L' = level)) as [-> | Hne]; [lia|].
        apply Hbelow. lia.
Qed.

(** C7. The check walks the levels 0, 1, ... below [maxLevel] and
    stops at the first level that has [recursiveThreshold] or more
    unconsolidated summaries: it answers with the next level and with
    [recursiveThreshold] of these summaries, oldest first, none of those
    it leaves out being older than one it takes; which of the summaries
    of one timestamp come first is up to the store. When no level has
    that many it answers that nothing is needed. The level it proposes
    is never above [maxLevel]. *)
Theorem checkRecursiveSummarizationNeeded_spec config t w :
  conversation_summaries_v2 (db w) = Some t ->
  let threshold := recursiveThreshold config in
  exists r,
    checkRecursiveSummarizationNeeded config w = (Success r, w) /\
    match r with
    | Needed target summaries =>
        exists L rest,
          target = (L + 1)%nat /\ (target <= maxLevel config)%nat /\
          (threshold <= length (unconsolidated t L))%nat /\
          length summaries = threshold /\
          summaries ++ rest ≡ₚ unconsolidated t L /\
          StronglySorted (fun a b => created_at a <= created_at b) summaries /\
          (forall s, s ∈ summaries ->
                     s ∈ summary_rows t /\ summary_level s = L /\
                     parent_summary_id s = None) /\
          (forall s s', s ∈ summaries -> s' ∈ rest ->
                        created_at s <= created_at s') /\
          forall L', (L' < L)%nat ->
                     (length (unconsolidated t L') < threshold)%nat
    | NotNeeded =>
        forall L', (L' < maxLevel config)%nat ->
                   (length (unconsolidated t L') < threshold)%nat
    end.
Proof.
  intros Ht threshold. unfold checkRecursiveSummarizationNeeded.
  destruct (checkLevels_spec threshold t w Ht (maxLevel config) 0%nat)
    as (r & Hrun & Hr).
  exists r. split; [exact Hrun|].
  destruct r as [|target summaries].
  - intros L' HL'. apply Hr. lia.
  - destruct Hr as (L & rest & HL & Htarget & Hlen & Hrows & Hsorted & Hbelow).
    exists L, rest. split; [exact Htarget|]. split; [lia|].
    split; [rewrite <- Hrows, length_app; lia|].
    split; [exact Hlen|]. split; [exact Hrows|].
    split; [exact (StronglySorted_app_1_l _ _ _ Hsorted)|].
    split; [|split].
    + intros s Hs. apply unconsolidated_rows. rewrite <- Hrows.
      apply elem_of_app. now left.
    + intros s s' Hs Hs'.
      exact (StronglySorted_app_1_elem_of _ _ _ _ _ Hsorted Hs Hs').
    + intros L' HL'. apply Hbelow. lia.
Qed.

End Promotion.

(** Four base summaries of one timestamp, three to be promoted, in a
    store that reads its index backwards. *)
Lemma checkRecursiveSummarizationNeeded_spec_witness :
  exists r,
    checkRecursiveSummarizationNeeded (plan := Fixtures.backwards)
      Fixtures.byThree Fixtures.tiedWorld
    = (Success r, Fixtures.tiedWorld) /\
    match r with
    | Needed target summaries =>
        exists L rest,
          target = (L + 1)%nat /\ (target <= 3)%nat /\
          (3 <= length (unconsolidated
                          (mkSummaryTable Fixtures.tiedSummaries 4) L))%nat /\
          length summaries = 3%nat /\
          summaries ++ rest
          ≡ₚ unconsolidated (mkSummaryTable Fixtures.tiedSummaries 4) L /\
          StronglySorted (fun a b => created_at a <= created_at b) summaries /\
          (forall s, s ∈ summaries ->
                     s ∈ Fixtures.tiedSummaries /\ summary_level s = L /\
                     parent_summary_id s = None) /\
          (forall s s', s ∈ summaries -> s' ∈ rest ->
                        created_at s <= created_at s') /\
          forall L', (L' < L)%nat ->
                     (length (unconsolidated
                                (mkSummaryTable Fixtures.tiedSummaries 4) L')
                      < 3)%nat
    | NotNeeded =>
        forall L', (L' < 3)%nat ->
                   (length (unconsolidated
                              (mkSummaryTable Fixtures.tiedSummaries 4) L')
                    < 3)%nat
    end.
Proof.
  exact (checkRecursiveSummarizationNeeded_spec (plan := Fixtures.backwards)
           Fixtures.byThree (mkSummaryTable Fixtures.tiedSummaries 4)
           Fixtures.tiedWorld eq_refl).
Defined.

(** Ten base summaries that nobody consolidated: the check proposes
    level 1 with all ten, oldest first; with nine it proposes nothing. *)
Example checkRecursiveSummarizationNeeded_ten :
  checkRecursiveSummarizationNeeded (plan := Fixtures.rowidOrder) DEFAULT_CONFIG
    (Fixtures.ladderWorld 10)
  = (Success (Needed 1 (Fixtures.baseSummaries 10)), Fixtures.ladderWorld 10) /\
  checkRecursiveSummarizationNeeded (plan := Fixtures.backwards) DEFAULT_CONFIG
    (Fixtures.ladderWorld 10)
  = (Success (Needed 1 (Fixtures.baseSummaries 10)), Fixtures.ladderWorld 10) /\
  checkRecursiveSummarizationNeeded (plan := Fixtures.rowidOrder) DEFAULT_CONFIG
    (Fixtures.ladderWorld 9)
  = (Success NotNeeded, Fixtures.ladderWorld 9).
Proof. repeat split; vm_compute; reflexivity. Qed.

(** Which of the summaries of one timestamp are promoted depends on the
    store: one that reads its index backwards takes the rows 4, 3 and
    2, one that goes by rowid the rows 1, 2 and 3. *)
Example checkRecursiveSummarizationNeeded_tied :
  (exists summaries,
     fst (checkRecursiveSummarizationNeeded (plan := Fixtures.backwards)
            Fixtures.byThree Fixtures.tiedWorld)
     = Success (Needed 1 summaries) /\
     summary_id <$> summaries = [4; 3; 2]) /\
  (exists summaries,
     fst (checkRecursiveSummarizationNeeded (plan := Fixtures.rowidOrder)
            Fixtures.byThree Fixtures.tiedWorld)
     = Success (Needed 1 summaries) /\
     summary_id <$> summaries = [1; 2; 3]).
Proof. split; eexists; split; vm_compute; reflexivity. Qed.

(** ** The summary ladder: consolidation *)

Lemma preserved_refl named w : preserved named w w.
Proof. intros k row Hk. exists row. auto. Qed.

Lemma preserved_trans named named' w1 w2 w3 :
  preserved named w1 w2 -> preserved named' w2 w3 ->
  preserved (fun i => named i \/ named' i) w1 w3.
Proof.
  intros H12 H23 k row Hk.
  destruct (H12 k row Hk) as (row2 & Hk2 & Hid2 & Hset2 & Hsame2).
  destruct (H23 k row2 Hk2) as (row3 & Hk3 & Hid3 & Hset3 & Hsame3).
  exists row3. split; [exact Hk3|]. split; [congruence|]. split; [auto|].
  intros Hno. rewrite Hsame3, Hsame2; auto.
  rewrite Hid2. auto.
Qed.

Lemma preserved_weaken (named named' : Z -> Prop) w w' :
  (forall i, named i -> named' i) ->
  preserved named w w' -> preserved named' w w'.
Proof.
  intros Himp Hp k row Hk.
  destruct (Hp k row Hk) as (row' & Hk' & Hid & Hset & Hsame).
  exists row'. repeat split; auto.
Qed.

(** An insert appends: the rows that were there are untouched. *)
Lemma insert_summary_preserved s level count ts w :
  preserved (fun _ => False) w (snd (exec_write (insert_summary s level count ts) w)).
Proof.
  unfold exec_write, insert_summary, summaryRows.
  destruct (conversation_summaries_v2 (db w)) as [t|] eqn:Ht; cbn.
  - intros k row Hk. unfold summaryRows in *. rewrite Ht in Hk. cbn.
    exists row. split; [now apply lookup_app_l_Some|]. auto.
  - apply preserved_refl.
Qed.

Lemma askModel_rows `{Env} op model system prompt w :
  db (snd (askModel op model system prompt w)) = db w.
Proof.
  unfold askModel. now destruct (generateText _ _).
Qed.

Lemma preserved_same_db named w w' :
  db w' = db w -> preserved named w w'.
Proof.
  intros Hdb k row Hk. exists row. unfold summaryRows in *.
  rewrite Hdb. auto.
Qed.

(** [yield*] keeps what both parts keep. *)
Lemma bind_preserved {A B} named (m : Effect A) (k : A -> Effect B) w :
  preserved named w (snd (m w)) ->
  (forall a w1, preserved named w1 (snd (k a w1))) ->
  preserved named w (snd (bind m k w)).
Proof.
  intros Hm Hk. unfold bind.
  destruct (m w) as [[a|e|c] w1]; cbn in *; try exact Hm.
  eapply preserved_weaken; [|eapply preserved_trans; [exact Hm | apply Hk]].
  cbn. tauto.
Qed.

Lemma read_preserved {A} named (q : Db -> SqlFault + A) w :
  preserved named w (snd (exec_read q w)).
Proof.
  unfold exec_read. destruct (q (db w)); apply preserved_refl.
Qed.

Lemma insert_then_rowid_preserved named s level count w :
  preserved named w
    (snd ((let* timestamp := Date_now in
           exec_write (insert_summary s level count timestamp) ;;
           exec_read last_insert_rowid) w)).
Proof.
  apply bind_preserved; [apply preserved_refl|]. intros ts w1.
  apply bind_preserved; [|intros; apply read_preserved].
  eapply preserved_weaken; [|apply insert_summary_preserved]. intros i [].
Qed.

Lemma createBaseSummary_preserved `{Env} named messages persona w :
  preserved named w (snd (createBaseSummary messages persona w)).
Proof.
  unfold createBaseSummary.
  destruct (llm_config persona) as [config|]; [|apply preserved_refl].
  destruct (createLLMModel config) as [msg|model]; [apply preserved_refl|].
  apply bind_preserved.
  - apply preserved_same_db, askModel_rows.
  - intros result w1. apply insert_then_rowid_preserved.
Qed.

Lemma createRecursiveSummary_preserved `{Env} named summaries targetLevel persona w :
  preserved named w (snd (createRecursiveSummary summaries targetLevel persona w)).
Proof.
  unfold createRecursiveSummary.
  destruct (llm_config persona) as [config|]; [|apply preserved_refl].
  destruct (createLLMModel config) as [msg|model]; [apply preserved_refl|].
  apply bind_preserved.
  - apply preserved_same_db, askModel_rows.
  - intros result w1. apply insert_then_rowid_preserved.
Qed.

(** An update of [parent_summary_id] sets it for the rows of that id
    and leaves every other row as it is. *)
Lemma update_parent_preserved foreign_keys parentId i w :
  preserved (fun j => j = i) w
    (snd (exec_write (update_parent foreign_keys parentId i) w)).
Proof.
  unfold exec_write, update_parent.
  destruct (conversation_summaries_v2 (db w)) as [t|] eqn:Ht;
    [|apply preserved_refl].
  destruct (foreign_keys && _ && _); [apply preserved_refl|].
  intros k row Hk. unfold summaryRows in *. rewrite Ht in Hk. cbn.
  rewrite list_lookup_fmap, Hk. cbn.
  eexists. split; [reflexivity|].
  destruct (summary_id row =? i) eqn:Hi; cbn.
  - repeat split; eauto. intros Hne. apply Z.eqb_eq in Hi. contradiction.
  - repeat split; auto.
Qed.

Lemma markSummariesConsolidated_preserved foreign_keys summaryIds parentId w :
  preserved (fun j => j ∈ summaryIds) w
    (snd (markSummariesConsolidated foreign_keys summaryIds parentId w)).
Proof.
  revert w. induction summaryIds as [|i rest IH]; intros w; cbn.
  - apply preserved_refl.
  - apply bind_preserved.
    + eapply preserved_weaken; [|apply update_parent_preserved].
      cbn. intros j ->. left.
    + intros _ w1. eapply preserved_weaken; [|apply IH].
      cbn. intros j Hj. now right.
Qed.

Lemma step_preserved `{Env} foreign_keys op w :
  preserved (marks op) w (step foreign_keys w op).
Proof.
  destruct op as [messages persona|summaries targetLevel persona|summaryIds parentId];
    cbn [step marks].
  - apply createBaseSummary_preserved.
  - apply createRecursiveSummary_preserved.
  - apply markSummariesConsolidated_preserved.
Qed.

(** C8, as the code has it. Whatever summary operations run, a row
    that is there stays at its place with its id; once its
    [parent_summary_id] is set it is never NULL again, and it keeps its
    value as long as no [markSummariesConsolidated] names the row. *)
Theorem consolidated_stays_consolidated `{Env} foreign_keys ops w k row :
  summaryRows w !! k = Some row ->
  exists row',
    summaryRows (run foreign_keys w ops) !! k = Some row' /\
    summary_id row' = summary_id row /\
    (is_Some (parent_summary_id row) -> is_Some (parent_summary_id row')) /\
    ((forall op, op ∈ ops -> ~ marks op (summary_id row)) ->
     parent_summary_id row' = parent_summary_id row).
Proof.
  revert w row. induction ops as [|op ops IH]; intros w row Hk; cbn.
  - exists row. auto.
  - destruct (step_preserved foreign_keys op w k row Hk)
      as (row1 & Hk1 & Hid1 & Hset1 & Hsame1).
    destruct (IH _ row1 Hk1) as (row' & Hk' & Hid' & Hset' & Hsame').
    exists row'. split; [exact Hk'|]. split; [congruence|]. split; [auto|].
    intros Hno. rewrite Hsame', Hsame1.
    + reflexivity.
    + apply Hno. left.
    + intros op' Hin. rewrite Hid1. apply Hno. now right.
Qed.

Lemma consolidated_stays_consolidated_witness :
  exists row',
    summaryRows (run (H := Fixtures.online) true Fixtures.promotedWorld
                   [MarkConsolidated [1] 2;
                    CreateBase [mkMessage user (Some (js "hello"))]
                      (mkPersona (Some (mkLlmConfig openai None None)));
                    MarkConsolidated [2] 3]) !! 0%nat = Some row' /\
    summary_id row' = 1 /\
    (is_Some (Some 2) -> is_Some (parent_summary_id row')) /\
    ((forall op,
        op ∈ [CreateBase [mkMessage user (Some (js "hello"))]
                (mkPersona (Some (mkLlmConfig openai None None)));
              MarkConsolidated [2] 3] ->
        ~ marks op 1) ->
     parent_summary_id row' = Some 2).
Proof.
  exact (consolidated_stays_consolidated (H := Fixtures.online) true
           [CreateBase [mkMessage user (Some (js "hello"))]
              (mkPersona (Some (mkLlmConfig openai None None)));
            MarkConsolidated [2] 3]
           (step (H := Fixtures.online) true Fixtures.promotedWorld
              (MarkConsolidated [1] 2))
           0%nat
           (mkConversationSummary 1 (js "base") 0 20 (Some 2) 1700000000000)
           eq_refl).
Defined.

(** C8 fails as it is written: a row that was consolidated into
    summary 2 is consolidated into summary 3 by a second call, with
    the foreign key enforced or not. *)
Lemma parent_overwritten :
  let after foreign_keys ops :=
    parent_summary_id <$>
      summaryRows (run (H := Fixtures.online) foreign_keys
                     Fixtures.promotedWorld ops) !! 0%nat in
  after true [MarkConsolidated [1] 2] = Some (Some 2) /\
  after true [MarkConsolidated [1] 2; MarkConsolidated [1] 3] = Some (Some 3) /\
  after false [MarkConsolidated [1] 2] = Some (Some 2) /\
  after false [MarkConsolidated [1] 2; MarkConsolidated [1] 3] = Some (Some 3).
Proof. repeat split; reflexivity. Qed.

(** ** Migration *)

Lemma lookup_size_pos {V} (m : gmap jsstring V) i x :
  m !! i = Some x -> (0 < size m)%nat.
Proof.
  intros Hi. destruct (size m) eqn:Hsize; [|lia].
  apply map_size_empty_iff in Hsize. subst m.
  rewrite lookup_empty in Hi. discriminate.
Qed.

Lemma checkMigrationNeeded_run w :
  checkMigrationNeeded w =
    (Success
       (match agent_memory (db w) with
        | Some (_ :: _) =>
            match memory_blocks (db w) with
            | Some t => negb (0 <? size t)%nat
            | None => true
            end
        | _ => false
        end), w).
Proof.
  unfold checkMigrationNeeded, bind, orElseSucceed, try_read, succeed,
    count_legacy, count_blocks.
  destruct (agent_memory (db w)) as [[|row rows]|]; cbn; try reflexivity.
  destruct (memory_blocks (db w)) as [t|]; reflexivity.
Qed.

Lemma sameLegacy_trans w1 w2 w3 :
  sameLegacy w1 w2 -> sameLegacy w2 w3 -> sameLegacy w1 w3.
Proof. intros [Ha Hb] [Ha' Hb']. split; congruence. Qed.

Lemma sameLegacy_db w w' : db w' = db w -> sameLegacy w w'.
Proof. intros Hdb. split; now rewrite Hdb. Qed.

Section MigrationSteps.
Context `{Env}.

Lemma getBlock_inv i w o w' :
  getBlock i w = (Success o, w') ->
  db w' = db w /\
  (cacheBacked w -> cacheBacked w') /\
  (forall b, o = Some b -> cacheBacked w ->
     exists t r, memory_blocks (db w) = Some t /\ t !! i = Some r).
Proof.
  unfold getBlock, select_block.
  destruct (blocksCache w !! i) as [cached|] eqn:Hc.
  - intros [= <- <-]. repeat split; auto. intros b _ Hback. eauto.
  - destruct (memory_blocks (db w)) as [t|] eqn:Ht; [|discriminate].
    destruct (t !! i) as [row|] eqn:Hrow.
    + destruct (blockOfRow i row) as [b|]; [|discriminate].
      intros [= <- <-]. cbn. repeat split; eauto.
      intros Hback j bj. cbn.
      destruct (decide (i = j)) as [<- | Hne].
      * eauto.
      * rewrite lookup_insert_ne by assumption. apply Hback.
    + intros [= <- <-]. repeat split; auto. discriminate.
Qed.

Lemma updateBlock_inv i c w w' :
  updateBlock i c w = (Success tt, w') ->
  sameLegacy w w' /\
  (cacheBacked w -> cacheBacked w') /\
  (forall t r, memory_blocks (db w) = Some t -> t !! i = Some r -> hasBlocks w').
Proof.
  unfold updateBlock, bind, Date_now, try_write, update_block, cacheTouch.
  destruct (memory_blocks (db w)) as [t|] eqn:Ht; [|discriminate].
  intros [= <-]. cbn. split; [split; reflexivity|]. split.
  - intros Hback j bj. cbn. intros Hj.
    apply lookup_alter_Some in Hj.
    assert (exists b0, blocksCache w !! j = Some b0) as [b0 Hb0].
    { destruct Hj as [(_ & b0 & Hb0 & _) | [_ Hb0]]; eauto. }
    destruct (Hback j b0 Hb0) as (t0 & r0 & Ht0 & Hr0).
    rewrite Ht in Ht0. injection Ht0 as <-.
    destruct (decide (i = j)) as [<- | Hne]; eexists _, _;
      (split; [reflexivity|]).
    + rewrite lookup_alter_eq, Hr0. reflexivity.
    + rewrite lookup_alter_ne by assumption. exact Hr0.
  - intros t0 r [= <-] Hr. eexists. cbn. split; [reflexivity|].
    eapply lookup_size_pos. rewrite lookup_alter_eq, Hr. reflexivity.
Qed.

Lemma createBlock_inv i l c t w b w' :
  createBlock i l c t w = (Success b, w') ->
  sameLegacy w w' /\ (cacheBacked w -> cacheBacked w').
Proof.
  intros Hrun.
  destruct (proj1 (createBlock_success_iff i l c t w)) as (tbl & Ht & Hi); [eauto|].
  rewrite (createBlock_run _ _ _ _ _ _ Ht Hi) in Hrun.
  injection Hrun as <- <-. cbn. split; [split; reflexivity|].
  intros Hback j bj. cbn. intros Hj.
  destruct (decide (i = j)) as [<- | Hne].
  - eexists _, _. split; [reflexivity|]. apply lookup_insert_eq.
  - rewrite lookup_insert_ne in Hj by assumption.
    destruct (Hback j bj Hj) as (t0 & r0 & Ht0 & Hr0).
    rewrite Ht in Ht0. injection Ht0 as <-.
    eexists _, r0. split; [reflexivity|]. now rewrite lookup_insert_ne.
Qed.

(** An insert that succeeds leaves a table of blocks with a row. *)
Lemma insertContent_inv i x position w w' :
  cacheBacked w ->
  insertContent i x position w = (Success tt, w') ->
  sameLegacy w w' /\ cacheBacked w' /\ hasBlocks w'.
Proof.
  intros Hback. unfold insertContent, bind.
  destruct (getBlock i w) as [[o|e|c] w1] eqn:Hget; try discriminate.
  destruct (getBlock_inv i w o w1 Hget) as (Hdb & Hback1 & Hrow).
  destruct o as [b|]; [|discriminate].
  destruct (Hrow b eq_refl Hback) as (t & r & Ht & Hr).
  intros Hup.
  destruct (updateBlock_inv i _ w1 w' Hup) as (Hsame & Hback' & Hhas).
  split; [eauto using sameLegacy_trans, sameLegacy_db|]. split; [auto|].
  apply (Hhas t r); [now rewrite Hdb | exact Hr].
Qed.

Lemma ensureStandardBlocks_inv blocks w w' :
  cacheBacked w ->
  ensureStandardBlocks blocks w = (Success tt, w') ->
  sameLegacy w w' /\ cacheBacked w'.
Proof.
  revert w. induction blocks as [|[i l] rest IH]; intros w Hback; cbn.
  - intros [= <-]. split; [split; reflexivity | assumption].
  - unfold bind at 1.
    destruct (getBlock i w) as [[o|e|c] w1] eqn:Hget; try discriminate.
    destruct (getBlock_inv i w o w1 Hget) as (Hdb & Hback1 & _).
    destruct o as [b|].
    + intros Hrest. destruct (IH w1 (Hback1 Hback) Hrest) as (Hsame & Hback').
      split; [eauto using sameLegacy_trans, sameLegacy_db | assumption].
    + unfold bind.
      destruct (createBlock i l [] core w1) as [[b|e|c] w2] eqn:Hcreate;
        try discriminate.
      destruct (createBlock_inv _ _ _ _ _ _ _ Hcreate) as (Hsame2 & Hback2).
      intros Hrest.
      destruct (IH w2 (Hback2 (Hback1 Hback)) Hrest) as (Hsame & Hback').
      split; [eauto using sameLegacy_trans, sameLegacy_db | assumption].
Qed.

Lemma migrateRows_inv memories result w result' w' :
  cacheBacked w ->
  migrateRows memories result w = (Success result', w') ->
  sameLegacy w w' /\ cacheBacked w' /\
  migrated result' = (migrated result + length memories)%nat /\
  (memories <> [] -> hasBlocks w').
Proof.
  revert result w. induction memories as [|row rest IH]; intros result w Hback; cbn.
  - intros [= <- <-]. repeat split; auto; try lia; try congruence.
  - unfold bind at 1.
    destruct (insertContent _ _ end_ w) as [[[]|e|c] w1] eqn:Hins; try discriminate.
    destruct (insertContent_inv _ _ _ _ _ Hback Hins) as (Hsame1 & Hback1 & Hhas1).
    intros Hrest.
    destruct (IH _ w1 Hback1 Hrest) as (Hsame & Hback' & Hcount & Hhas).
    cbn in Hcount.
    split; [eauto using sameLegacy_trans|]. split; [assumption|]. split; [lia|].
    intros _. destruct rest as [|row' rest'].
    + cbn in Hrest. injection Hrest as <- <-. exact Hhas1.
    + apply Hhas. discriminate.
Qed.

End MigrationSteps.

Section MigrationNeeded.
Context `{Env} {plan : Plan}.

Lemma insertByUpdatedAt_perm x l : insertByUpdatedAt x l ≡ₚ x :: l.
Proof.
  induction l as [|y l IH]; cbn; [reflexivity|].
  destruct (legacy_updated_at y <? legacy_updated_at x); [|reflexivity].
  rewrite IH. apply Permutation_swap.
Qed.

(** The migration reads every legacy row once. *)
Lemma select_legacy_rows w rows :
  agent_memory (db w) = Some rows ->
  exists memories, select_legacy (db w) = inr memories /\ memories ≡ₚ rows.
Proof.
  intros Hrows. unfold select_legacy. rewrite Hrows. eexists. split; [reflexivity|].
  etransitivity; [|apply (scanLegacy_rows LegacyOldestFirst)].
  induction (scanLegacy LegacyOldestFirst rows) as [|x l IH]; cbn; [reflexivity|].
  now rewrite insertByUpdatedAt_perm, IH.
Qed.

Lemma select_legacy_length w rows :
  agent_memory (db w) = Some rows ->
  exists memories, select_legacy (db w) = inr memories /\
                   length memories = length rows.
Proof.
  intros Hrows. destruct (select_legacy_rows w rows Hrows) as (memories & Hsel & Hperm).
  exists memories. split; [exact Hsel | now apply Permutation_length].
Qed.

(** What a migration that moved an entry leaves behind. *)
Lemma migrate_inv w result w' :
  cacheBacked w ->
  migrateLegacyMemoriesToBlocks w = (Success result, w') ->
  (0 < migrated result)%nat ->
  hasBlocks w' /\
  exists rows,
    agent_memory (db w) = Some rows /\
    match agent_memory_legacy_backup (db w) with
    | None =>
        agent_memory (db w') = None /\
        agent_memory_legacy_backup (db w') = Some rows
    | Some backup =>
        agent_memory (db w') = Some rows /\
        agent_memory_legacy_backup (db w') = Some backup
    end.
Proof.
  intros Hback. unfold migrateLegacyMemoriesToBlocks.
  unfold bind at 1. unfold try_read at 1, legacy_table_exists.
  destruct (agent_memory (db w)) as [rows|] eqn:Hrows; cbn [negb];
    [|intros [= <- <-]; cbn; lia].
  unfold bind at 1.
  destruct (ensureStandardBlocks standardBlocks w) as [[[]|e|c] w1] eqn:Hstd;
    try discriminate.
  destruct (ensureStandardBlocks_inv _ _ _ Hback Hstd) as ([Ha1 Hb1] & Hback1).
  unfold bind at 1. unfold try_read at 1.
  rewrite Hrows in Ha1.
  destruct (select_legacy_length w1 rows Ha1) as (memories & -> & Hlen).
  unfold bind at 1.
  destruct (migrateRows memories _ w1) as [[moved|e|c] w2] eqn:Hrows2;
    try discriminate.
  destruct (migrateRows_inv _ _ _ _ _ Hback1 Hrows2)
    as ([Ha2 Hb2] & Hback2 & Hcount & Hhas).
  cbn in Hcount. rewrite Ha1 in Ha2. rewrite Hb1 in Hb2.
  unfold bind, succeed.
  destruct (0 <? migrated moved)%nat eqn:Hpos.
  - unfold orElseSucceed, try_write, rename_legacy_to_backup.
    rewrite Ha2, Hb2.
    assert (Hblocks : hasBlocks w2).
    { apply Hhas. intros ->. cbn in Hcount. apply Nat.ltb_lt in Hpos. lia. }
    destruct (agent_memory_legacy_backup (db w)) as [backup|].
    + intros [= <- <-] _. split; [exact Hblocks|]. eauto.
    + intros [= <- <-] _. split.
      * destruct Hblocks as (t & Ht & Hsize). exists t. cbn. auto.
      * exists rows. cbn. auto.
  - intros [= <- <-] Hm. apply Nat.ltb_ge in Hpos. lia.
Qed.

(** C9, as the code has it. [checkMigrationNeeded] answers [true]
    exactly when [agent_memory] exists with a row and [memory_blocks]
    is empty or missing; a count on a missing table counts as no data.
    After a migration that succeeded with at least one entry moved it
    answers [false], the table of blocks having rows by then. The
    legacy table has been renamed to the backup when there was no
    backup table before; the cache is assumed to hold only blocks that
    have a row, as it does when the engine alone writes the store. *)
Theorem checkMigrationNeeded_spec w :
  (exists needed,
     checkMigrationNeeded w = (Success needed, w) /\
     (needed = true <->
        (exists rows, agent_memory (db w) = Some rows /\ rows <> []) /\
        (memory_blocks (db w) = None \/
         exists t, memory_blocks (db w) = Some t /\ size t = 0%nat))) /\
  (forall result w',
     cacheBacked w ->
     migrateLegacyMemoriesToBlocks w = (Success result, w') ->
     (0 < migrated result)%nat ->
     checkMigrationNeeded w' = (Success false, w') /\
     hasBlocks w' /\
     (agent_memory_legacy_backup (db w) = None ->
        agent_memory (db w') = None /\
        agent_memory_legacy_backup (db w') = agent_memory (db w))).
Proof.
  split.
  - eexists. split; [apply checkMigrationNeeded_run|].
    destruct (agent_memory (db w)) as [[|row rows]|].
    + split; [discriminate|]. intros [(rows & [= <-] & Hne) _]. congruence.
    + destruct (memory_blocks (db w)) as [t|].
      * rewrite negb_true_iff, Nat.ltb_ge. split.
        -- intros Hsize. split; [eexists; split; [reflexivity | discriminate]|].
           right. exists t. split; [reflexivity | lia].
        -- intros [_ [Hnone | (t' & [= <-] & Hsize)]]; [discriminate | lia].
      * split; [|reflexivity]. intros _.
        split; [eexists; split; [reflexivity | discriminate] | now left].
    + split; [discriminate|]. intros [(rows & Hrows & _) _]. discriminate.
  - intros result w' Hback Hrun Hmoved.
    destruct (migrate_inv w result w' Hback Hrun Hmoved)
      as (Hblocks & rows & Hrows & Hlegacy).
    split; [|split; [exact Hblocks|]].
    + rewrite checkMigrationNeeded_run.
      destruct Hblocks as (t & -> & Hsize).
      apply Nat.ltb_lt in Hsize. rewrite Hsize. cbn.
      now destruct (agent_memory (db w')) as [[|row' rows']|].
    + intros Hnone. rewrite Hnone in Hlegacy. rewrite Hrows. exact Hlegacy.
Qed.

End MigrationNeeded.

(** The three legacy entries of the test suite are moved, the legacy
    table becomes the backup and no migration is needed any more. *)
Lemma checkMigrationNeeded_spec_witness :
  let run := migrateLegacyMemoriesToBlocks (H := Fixtures.online)
               (plan := Fixtures.backwards) Fixtures.legacyWorld in
  fst (checkMigrationNeeded Fixtures.legacyWorld) = Success true /\
  fst run = Success (mkResult 3 3 0 []) /\
  checkMigrationNeeded (snd run) = (Success false, snd run) /\
  hasBlocks (snd run) /\
  agent_memory (db (snd run)) = None /\
  agent_memory_legacy_backup (db (snd run)) = agent_memory (db Fixtures.legacyWorld).
Proof.
  intros run.
  assert (Hrun : migrateLegacyMemoriesToBlocks (H := Fixtures.online)
                   (plan := Fixtures.backwards) Fixtures.legacyWorld = (Success (mkResult 3 3 0 []), snd run))
    by (vm_compute; reflexivity).
  destruct (checkMigrationNeeded_spec (H := Fixtures.online) (plan := Fixtures.backwards)
              Fixtures.legacyWorld)
    as [_ Hafter].
  destruct (Hafter (mkResult 3 3 0 []) (snd run)) as (Hcheck & Hblocks & Hrenamed).
  - intros i b Hi. cbn in Hi. rewrite lookup_empty in Hi. discriminate.
  - exact Hrun.
  - cbn. lia.
  - split; [reflexivity|]. split; [vm_compute; reflexivity|].
    split; [exact Hcheck|]. split; [exact Hblocks|].
    apply Hrenamed. reflexivity.
Defined.

(** C9 fails as it is written. After a first migration the legacy
    manager creates its table again and an entry is written to it. A
    second migration moves that entry and succeeds, but the backup
    table is in the way of the rename, which fails and is ignored:
    [agent_memory] is still in place with its row, not renamed, and the
    backup holds the three entries of the first migration.
    [checkMigrationNeeded] answers [false] all the same. *)
Lemma migrate_keeps_legacy_table :
  let run := migrateLegacyMemoriesToBlocks (H := Fixtures.online)
               (plan := Fixtures.backwards) Fixtures.remigratedWorld in
  fst run = Success (mkResult 1 1 0 []) /\
  agent_memory (db (snd run))
  = Some [mkLegacyRow (js "user_preferences") (js "likes tea") 1700000060000] /\
  agent_memory_legacy_backup (db (snd run))
  = agent_memory (db Fixtures.legacyWorld) /\
  fst (checkMigrationNeeded (snd run)) = Success false.
Proof. cbv zeta. repeat split; vm_compute; reflexivity. Qed.

(** ** Ensuring embeddings *)

Section EnsureEmbeddings.
Context `{Env}.

Lemma generateEmbedding_inv text w r w' :
  generateEmbedding text w = (r, w') ->
  db w' = db w /\ requests w' = S (requests w).
Proof.
  unfold generateEmbedding.
  destruct (ai_run (requests w) text) as [|[[|v rest]|]];
    intros [= <- <-]; split; reflexivity.
Qed.

Lemma ensureLoop_app existing earlier later generated w :
  ensureLoop existing (earlier ++ later) generated w =
    match ensureLoop existing earlier generated w with
    | (Success n, w1) => ensureLoop existing later n w1
    | (Failure e, w1) => (Failure e, w1)
    | (Die c, w1) => (Die c, w1)
    end.
Proof.
  revert generated w. induction earlier as [|b rest IH]; intros generated w; cbn.
  - reflexivity.
  - destruct (existing !! id b); [apply IH|].
    unfold bind.
    destruct (generateEmbedding (content b) w) as [[v|e|c] w1]; try reflexivity.
    destruct (storeBlockEmbedding (id b) v w1) as [[[]|e|c] w2]; try reflexivity.
    apply IH.
Qed.

(** A pass that succeeds counts the blocks that lacked an embedding,
    stores one for each of them and removes none. *)
Lemma ensureLoop_success existing blocks generated w n w' :
  ensureLoop existing blocks generated w = (Success n, w') ->
  n = (generated + length (lacking existing blocks))%nat /\
  (forall i, is_Some (embeddingsOf w !! i) -> is_Some (embeddingsOf w' !! i)) /\
  (forall b, b ∈ blocks -> existing !! id b = None ->
             is_Some (embeddingsOf w' !! id b)).
Proof.
  revert generated w. induction blocks as [|b rest IH]; intros generated w;
    cbn [ensureLoop].
  - intros [= <- <-]. split; [cbn; lia|]. split; [auto|].
    intros b Hb. now apply elem_of_nil in Hb.
  - unfold lacking. rewrite filter_cons. fold (lacking existing rest).
    destruct (existing !! id b) as [v0|] eqn:Hb.
    + destruct (decide (Some v0 = None)) as [|_]; [discriminate|].
      intros Hrest. destruct (IH _ _ Hrest) as (Hn & Hmono & Hall).
      split; [exact Hn|]. split; [exact Hmono|].
      intros b' Hin Hnone. apply elem_of_cons in Hin as [-> | Hin]; [congruence|].
      now apply Hall.
    + destruct (decide (None = None)) as [_|]; [|congruence].
      unfold bind.
      destruct (generateEmbedding (content b) w) as [[v|e|c] w1] eqn:Hgen;
        try discriminate.
      destruct (generateEmbedding_inv _ _ _ _ Hgen) as [Hdb1 _].
      unfold storeBlockEmbedding, exec_write, upsert_embedding. rewrite Hdb1.
      destruct (memory_embeddings (db w)) as [t|] eqn:Ht; [|discriminate].
      intros Hrest. destruct (IH _ _ Hrest) as (Hn & Hmono & Hall).
      split; [cbn; lia|].
      assert (Hstep : forall i, is_Some (embeddingsOf w !! i) \/ i = id b ->
                                is_Some (embeddingsOf w' !! i)).
      { intros i Hi. apply Hmono. unfold embeddingsOf. cbn.
        destruct (decide (id b = i)) as [<- | Hne].
        - rewrite lookup_insert_eq. eauto.
        - rewrite lookup_insert_ne by assumption.
          destruct Hi as [Hi | ->]; [|congruence].
          unfold embeddingsOf in Hi. now rewrite Ht in Hi. }
      split; [intros i Hi; apply Hstep; now left|].
      intros b' Hin Hnone. apply elem_of_cons in Hin as [-> | Hin].
      * apply Hstep. now right.
      * now apply Hall.
Qed.

(** C10. When the call succeeds, the count it returns is the number of
    input blocks that had no stored embedding when it started, and
    every input block has one afterwards. When the blocks before [b]
    have been dealt with and generating the embedding of [b], which has
    none, fails, the whole call fails with that error in the world that
    failure left: nothing is requested or stored for the later blocks,
    and the embeddings of the earlier blocks are still stored. *)
Theorem ensureBlockEmbeddings_spec blocks w :
  (forall n w',
     ensureBlockEmbeddings blocks w = (Success n, w') ->
     exists existing,
       memory_embeddings (db w) = Some existing /\
       n = length (lacking existing blocks) /\
       forall b, b ∈ blocks -> is_Some (embeddingsOf w' !! id b)) /\
  (forall earlier b later n w1 e w2,
     blocks = earlier ++ b :: later ->
     embeddingsOf w !! id b = None ->
     ensureBlockEmbeddings earlier w = (Success n, w1) ->
     generateEmbedding (content b) w1 = (Failure e, w2) ->
     ensureBlockEmbeddings blocks w = (Failure e, w2) /\
     requests w2 = S (requests w1) /\
     embeddingsOf w2 = embeddingsOf w1 /\
     forall b', b' ∈ earlier -> is_Some (embeddingsOf w2 !! id b')).
Proof.
  unfold ensureBlockEmbeddings, bind, getAllBlockEmbeddings, exec_read,
    select_embeddings.
  destruct (memory_embeddings (db w)) as [existing|] eqn:Ht.
  - assert (Hw : embeddingsOf w = existing) by (unfold embeddingsOf; now rewrite Ht).
    split.
    + intros n w' Hrun. exists existing. split; [reflexivity|].
      destruct (ensureLoop_success _ _ _ _ _ _ Hrun) as (Hn & Hmono & Hall).
      split; [exact Hn|]. intros b Hb.
      destruct (existing !! id b) as [v|] eqn:Hv; [|now apply Hall].
      apply Hmono. rewrite Hw, Hv. eauto.
    + intros earlier b later n w1 e w2 -> Hnone Hearlier Hgen.
      rewrite Hw in Hnone.
      destruct (generateEmbedding_inv _ _ _ _ Hgen) as [Hdb2 Hreq2].
      assert (Hsame : embeddingsOf w2 = embeddingsOf w1)
        by (unfold embeddingsOf; now rewrite Hdb2).
      split; [|split; [exact Hreq2 | split; [exact Hsame|]]].
      * rewrite ensureLoop_app, Hearlier. cbn. rewrite Hnone.
        unfold bind. now rewrite Hgen.
      * intros b' Hb'. rewrite Hsame.
        destruct (ensureLoop_success _ _ _ _ _ _ Hearlier) as (_ & Hmono & Hall).
        destruct (existing !! id b') as [v|] eqn:Hv; [|now apply Hall].
        apply Hmono. rewrite Hw, Hv. eauto.
  - split; [discriminate|]. intros; discriminate.
Qed.

End EnsureEmbeddings.

(** What is read back is what the JSON text holds: of the vector
    (-0, NaN, infinity, 0.5) it is (0, 0, 0, 0.5). *)
Example storeBlockEmbedding_after_json :
  embeddingsOf
    (snd (storeBlockEmbedding (js "b") [-0; nan; infinity; 0.5]%float Fixtures.fresh))
  !! js "b" = Some [0; 0; 0; 0.5]%float.
Proof. vm_compute. reflexivity. Qed.

(** With a model that answers, three new blocks give a count of three;
    with one that fails on the third request, the call fails while the
    first two embeddings stay stored. *)
Lemma ensureBlockEmbeddings_spec_witness :
  (exists existing,
     memory_embeddings (db Fixtures.fresh) = Some existing /\
     3%nat = length (lacking existing Fixtures.threeBlocks) /\
     forall b, b ∈ Fixtures.threeBlocks ->
       is_Some (embeddingsOf
                  (snd (ensureBlockEmbeddings (H := Fixtures.online)
                          Fixtures.threeBlocks Fixtures.fresh)) !! id b)) /\
  (let w1 := snd (ensureBlockEmbeddings (H := Fixtures.flaky)
                    [Fixtures.blockNamed "one"; Fixtures.blockNamed "two"]
                    Fixtures.fresh) in
   let w2 := with_requests 3 w1 in
   let e := mkError "generate embedding" CauseRejected in
   ensureBlockEmbeddings (H := Fixtures.flaky) Fixtures.threeBlocks Fixtures.fresh
   = (Failure e, w2) /\
   requests w2 = S (requests w1) /\
   embeddingsOf w2 = embeddingsOf w1 /\
   forall b', b' ∈ [Fixtures.blockNamed "one"; Fixtures.blockNamed "two"] ->
              is_Some (embeddingsOf w2 !! id b')).
Proof.
  split.
  - apply (proj1 (ensureBlockEmbeddings_spec (H := Fixtures.online)
                    Fixtures.threeBlocks Fixtures.fresh) 3%nat).
    vm_compute. reflexivity.
  - cbv zeta.
    apply (proj2 (ensureBlockEmbeddings_spec (H := Fixtures.flaky)
                    Fixtures.threeBlocks Fixtures.fresh)
             [Fixtures.blockNamed "one"; Fixtures.blockNamed "two"]
             (Fixtures.blockNamed "three") [] 2%nat).
    + reflexivity.
    + reflexivity.
    + vm_compute. reflexivity.
    + vm_compute. reflexivity.
Defined.

(** ** The cache holds only blocks that have a row *)

Section CacheBacked.
Context `{Env}.

Lemma bind_backed {A B} (m : Effect A) (k : A -> Effect B) w :
  cacheBacked (snd (m w)) ->
  (forall a w1, cacheBacked w1 -> cacheBacked (snd (k a w1))) ->
  cacheBacked (snd (bind m k w)).
Proof.
  intros Hm Hk. unfold bind.
  destruct (m w) as [[a|e|c] w1]; cbn in *; auto.
Qed.

Lemma getBlock_backed i w :
  cacheBacked w -> cacheBacked (snd (getBlock i w)).
Proof.
  intros Hback.
  destruct (getBlock i w) as [[o|e|c] w1] eqn:Hget; cbn.
  - now apply (getBlock_inv i w o w1 Hget).
  - revert Hget. unfold getBlock, select_block.
    destruct (blocksCache w !! i); [discriminate|].
    destruct (memory_blocks (db w)) as [t|]; [|now intros [= _ <-]].
    destruct (t !! i) as [row|]; [|discriminate].
    destruct (blockOfRow i row); [discriminate | now intros [= _ <-]].
  - revert Hget. unfold getBlock, select_block.
    destruct (blocksCache w !! i); [discriminate|].
    destruct (memory_blocks (db w)) as [t|]; [|discriminate].
    destruct (t !! i) as [row|]; [|discriminate].
    destruct (blockOfRow i row); discriminate.
Qed.

Lemma createBlock_backed i l c t w :
  cacheBacked w -> cacheBacked (snd (createBlock i l c t w)).
Proof.
  intros Hback.
  destruct (createBlock i l c t w) as [[b|e|cs] w1] eqn:Hrun; cbn.
  - now apply (createBlock_inv _ _ _ _ _ _ _ Hrun).
  - revert Hrun.
    unfold createBlock, bind, Date_now, try_write, insert_block, cacheSet, succeed.
    destruct (memory_blocks (db w)) as [tbl|]; [|now intros [= _ <-]].
    destruct (tbl !! i); [now intros [= _ <-] | discriminate].
  - revert Hrun.
    unfold createBlock, bind, Date_now, try_write, insert_block, cacheSet, succeed.
    destruct (memory_blocks (db w)) as [tbl|]; [|discriminate].
    destruct (tbl !! i); discriminate.
Qed.

Lemma updateBlock_backed i c w :
  cacheBacked w -> cacheBacked (snd (updateBlock i c w)).
Proof.
  intros Hback.
  destruct (updateBlock i c w) as [[[]|e|cs] w1] eqn:Hrun; cbn.
  - now apply (updateBlock_inv _ _ _ _ Hrun).
  - revert Hrun.
    unfold updateBlock, bind, Date_now, try_write, update_block, cacheTouch.
    destruct (memory_blocks (db w)); [discriminate | now intros [= _ <-]].
  - revert Hrun.
    unfold updateBlock, bind, Date_now, try_write, update_block, cacheTouch.
    destruct (memory_blocks (db w)); discriminate.
Qed.

Lemma deleteBlock_backed i w :
  cacheBacked w -> cacheBacked (snd (deleteBlock i w)).
Proof.
  intros Hback. unfold deleteBlock, bind, try_write, delete_block.
  destruct (memory_blocks (db w)) as [t|] eqn:Ht; cbn; [|assumption].
  intros j bj. cbn. intros Hj.
  apply lookup_delete_Some in Hj as [Hne Hj].
  destruct (Hback j bj Hj) as (t0 & r0 & Ht0 & Hr0).
  rewrite Ht in Ht0. injection Ht0 as <-.
  eexists _, r0. split; [reflexivity|]. now rewrite lookup_delete_ne.
Qed.

Lemma insertContent_backed i x position w :
  cacheBacked w -> cacheBacked (snd (insertContent i x position w)).
Proof.
  intros Hback. unfold insertContent.
  apply bind_backed; [now apply getBlock_backed|].
  intros [b|] w1 Hback1; [now apply updateBlock_backed | exact Hback1].
Qed.

Lemma replaceContent_backed i old new w :
  cacheBacked w -> cacheBacked (snd (replaceContent i old new w)).
Proof.
  intros Hback. unfold replaceContent.
  apply bind_backed; [now apply getBlock_backed|].
  intros [b|] w1 Hback1; [now apply updateBlock_backed | exact Hback1].
Qed.

Lemma rethinkBlock_backed i new reason w :
  cacheBacked w -> cacheBacked (snd (rethinkBlock i new reason w)).
Proof.
  intros Hback. unfold rethinkBlock.
  apply bind_backed; [now apply getBlock_backed|].
  intros [b|] w1 Hback1; [now apply updateBlock_backed | exact Hback1].
Qed.

(** The block store alone does not look for the pattern: when it does
    not occur, [replaceContent] succeeds and writes the content back
    with a new timestamp. *)
Lemma replaceContent_without_match i old new b w :
  blocksCache w !! i = Some b -> stored i b w ->
  includes old (content b) = false ->
  exists w', replaceContent i old new w = (Success tt, w') /\
             stored i (rewritten b (content b) (clock w)) w'.
Proof.
  intros Hc Hs Hno.
  destruct (updateBlock_stored i b (content b) w Hc Hs) as (w' & Hup & Hs' & _).
  exists w'. split; [|exact Hs'].
  unfold replaceContent, bind. rewrite (getBlock_cached i b w Hc).
  unfold JsString.replace. unfold includes in Hno.
  destruct (indexOf old (content b)); [discriminate | exact Hup].
Qed.

End CacheBacked.

Lemma cacheBacked_empty d ts n : cacheBacked (mkWorld d ∅ ts n).
Proof. intros i b Hi. cbn in Hi. rewrite lookup_empty in Hi. discriminate. Qed.


(** ** The block manager: unknown ids, deletion, rewriting *)

Lemma alter_absent {V} (f : V -> V) (m : gmap jsstring V) i :
  m !! i = None -> alter f i m = m.
Proof.
  intros Hi. apply map_eq. intros j.
  destruct (decide (i = j)) as [<- | Hne].
  - now rewrite lookup_alter_eq, Hi.
  - now rewrite lookup_alter_ne.
Qed.

Lemma delete_absent {V} (m : gmap jsstring V) i :
  m !! i = None -> delete i m = m.
Proof. apply delete_id. Qed.

Lemma world_eta w : mkWorld (db w) (blocksCache w) (clock w) (requests w) = w.
Proof. now destruct w. Qed.

Lemma set_memory_blocks_same d t :
  memory_blocks d = Some t -> set_memory_blocks (Some t) d = d.
Proof. destruct d. cbn. now intros ->. Qed.

Section UnknownIds.
Context `{Env}.

(** X1. [updateBlock] on an id that has neither a row nor a cache entry
    succeeds and changes nothing: the UPDATE matches no row, no block
    is created and no error is raised. *)
Theorem updateBlock_unknown_id i c w :
  absent i w -> updateBlock i c w = (Success tt, w).
Proof.
  intros [Hc (t & Ht & Hi)].
  rewrite (updateBlock_run i c t w Ht).
  rewrite !alter_absent by assumption.
  rewrite set_memory_blocks_same by assumption.
  now rewrite world_eta.
Qed.

(** X2. [createBlock] on an id that already has a row fails with a
    [MemoryError] of operation [createBlock] and leaves the store and
    the cache as they were: the block that is there is not
    overwritten. *)
Theorem createBlock_existing_id i l c t w tbl r :
  memory_blocks (db w) = Some tbl -> tbl !! i = Some r ->
  exists e, createBlock i l c t w = (Failure e, w) /\
            operation e = "createBlock"%string.
Proof.
  intros Ht Hi.
  unfold createBlock, bind, Date_now, try_write, insert_block.
  rewrite Ht, Hi. eexists. split; reflexivity.
Qed.

End UnknownIds.

Section Deletion.
Context `{Env}.

Lemma deleteBlock_run i t w :
  memory_blocks (db w) = Some t ->
  deleteBlock i w =
    (Success tt,
     mkWorld (set_memory_blocks (Some (delete i t)) (db w))
       (delete i (blocksCache w)) (clock w) (requests w)).
Proof.
  intros Ht. unfold deleteBlock, bind, try_write, delete_block.
  rewrite Ht. reflexivity.
Qed.


(** X4. [deleteBlock] leaves the embedding of the block in
    [memory_embeddings]. A block created later under the same id,
    whatever its content, finds that embedding: [ensureBlockEmbeddings]
    generates nothing for it, sends no request, and the vector of the
    deleted block stays in place. *)
Theorem deleted_block_embedding_reused i l c ty t emb e w :
  memory_blocks (db w) = Some t ->
  memory_embeddings (db w) = Some emb -> emb !! i = Some e ->
  exists b w',
    createBlock i l c ty (snd (deleteBlock i w)) = (Success b, w') /\
    content b = c /\
    ensureBlockEmbeddings [b] w' = (Success 0%nat, w') /\
    embeddingsOf w' !! i = Some e.
Proof.
  intros Ht Hemb He.
  rewrite (deleteBlock_run i t w Ht). cbn [snd].
  match goal with
  | |- context [createBlock i l c ty ?w1] =>
      rewrite (createBlock_run i l c ty w1 (delete i t) eq_refl
                 (lookup_delete_eq t i))
  end.
  eexists _, _. split; [reflexivity|]. split; [reflexivity|].
  split.
  - unfold ensureBlockEmbeddings, bind, getAllBlockEmbeddings, exec_read,
      select_embeddings. cbn. rewrite Hemb. cbn. now rewrite He.
  - unfold embeddingsOf. cbn. now rewrite Hemb.
Qed.


End Deletion.


Lemma updateBlock_unknown_id_witness :
  updateBlock (js "ghost") (js "text") Fixtures.fresh
  = (Success tt, Fixtures.fresh).
Proof.
  apply (updateBlock_unknown_id (js "ghost") (js "text") Fixtures.fresh).
  split; [reflexivity|]. exists ∅. split; reflexivity.
Defined.

Lemma createBlock_existing_id_witness :
  exists e,
    createBlock (js "b") (js "Again") (js "other") archival
      (Fixtures.withBlock (js "kept"))
    = (Failure e, Fixtures.withBlock (js "kept")) /\
    operation e = "createBlock"%string.
Proof.
  apply (createBlock_existing_id (js "b") (js "Again") (js "other") archival
           (Fixtures.withBlock (js "kept")) _
           (mkBlockRow (js "B") (js "kept") core 1600000000000 (Some (js "{}")))
           eq_refl).
  reflexivity.
Defined.


Lemma deleted_block_embedding_reused_witness :
  exists b w',
    createBlock (js "b") (js "B") (js "something else") core
      (snd (deleteBlock (js "b") (Fixtures.embeddedWorld (js "kept"))))
    = (Success b, w') /\
    content b = js "something else" /\
    ensureBlockEmbeddings (H := Fixtures.online) [b] w' = (Success 0%nat, w') /\
    embeddingsOf w' !! js "b" = Some [1; 0]%float.
Proof.
  apply (deleted_block_embedding_reused (H := Fixtures.online)
           (js "b") (js "B") (js "something else") core _ _ [1; 0]%float
           (Fixtures.embeddedWorld (js "kept")) eq_refl eq_refl).
  reflexivity.
Defined.


(** ** The cache never goes stale *)

Lemma insertOrdered_perm {A} (first : A -> A -> bool) x l :
  insertOrdered first x l ≡ₚ x :: l.
Proof.
  induction l as [|y l IH]; cbn; [reflexivity|].
  destruct (first y x); [|reflexivity].
  rewrite IH. apply Permutation_swap.
Qed.

Lemma orderBy_perm {A} (first : A -> A -> bool) l : orderBy first l ≡ₚ l.
Proof.
  induction l as [|x l IH]; cbn; [reflexivity|].
  unfold orderBy in IH. now rewrite insertOrdered_perm, IH.
Qed.

Section Coherence.
Context `{Env} {scan : Scan}.

Hypothesis parse_empty_object : JSON_parse (js "{}") = Some (JObject []).

Lemma bind_coherent {A B} (m : Effect A) (k : A -> Effect B) w :
  coherent (snd (m w)) ->
  (forall a w1, coherent w1 -> coherent (snd (k a w1))) ->
  coherent (snd (bind m k w)).
Proof.
  intros Hm Hk. unfold bind.
  destruct (m w) as [[a|e|c] w1]; cbn in *; auto.
Qed.

Lemma cacheSet_coherent i r b t w :
  memory_blocks (db w) = Some t -> t !! i = Some r -> blockOfRow i r = Some b ->
  coherent w -> coherent (with_cache (<[i := b]> (blocksCache w)) w).
Proof.
  intros Ht Hr Hb Hco j bj. cbn.
  destruct (decide (i = j)) as [<- | Hne].
  - rewrite lookup_insert_eq. intros [= <-]. eauto.
  - rewrite lookup_insert_ne by assumption. apply Hco.
Qed.

Lemma getBlock_coherent i w : coherent w -> coherent (snd (getBlock i w)).
Proof.
  intros Hco. unfold getBlock, select_block.
  destruct (blocksCache w !! i); [exact Hco|].
  destruct (memory_blocks (db w)) as [t|] eqn:Ht; [|exact Hco].
  destruct (t !! i) as [row|] eqn:Hrow; [|exact Hco].
  destruct (blockOfRow i row) as [b|] eqn:Hb; [|exact Hco].
  cbn. eauto using cacheSet_coherent.
Qed.

Lemma readBlocks_coherent t rows w :
  memory_blocks (db w) = Some t ->
  (forall i r, (i, r) ∈ rows -> t !! i = Some r) ->
  coherent w -> coherent (snd (readBlocks rows w)).
Proof.
  revert w. induction rows as [|[i r] rest IH]; intros w Ht Hrows Hco; cbn;
    [exact Hco|].
  destruct (blockOfRow i r) as [b|] eqn:Hb; [|exact Hco].
  unfold bind at 1. unfold cacheSet at 1.
  apply bind_coherent.
  - apply IH; [exact Ht | |].
    + intros j rj Hj. apply Hrows. now right.
    + eapply cacheSet_coherent; eauto. apply Hrows. now left.
  - intros blocks w1 Hco1. exact Hco1.
Qed.

Lemma select_blocks_rows ty d t rows :
  memory_blocks d = Some t -> select_blocks ty d = inr rows ->
  forall i r, (i, r) ∈ rows <-> t !! i = Some r /\ ofType ty r = true.
Proof.
  intros Ht. unfold select_blocks. rewrite Ht. intros [= <-] i r.
  rewrite orderBy_perm, list_elem_of_filter, scanBlocks_rows,
    elem_of_map_to_list. cbn. tauto.
Qed.

Lemma getAllBlocks_coherent ty w :
  coherent w -> coherent (snd (getAllBlocks ty w)).
Proof.
  intros Hco. unfold getAllBlocks, bind, try_read.
  destruct (select_blocks ty (db w)) as [f|rows] eqn:Hsel; [exact Hco|].
  assert (exists t, memory_blocks (db w) = Some t) as [t Ht].
  { revert Hsel. unfold select_blocks.
    destruct (memory_blocks (db w)); [eauto | discriminate]. }
  apply (readBlocks_coherent t); [exact Ht | | exact Hco].
  intros i r Hi. now apply (select_blocks_rows ty (db w) t rows Ht Hsel).
Qed.

Lemma createBlock_coherent i l c t w :
  coherent w -> coherent (snd (createBlock i l c t w)).
Proof.
  intros Hco.
  unfold createBlock, bind, Date_now, try_write, insert_block, cacheSet, succeed.
  destruct (memory_blocks (db w)) as [tbl|] eqn:Ht; [|exact Hco].
  destruct (tbl !! i) eqn:Hi; [exact Hco|].
  cbn. intros j bj. cbn.
  destruct (decide (i = j)) as [<- | Hne].
  - rewrite lookup_insert_eq. intros [= <-].
    eexists _, _. split; [reflexivity|]. split; [apply lookup_insert_eq|].
    pose proof parse_empty_object as Hparse. cbn in Hparse.
    unfold blockOfRow. cbn. now rewrite Hparse.
  - rewrite lookup_insert_ne by assumption. intros Hj.
    destruct (Hco j bj Hj) as (t0 & r0 & Ht0 & Hr0 & Hb0).
    rewrite Ht in Ht0. injection Ht0 as <-.
    eexists _, r0. split; [reflexivity|]. split; [|exact Hb0].
    now rewrite lookup_insert_ne.
Qed.

Lemma updateBlock_coherent i c w :
  coherent w -> coherent (snd (updateBlock i c w)).
Proof.
  intros Hco.
  unfold updateBlock, bind, Date_now, try_write, update_block, cacheTouch.
  destruct (memory_blocks (db w)) as [t|] eqn:Ht; [|exact Hco].
  cbn. intros j bj. cbn. intros Hj.
  destruct (decide (i = j)) as [<- | Hne].
  - rewrite lookup_alter_eq in Hj.
    destruct (blocksCache w !! i) as [b0|] eqn:Hb0; [|discriminate].
    injection Hj as <-.
    destruct (Hco i b0 Hb0) as (t0 & r0 & Ht0 & Hr0 & Hrow).
    rewrite Ht in Ht0. injection Ht0 as <-.
    eexists _, _. split; [reflexivity|]. split.
    + rewrite lookup_alter_eq, Hr0. reflexivity.
    + apply (blockOfRow_rewritten i r0 b0 c (clock w) Hrow).
  - rewrite lookup_alter_ne in Hj by assumption.
    destruct (Hco j bj Hj) as (t0 & r0 & Ht0 & Hr0 & Hrow).
    rewrite Ht in Ht0. injection Ht0 as <-.
    eexists _, r0. split; [reflexivity|]. split; [|exact Hrow].
    now rewrite lookup_alter_ne.
Qed.

Lemma deleteBlock_coherent i w :
  coherent w -> coherent (snd (deleteBlock i w)).
Proof.
  intros Hco. unfold deleteBlock, bind, try_write, delete_block.
  destruct (memory_blocks (db w)) as [t|] eqn:Ht; [|exact Hco].
  cbn. intros j bj. cbn. intros Hj.
  apply lookup_delete_Some in Hj as [Hne Hj].
  destruct (Hco j bj Hj) as (t0 & r0 & Ht0 & Hr0 & Hrow).
  rewrite Ht in Ht0. injection Ht0 as <-.
  eexists _, r0. split; [reflexivity|]. split; [|exact Hrow].
  now rewrite lookup_delete_ne.
Qed.

Lemma perform_coherent op w : coherent w -> coherent (perform w op).
Proof.
  intros Hco. destruct op; cbn [perform].
  - now apply getBlock_coherent.
  - now apply getAllBlocks_coherent.
  - now apply createBlock_coherent.
  - now apply updateBlock_coherent.
  - now apply deleteBlock_coherent.
  - unfold insertContent. apply bind_coherent; [now apply getBlock_coherent|].
    intros [b|] w1 Hco1; [now apply updateBlock_coherent | exact Hco1].
  - unfold replaceContent. apply bind_coherent; [now apply getBlock_coherent|].
    intros [b|] w1 Hco1; [now apply updateBlock_coherent | exact Hco1].
  - unfold rethinkBlock. apply bind_coherent; [now apply getBlock_coherent|].
    intros [b|] w1 Hco1; [now apply updateBlock_coherent | exact Hco1].
Qed.

(** X6. The cache never goes stale, as long as the strings are well
    formed. Start from a store whose cache agrees with the table and
    run any sequence of operations of the block manager whose ids,
    labels and contents are well-formed strings, whatever each of them
    returns: a block that [getBlock] then returns for a well-formed id
    is the block its row in [memory_blocks] reads as. Well-formed
    strings are those the store, which keeps text in UTF-8, gives back
    as they were written; with a lone surrogate in a content the row
    reads U+FFFD where the cached block has the surrogate. The host's
    [JSON.parse] is taken to read the text of two braces, which
    [createBlock] writes, as the empty object. *)
Theorem cache_never_stale ops w i b :
  coherent w ->
  Forall (fun op => wellFormedOp op = true) ops ->
  isWellFormed i = true ->
  fst (getBlock i (fold_left perform ops w)) = Success (Some b) ->
  exists t r,
    memory_blocks (db (fold_left perform ops w)) = Some t /\
    t !! i = Some r /\ blockOfRow i r = Some b.
Proof.
  intros Hco _ _.
  assert (Hafter : coherent (fold_left perform ops w)).
  { revert w Hco. induction ops as [|op ops IH]; intros w Hco; cbn; [exact Hco|].
    apply IH. now apply perform_coherent. }
  revert Hafter. generalize (fold_left perform ops w). clear w Hco.
  intros w Hco. unfold getBlock, select_block.
  destruct (blocksCache w !! i) as [cached|] eqn:Hc.
  - cbn. intros [= <-]. now apply Hco.
  - destruct (memory_blocks (db w)) as [t|]; [|discriminate].
    destruct (t !! i) as [row|] eqn:Hrow; [|discriminate].
    destruct (blockOfRow i row) as [b0|] eqn:Hb0; [|discriminate].
    cbn. intros [= <-]. eauto.
Qed.

End Coherence.

Lemma coherent_empty `{Env} d ts n : coherent (mkWorld d ∅ ts n).
Proof. intros i b Hi. cbn in Hi. rewrite lookup_empty in Hi. discriminate. Qed.

Lemma cache_never_stale_witness :
  let ops := [CreateBlock (js "human") (js "Human") (js "Ann") core;
              GetAllBlocks None;
              InsertContent (js "human") (js "likes tea") end_;
              ReplaceContent (js "human") (js "tea") (js "coffee")] in
  exists t r,
    memory_blocks
      (db (fold_left (perform (H := Fixtures.online) (scan := Fixtures.keyOrder))
             ops Fixtures.fresh)) = Some t /\
    t !! js "human" = Some r /\
    blockOfRow (H := Fixtures.online) (js "human") r
    = Some (mkMemoryBlock (js "human") (js "Human")
              (js "Ann" ++ [10%N] ++ js "likes coffee") core 1700000000000 (JObject [])).
Proof.
  intros ops.
  apply (cache_never_stale (H := Fixtures.online) (scan := Fixtures.keyOrder)
           eq_refl ops Fixtures.fresh (js "human")).
  - apply coherent_empty.
  - repeat (constructor; [reflexivity|]). constructor.
  - reflexivity.
  - vm_compute. reflexivity.
Defined.

(** ** Listing the blocks *)

(** Ordering by a key, largest first. *)
Lemma insertOrdered_descending {A} (key : A -> Z) x l :
  StronglySorted (fun a b => key b <= key a) l ->
  StronglySorted (fun a b => key b <= key a)
    (insertOrdered (fun a b => key b <? key a) x l).
Proof.
  intros Hl. induction Hl as [|y l Hl IH Hy]; cbn.
  - repeat constructor.
  - destruct (key x <? key y) eqn:Hxy.
    + constructor; [exact IH|].
      rewrite insertOrdered_perm. constructor; [|exact Hy].
      apply Z.ltb_lt in Hxy. lia.
    + apply Z.ltb_ge in Hxy.
      constructor; [now constructor|].
      constructor; [exact Hxy|].
      eapply Forall_impl; [exact Hy|]. cbn. intros z Hz. lia.
Qed.

Lemma orderBy_descending {A} (key : A -> Z) l :
  StronglySorted (fun a b => key b <= key a)
    (orderBy (fun a b => key b <? key a) l).
Proof.
  induction l as [|x l IH]; cbn; [constructor|].
  now apply insertOrdered_descending.
Qed.

Section Listing.
Context `{Env} {scan : Scan}.

Lemma blockOfRow_fields i r b :
  blockOfRow i r = Some b ->
  id b = i /\ label b = row_label r /\ content b = row_content r /\
  type b = row_type r /\ updated_at b = row_updated_at r.
Proof.
  unfold blockOfRow. destruct (JSON_parse _); [|discriminate].
  intros [= <-]. cbn. auto.
Qed.

Lemma readBlocks_run rows w blocks w' :
  readBlocks rows w = (Success blocks, w') ->
  Forall2 (fun ir b => blockOfRow (fst ir) (snd ir) = Some b) rows blocks /\
  db w' = db w /\ clock w' = clock w /\ requests w' = requests w /\
  (forall j, j ∉ fst <$> rows -> blocksCache w' !! j = blocksCache w !! j) /\
  (NoDup (fst <$> rows) ->
   forall b, b ∈ blocks -> blocksCache w' !! id b = Some b).
Proof.
  revert w blocks w'. induction rows as [|[i r] rest IH]; intros w blocks w'; cbn.
  - intros [= <- <-]. split; [constructor|].
    do 4 (split; [auto|]). intros _ b Hb. inversion Hb.
  - destruct (blockOfRow i r) as [b|] eqn:Hb; [|discriminate].
    unfold bind at 1. unfold cacheSet at 1. unfold bind.
    destruct (readBlocks rest _) as [[bs|e|c] w1] eqn:Hrest; try discriminate.
    intros [= <- <-].
    destruct (IH _ _ _ Hrest) as (Hall & Hdb & Hclock & Hreq & Hout & Hin).
    split; [constructor; assumption|]. do 3 (split; [auto|]). split.
    + intros j Hj. rewrite Hout.
      * cbn. rewrite lookup_insert_ne; [reflexivity|].
        intros ->. apply Hj. now left.
      * intros Hjr. apply Hj. now right.
    + intros Hnd b' Hb'. apply NoDup_cons in Hnd as [Hi Hnd].
      apply elem_of_cons in Hb' as [-> | Hb'].
      * destruct (blockOfRow_fields i r b Hb) as (-> & _).
        rewrite Hout by exact Hi. cbn. apply lookup_insert_eq.
      * now apply Hin.
Qed.

Lemma select_blocks_run ty d t :
  memory_blocks d = Some t ->
  exists rows,
    select_blocks ty d = inr rows /\
    (forall i r, (i, r) ∈ rows <-> t !! i = Some r /\ ofType ty r = true) /\
    NoDup (fst <$> rows) /\
    StronglySorted
      (fun a b => row_updated_at (snd b) <= row_updated_at (snd a)) rows.
Proof.
  intros Ht. unfold select_blocks. rewrite Ht. eexists. split; [reflexivity|].
  split; [|split].
  - intros i r.
    rewrite orderBy_perm, list_elem_of_filter, scanBlocks_rows,
      elem_of_map_to_list. cbn. tauto.
  - rewrite orderBy_perm.
    apply (NoDup_fmap_2_strong fst).
    + intros [i r] [j r'] Hi Hj. cbn. intros <-.
      apply list_elem_of_filter in Hi as [_ Hi].
      apply list_elem_of_filter in Hj as [_ Hj].
      rewrite scanBlocks_rows, elem_of_map_to_list in Hi, Hj. congruence.
    + apply NoDup_filter. rewrite scanBlocks_rows. apply NoDup_map_to_list.
  - apply (orderBy_descending (fun x => row_updated_at (snd x))).
Qed.

(** The blocks a listing returns are the blocks the wanted rows read
    as. *)
Lemma getAllBlocks_rows ty t w blocks w' :
  memory_blocks (db w) = Some t ->
  getAllBlocks ty w = (Success blocks, w') ->
  db w' = db w /\
  (forall b, b ∈ blocks <->
     exists r, t !! id b = Some r /\ ofType ty r = true /\
               blockOfRow (id b) r = Some b).
Proof.
  intros Ht. unfold getAllBlocks, bind, try_read.
  destruct (select_blocks_run ty (db w) t Ht) as (rows & -> & Hrows & _).
  intros Hread.
  destruct (readBlocks_run rows w blocks w' Hread) as (Hall & Hdb & _).
  split; [exact Hdb|]. intros b. split.
  - intros Hb. apply list_elem_of_lookup in Hb as [k Hk].
    destruct (Forall2_lookup_r _ _ _ _ _ Hall Hk) as ([i r] & Hir & Hb).
    cbn in Hb. destruct (blockOfRow_fields i r b Hb) as (Hid & _).
    rewrite Hid. exists r.
    apply list_elem_of_lookup_2 in Hir. apply Hrows in Hir. tauto.
  - intros (r & Hr & Hty & Hb).
    assert (Hin : (id b, r) ∈ rows) by now apply Hrows.
    apply list_elem_of_lookup in Hin as [k Hk].
    destruct (Forall2_lookup_l _ _ _ _ _ Hall Hk) as (b' & Hb' & Hrow).
    cbn in Hrow. rewrite Hb in Hrow. injection Hrow as <-.
    now apply list_elem_of_lookup_2 in Hb'.
Qed.

(** X7. What a successful [getAllBlocks(type?)] returns: exactly the
    blocks that the rows of [memory_blocks] read as (the rows of the
    given type, when one is given), each once, the latest [updated_at]
    first. The tables are unchanged and every block returned is in the
    cache afterwards. *)
Theorem getAllBlocks_spec ty t w blocks w' :
  memory_blocks (db w) = Some t ->
  getAllBlocks ty w = (Success blocks, w') ->
  db w' = db w /\
  (forall b, b ∈ blocks <->
     exists r, t !! id b = Some r /\ ofType ty r = true /\
               blockOfRow (id b) r = Some b) /\
  NoDup (id <$> blocks) /\
  StronglySorted (fun a b => updated_at b <= updated_at a) blocks /\
  (forall b, b ∈ blocks -> blocksCache w' !! id b = Some b).
Proof.
  intros Ht Hrun.
  destruct (getAllBlocks_rows ty t w blocks w' Ht Hrun) as [Hdb Hmembers].
  split; [exact Hdb|]. split; [exact Hmembers|].
  revert Hrun. unfold getAllBlocks, bind, try_read.
  destruct (select_blocks_run ty (db w) t Ht) as (rows & -> & _ & Hnd & Hsorted).
  intros Hread.
  destruct (readBlocks_run rows w blocks w' Hread)
    as (Hall & _ & _ & _ & _ & Hcache).
  split; [|split].
  - assert (Hids : id <$> blocks = fst <$> rows).
    { clear -Hall. induction Hall as [|[i r] b rows blocks Hb _ IH]; cbn;
        [reflexivity|].
      cbn in Hb. destruct (blockOfRow_fields i r b Hb) as (-> & _).
      now rewrite IH. }
    now rewrite Hids.
  - clear -Hall Hsorted. revert blocks Hall.
    induction Hsorted as [|[i r] rows Hs IH Hfirst]; intros blocks Hall.
    + inversion Hall. constructor.
    + inversion Hall as [|? b ? bs Hb Hrest]; subst. constructor; [now apply IH|].
      cbn in Hb. destruct (blockOfRow_fields i r b Hb) as (_ & _ & _ & _ & Hts).
      rewrite Forall_forall in Hfirst. apply Forall_forall. intros b' Hb'.
      apply list_elem_of_lookup in Hb' as [k Hk].
      destruct (Forall2_lookup_r _ _ _ _ _ Hrest Hk) as ([i' r'] & Hir & Hb'r).
      cbn in Hb'r.
      destruct (blockOfRow_fields i' r' b' Hb'r) as (_ & _ & _ & _ & Hts').
      apply list_elem_of_lookup_2 in Hir. specialize (Hfirst _ Hir). cbn in Hfirst.
      lia.
  - now apply Hcache.
Qed.

End Listing.

(** ** Searching the blocks by text and by meaning *)

Section SearchHandler.
Context `{Env} {scan : Scan}.

Lemma getAllBlocks_requests ty w :
  requests (snd (getAllBlocks ty w)) = requests w /\
  memory_embeddings (db (snd (getAllBlocks ty w))) = memory_embeddings (db w).
Proof.
  unfold getAllBlocks, bind, try_read.
  destruct (select_blocks ty (db w)) as [f|rows]; [auto|].
  revert w. induction rows as [|[i r] rest IH]; intros w; cbn; [auto|].
  destruct (blockOfRow i r) as [b|]; [|auto].
  unfold bind at 1 3. unfold cacheSet at 1 2. unfold bind.
  specialize (IH (with_cache (<[i:=b]> (blocksCache w)) w)).
  destruct (readBlocks rest _) as [[bs|e|c] w1]; exact IH.
Qed.

Lemma textMatches_spec query blocksToSearch limit :
  (length (textMatches query blocksToSearch limit) <= limitOr limit 5)%nat /\
  forall r, r ∈ textMatches query blocksToSearch limit ->
    result_score r = 1%float /\
    includes (toLowerCase query) (toLowerCase (result_content r)) = true /\
    exists b, b ∈ blocksToSearch /\ result_block_id r = id b /\
              result_label r = label b /\ result_content r = content b.
Proof.
  unfold textMatches. split.
  - rewrite length_take. lia.
  - intros r Hr. apply elem_of_take in Hr as (k & Hk & _).
    apply list_elem_of_lookup_2 in Hk.
    apply list_elem_of_fmap in Hk as (b & -> & Hb).
    apply list_elem_of_filter in Hb as [Hq Hb]. cbn. eauto 10.
Qed.

(** X8. The text search of [executeMemorySearch], when no semantic
    search is asked for: at most [limit] results, 5 when the limit is
    missing or 0; each has the score 1.0, a content that holds the
    query once both are in lower case, an id among [blocks] when that
    list is given, and the label and content of its row in
    [memory_blocks]. *)
Theorem executeMemorySearch_text query blocks limit t w results w' :
  memory_blocks (db w) = Some t ->
  executeMemorySearch query blocks limit false w = (Success results, w') ->
  (length results <= limitOr limit 5)%nat /\
  forall r, r ∈ results ->
    result_score r = 1%float /\
    includes (toLowerCase query) (toLowerCase (result_content r)) = true /\
    (forall ids, blocks = Some ids -> result_block_id r ∈ ids) /\
    exists row, t !! result_block_id r = Some row /\
                row_label row = result_label r /\
                row_content row = result_content r.
Proof.
  intros Ht. unfold executeMemorySearch, bind.
  destruct (getAllBlocks None w) as [[allBlocks|e|c] w1] eqn:Hall; try discriminate.
  destruct (getAllBlocks_rows None t w allBlocks w1 Ht Hall) as (_ & Hrows).
  intros [= <- <-].
  match goal with |- context [textMatches query ?l limit] => set (searched := l) end.
  destruct (textMatches_spec query searched limit) as [Hlen Hres].
  split; [exact Hlen|]. intros r Hr.
  destruct (Hres r Hr) as (Hscore & Hinc & b & Hb & Hid & Hlabel & Hcontent).
  split; [exact Hscore|]. split; [exact Hinc|].
  assert (Hb' : b ∈ allBlocks /\ forall ids, blocks = Some ids -> id b ∈ ids).
  { subst searched. destruct blocks as [ids|].
    - apply list_elem_of_filter in Hb as [Hin Hb]. split; [exact Hb|].
      now intros ids' [= <-].
    - split; [exact Hb | discriminate]. }
  destruct Hb' as [Hb' Hids]. split.
  - intros ids Hblocks. rewrite Hid. now apply Hids.
  - apply Hrows in Hb' as (row & Hrow & _ & Hread).
    destruct (blockOfRow_fields _ _ _ Hread) as (_ & Hl & Hc & _).
    exists row. rewrite Hid, Hlabel, Hcontent. auto.
Qed.

Lemma generateEmbedding_unanswered query w :
  (forall v rest, ai_run (requests w) query <> AiResponse (Some (v :: rest))) ->
  exists e, generateEmbedding query w
            = (Failure e, with_requests (S (requests w)) w).
Proof.
  intros Hno. unfold generateEmbedding.
  destruct (ai_run (requests w) query) as [|[[|v rest]|]] eqn:Hrun; eauto.
  now destruct (Hno v rest).
Qed.

(** X9. When semantic search is asked for and the embedding model
    delivers no vector for the query (the request is rejected, or the
    response has no data), [executeMemorySearch] answers what the text
    search answers on the same store, and leaves the same tables and
    the same cache. *)
Theorem executeMemorySearch_falls_back query blocks limit w :
  (forall v rest, ai_run (requests w) query <> AiResponse (Some (v :: rest))) ->
  fst (executeMemorySearch query blocks limit true w)
  = fst (executeMemorySearch query blocks limit false w) /\
  db (snd (executeMemorySearch query blocks limit true w))
  = db (snd (executeMemorySearch query blocks limit false w)) /\
  blocksCache (snd (executeMemorySearch query blocks limit true w))
  = blocksCache (snd (executeMemorySearch query blocks limit false w)).
Proof.
  intros Hno.
  pose proof (getAllBlocks_requests None w) as [Hreq _].
  destruct (getAllBlocks None w) as [[allBlocks|e|c] w1] eqn:Hall;
    unfold executeMemorySearch, bind; rewrite Hall; cbn in Hreq; auto.
  rewrite <- Hreq in Hno.
  destruct (generateEmbedding_unanswered query w1 Hno) as (e & Hgen).
  unfold orElse, searchMemoryBlocks, bind. rewrite Hgen. cbn. auto.
Qed.

(** X10. The fall-back covers typed failures only. With a model that
    answers, on a store that has blocks but no table
    [memory_embeddings], the query on that table throws inside
    [Effect.gen]: [executeMemorySearch] with semantic search dies with
    that exception, and the text search is not run. *)
Theorem executeMemorySearch_defect_not_caught query blocks limit w v rest :
  ai_run (requests w) query = AiResponse (Some (v :: rest)) ->
  memory_embeddings (db w) = None ->
  forall allBlocks w1,
    getAllBlocks None w = (Success allBlocks, w1) ->
    fst (executeMemorySearch query blocks limit true w)
    = Die (CauseSql (NoSuchTable "memory_embeddings")).
Proof.
  intros Hrun Hemb allBlocks w1 Hall.
  pose proof (getAllBlocks_requests None w) as [Hreq Hdb].
  unfold executeMemorySearch, bind at 1. rewrite Hall in *. cbn in Hreq, Hdb.
  unfold orElse, searchMemoryBlocks, bind, generateEmbedding.
  rewrite Hreq, Hrun. cbn.
  unfold getAllBlockEmbeddings, exec_read, select_embeddings. cbn.
  rewrite Hdb, Hemb. reflexivity.
Qed.

Lemma scoreBlocks_unembedded q emb threshold blocks :
  (forall b, b ∈ blocks -> emb !! id b = None) ->
  scoreBlocks q emb threshold blocks = inr [].
Proof.
  induction blocks as [|b rest IH]; intros Hnone; cbn; [reflexivity|].
  rewrite (Hnone b) by now left. apply IH. intros b' Hb'. apply Hnone. now right.
Qed.

(** X29. Semantic search does not fall back when it finds nothing. With
    a model that answers and a table [memory_embeddings] that has no
    row for any block, [executeMemorySearch] with semantic search
    returns the empty list, also when the text search on the same store
    has matches for the query. *)
Theorem semantic_search_without_embeddings
    query blocks limit w v rest emb allBlocks w1 :
  ai_run (requests w) query = AiResponse (Some (v :: rest)) ->
  memory_embeddings (db w) = Some emb ->
  getAllBlocks None w = (Success allBlocks, w1) ->
  (forall b, b ∈ allBlocks -> emb !! id b = None) ->
  fst (executeMemorySearch query blocks limit true w) = Success [].
Proof.
  intros Hrun Hemb Hall Hnone.
  pose proof (getAllBlocks_requests None w) as [Hreq Hdb].
  unfold executeMemorySearch, bind at 1. rewrite Hall in *. cbn in Hreq, Hdb.
  unfold orElse, searchMemoryBlocks, bind, generateEmbedding.
  rewrite Hreq, Hrun. cbn.
  unfold getAllBlockEmbeddings, exec_read, select_embeddings. cbn.
  rewrite Hdb, Hemb.
  rewrite scoreBlocks_unembedded.
  { unfold Array_sort. cbn [foldr]. now rewrite take_nil. }
  intros b Hb. apply Hnone.
  destruct blocks as [ids|]; [|exact Hb].
  now apply list_elem_of_filter in Hb as [_ Hb].
Qed.

Lemma cosineSimilarity_lengths a b :
  match cosineSimilarity a b with
  | inl msg => msg = js "Vectors must have same length" /\ length a <> length b
  | inr _ => length a = length b
  end.
Proof.
  unfold cosineSimilarity.
  destruct (length a =? length b)%nat eqn:Hlen; cbn.
  - apply Nat.eqb_eq in Hlen.
    destruct (accumulate a b 0 0 0) as [[dotProduct normA] normB].
    now destruct (PrimFloat.eqb _ 0).
  - apply Nat.eqb_neq in Hlen. auto.
Qed.

Lemma scoreBlocks_mismatch q emb threshold blocks b e :
  b ∈ blocks -> emb !! id b = Some e -> length e <> length q ->
  scoreBlocks q emb threshold blocks = inl (js "Vectors must have same length").
Proof.
  intros Hb He Hlen. induction blocks as [|b0 rest IH]; [inversion Hb|].
  cbn. destruct (emb !! id b0) as [e0|] eqn:He0.
  - pose proof (cosineSimilarity_lengths q e0) as Hcos.
    destruct (cosineSimilarity q e0) as [msg|s]; [now destruct Hcos as [-> _]|].
    apply elem_of_cons in Hb as [-> | Hb].
    + rewrite He in He0. injection He0 as <-. congruence.
    + now rewrite IH.
  - apply elem_of_cons in Hb as [-> | Hb]; [congruence|]. now apply IH.
Qed.

(** X11. One stored embedding of the wrong length stops the whole
    search. When a block among those searched has a stored embedding
    whose length is not that of the query's embedding,
    [searchMemoryBlocks] dies with [Vectors must have same length],
    whatever the threshold and the limit, and wherever the block stands
    in the list. *)
Theorem searchMemoryBlocks_dimension_mismatch
    query blocks limit threshold w q rest emb b e :
  ai_run (requests w) query = AiResponse (Some (q :: rest)) ->
  memory_embeddings (db w) = Some emb ->
  b ∈ blocks -> emb !! id b = Some e -> length e <> length q ->
  fst (searchMemoryBlocks query blocks limit threshold w)
  = Die (CauseText (js "Vectors must have same length")).
Proof.
  intros Hrun Hemb Hb He Hlen.
  unfold searchMemoryBlocks, bind, generateEmbedding. rewrite Hrun.
  unfold getAllBlockEmbeddings, exec_read, select_embeddings. cbn [db with_requests].
  rewrite Hemb.
  now rewrite (scoreBlocks_mismatch q emb threshold blocks b e Hb He Hlen).
Qed.

End SearchHandler.


Lemma getAllBlocks_spec_witness :
  let run := getAllBlocks (H := Fixtures.online) (scan := Fixtures.keyOrder)
               (Some core) Fixtures.shelfWorld in
  exists blocks,
    fst run = Success blocks /\
    (id <$> blocks) = [js "persona"; js "human"] /\
    db (snd run) = db Fixtures.shelfWorld /\
    NoDup (id <$> blocks) /\
    StronglySorted (fun a b => updated_at b <= updated_at a) blocks /\
    (forall b, b ∈ blocks -> blocksCache (snd run) !! id b = Some b).
Proof.
  intros run.
  assert (Hrun : exists blocks, run = (Success blocks, snd run) /\
                                (id <$> blocks) = [js "persona"; js "human"]).
  { eexists. split; vm_compute; reflexivity. }
  destruct Hrun as (blocks & Hrun & Hids).
  destruct (getAllBlocks_spec (H := Fixtures.online) (scan := Fixtures.keyOrder)
              (Some core) _ Fixtures.shelfWorld blocks (snd run) eq_refl Hrun)
    as (Hdb & _ & Hnd & Hsorted & Hcache).
  exists blocks. rewrite Hrun. cbn [fst]. auto 10.
Defined.


Lemma executeMemorySearch_text_witness :
  let run := executeMemorySearch (H := Fixtures.online) (scan := Fixtures.keyOrder)
               (js "TEA") None (Some 0%nat) false Fixtures.shelfWorld in
  exists results,
    fst run = Success results /\
    (result_block_id <$> results) = [js "notes"; js "human"] /\
    (length results <= 5)%nat /\
    forall r, r ∈ results ->
      result_score r = 1%float /\
      includes (js "tea") (Fixtures.asciiLower (result_content r)) = true.
Proof.
  intros run.
  assert (Hrun : exists results, run = (Success results, snd run) /\
                   (result_block_id <$> results) = [js "notes"; js "human"]).
  { eexists. split; vm_compute; reflexivity. }
  destruct Hrun as (results & Hrun & Hids).
  destruct (executeMemorySearch_text (H := Fixtures.online)
              (scan := Fixtures.keyOrder) (js "TEA") None (Some 0%nat) _
              Fixtures.shelfWorld results (snd run) eq_refl Hrun)
    as (Hlen & Hres).
  exists results. rewrite Hrun. cbn [fst]. split; [reflexivity|].
  split; [exact Hids|]. split; [exact Hlen|].
  intros r Hr. destruct (Hres r Hr) as (Hscore & Hinc & _). auto.
Defined.

Lemma executeMemorySearch_falls_back_witness :
  fst (executeMemorySearch (H := Fixtures.offline) (scan := Fixtures.keyOrder)
         (js "tea") None None true Fixtures.shelfWorld)
  = fst (executeMemorySearch (H := Fixtures.offline) (scan := Fixtures.keyOrder)
           (js "tea") None None false Fixtures.shelfWorld) /\
  db (snd (executeMemorySearch (H := Fixtures.offline) (scan := Fixtures.keyOrder)
             (js "tea") None None true Fixtures.shelfWorld))
  = db (snd (executeMemorySearch (H := Fixtures.offline) (scan := Fixtures.keyOrder)
               (js "tea") None None false Fixtures.shelfWorld)) /\
  blocksCache (snd (executeMemorySearch (H := Fixtures.offline)
                      (scan := Fixtures.keyOrder)
                      (js "tea") None None true Fixtures.shelfWorld))
  = blocksCache (snd (executeMemorySearch (H := Fixtures.offline)
                        (scan := Fixtures.keyOrder)
                        (js "tea") None None false Fixtures.shelfWorld)).
Proof.
  apply (executeMemorySearch_falls_back (H := Fixtures.offline)
           (scan := Fixtures.keyOrder) (js "tea") None None Fixtures.shelfWorld).
  intros v rest. discriminate.
Defined.

Lemma executeMemorySearch_defect_not_caught_witness :
  fst (executeMemorySearch (H := Fixtures.online) (scan := Fixtures.keyOrder)
         (js "tea") None None true Fixtures.bareWorld)
  = Die (CauseSql (NoSuchTable "memory_embeddings")) /\
  exists results,
    fst (executeMemorySearch (H := Fixtures.online) (scan := Fixtures.keyOrder)
           (js "tea") None None false Fixtures.bareWorld)
    = Success results /\ length results = 2%nat.
Proof.
  split.
  - eapply (executeMemorySearch_defect_not_caught (H := Fixtures.online)
              (scan := Fixtures.keyOrder) (js "tea") None None Fixtures.bareWorld
              [0.5; 0.25; 0.125]%float [] eq_refl eq_refl).
    vm_compute. reflexivity.
  - eexists. split; vm_compute; reflexivity.
Defined.

Lemma searchMemoryBlocks_dimension_mismatch_witness :
  fst (searchMemoryBlocks (H := Fixtures.online) (js "slope")
         Fixtures.searchBlocks 5 0.5%float Fixtures.searchWorld)
  = Die (CauseText (js "Vectors must have same length")).
Proof.
  apply (searchMemoryBlocks_dimension_mismatch (H := Fixtures.online)
           (js "slope") Fixtures.searchBlocks 5 0.5%float Fixtures.searchWorld
           [0.5; 0.25; 0.125]%float [] _ (Fixtures.blockNamed "steep")
           [3; 4]%float eq_refl eq_refl).
  - now left.
  - reflexivity.
  - cbn. discriminate.
Defined.

Lemma semantic_search_without_embeddings_witness :
  fst (executeMemorySearch (H := Fixtures.online) (scan := Fixtures.keyOrder)
         (js "tea") None None true Fixtures.shelfWorld)
  = Success [] /\
  exists results,
    fst (executeMemorySearch (H := Fixtures.online) (scan := Fixtures.keyOrder)
           (js "tea") None None false Fixtures.shelfWorld)
    = Success results /\ length results = 2%nat.
Proof.
  split.
  - eapply (semantic_search_without_embeddings (H := Fixtures.online)
              (scan := Fixtures.keyOrder) (js "tea") None None Fixtures.shelfWorld
              [0.5; 0.25; 0.125]%float [] ∅ _ _ eq_refl eq_refl).
    + vm_compute. reflexivity.
    + intros b _. apply lookup_empty.
  - eexists. split; vm_compute; reflexivity.
Defined.

(** Scores are rounded to two decimals, a half going up. *)
Example Math_round_examples :
  Math_round 2.5 = 3%float /\ Math_round (-2.5) = (-2)%float /\
  Math_round (-0.5) = (-0)%float /\ Math_round 0.25 = 0%float /\
  Math_round infinity = infinity /\
  (Math_round (0.875 * 100) / 100 = 88 / 100)%float.
Proof. repeat split; vm_compute; reflexivity. Qed.


(** ** The tool handlers *)

Section Handlers.
Context `{Env}.

(** X12. For a block that does not exist the handlers of memory_insert,
    memory_replace and memory_rethink do not fail: each returns
    [success: false] with a message, and the world is unchanged. *)
Theorem handlers_report_missing_block i w :
  absent i w ->
  (forall c position,
     exists msg, executeMemoryInsert i c position w
                 = (Success (mkToolResult false msg), w)) /\
  (forall old_content new_content,
     exists msg, executeMemoryReplace i old_content new_content w
                 = (Success (mkToolResult false msg), w)) /\
  (forall new_content reason,
     exists msg, executeMemoryRethink i new_content reason w
                 = (Success (mkToolResult false msg), w)).
Proof.
  intros Ha. repeat split; intros; eexists.
  - unfold executeMemoryInsert, bind. rewrite (getBlock_absent i w Ha). reflexivity.
  - unfold executeMemoryReplace, bind. rewrite (getBlock_absent i w Ha). reflexivity.
  - unfold executeMemoryRethink, bind. rewrite (getBlock_absent i w Ha). reflexivity.
Qed.

(** X13. [executeMemoryCreateBlock] never overwrites. For an id whose
    block is present it returns [success: false] with the id, leaves
    the tables alone and the block in place. For an id that is absent
    it returns [success: true] with the id, and [getBlock] then returns
    the new block, of type [core] when no type was given. *)
Theorem executeMemoryCreateBlock_spec i l c t w :
  (forall b, stored i b w ->
     exists msg w',
       executeMemoryCreateBlock i l c t w
       = (Success (mkCreateBlockResult (mkToolResult false msg) i), w') /\
       db w' = db w /\ stored i b w') /\
  (absent i w ->
     exists msg w',
       executeMemoryCreateBlock i l c t w
       = (Success (mkCreateBlockResult (mkToolResult true msg) i), w') /\
       getBlock i w'
       = (Success (Some (mkMemoryBlock i l c (default core t) (clock w)
                           (JObject []))), w')).
Proof.
  split.
  - intros b Hs.
    destruct (getBlock_stored i b w Hs) as (w1 & Hget & Hdb & _ & _ & Hc).
    eexists _, w1. unfold executeMemoryCreateBlock, bind. rewrite Hget.
    split; [reflexivity|]. split; [exact Hdb|].
    destruct Hs as (tb & r & Ht & Hr & Hb & _).
    exists tb, r. rewrite Hdb. auto.
  - intros Ha. pose proof Ha as [Hc (tbl & Ht & Hi)].
    unfold executeMemoryCreateBlock, bind. rewrite (getBlock_absent i w Ha).
    rewrite (createBlock_run i l c _ w tbl Ht Hi).
    destruct t as [ty|]; (eexists _, _; split; [reflexivity|]);
      apply getBlock_cached; cbn; apply lookup_insert_eq.
Qed.

End Handlers.


Lemma handlers_report_missing_block_witness :
  (forall c position,
     exists msg, executeMemoryInsert (H := Fixtures.online) (js "ghost") c position
                   Fixtures.fresh
                 = (Success (mkToolResult false msg), Fixtures.fresh)) /\
  (forall old_content new_content,
     exists msg, executeMemoryReplace (H := Fixtures.online) (js "ghost")
                   old_content new_content Fixtures.fresh
                 = (Success (mkToolResult false msg), Fixtures.fresh)) /\
  (forall new_content reason,
     exists msg, executeMemoryRethink (H := Fixtures.online) (js "ghost")
                   new_content reason Fixtures.fresh
                 = (Success (mkToolResult false msg), Fixtures.fresh)).
Proof.
  apply (handlers_report_missing_block (H := Fixtures.online) (js "ghost")
           Fixtures.fresh).
  split; [reflexivity|]. exists ∅. split; reflexivity.
Defined.


(** ** The summarizers *)

Lemma next_rowid_fresh t s :
  s ∈ summary_rows t -> summary_id s < next_rowid t.
Proof.
  unfold next_rowid. intros Hs.
  assert (summary_id s <= foldr Z.max 0 (summary_id <$> summary_rows t)).
  { induction (summary_rows t) as [|x l IH]; [inversion Hs|].
    cbn. apply elem_of_cons in Hs as [-> | Hs]; [lia|]. specialize (IH Hs). lia. }
  lia.
Qed.

Section Summarizers.
Context `{Env}.

(** What the model is asked, the row that is stored and the rowid that
    is read back. *)
Lemma storeSummary_run op model system prompt level count w :
  match
    (let* result := askModel op model system prompt in
     let* timestamp := Date_now in
     exec_write (insert_summary result level count timestamp) ;;
     exec_read last_insert_rowid) w
  with
  | (Success i, w') =>
      exists t text,
        conversation_summaries_v2 (db w) = Some t /\
        i = next_rowid t /\
        w' = mkWorld
               (set_summaries
                  (Some (mkSummaryTable
                           (summary_rows t ++
                            [mkConversationSummary i text level count None (clock w)])
                           i))
                  (db w))
               (blocksCache w) (clock w) (S (requests w))
  | (Failure e, w') =>
      operation e = op /\ w' = with_requests (S (requests w)) w
  | (Die c, w') =>
      conversation_summaries_v2 (db w) = None /\
      w' = with_requests (S (requests w)) w
  end.
Proof.
  unfold bind, askModel, Date_now, exec_write, insert_summary, exec_read,
    last_insert_rowid.
  destruct (generateText _ _) as [text|]; [|now split].
  cbn. destruct (conversation_summaries_v2 (db w)) as [t|] eqn:Ht; cbn.
  - eauto.
  - now split.
Qed.

(** X14. [createBaseSummary], by outcome. On success one row has been
    appended to [conversation_summaries_v2]: level 0, [message_count]
    the number of messages, no parent, the time of the call; the id
    returned is the id of that row and is larger than every id the
    table held; one request went to the model. A typed failure has the
    operation [create base summary]; after a failure or a defect the
    tables are unchanged. *)
Theorem createBaseSummary_spec messages persona w :
  match createBaseSummary messages persona w with
  | (Success i, w') =>
      exists t text,
        conversation_summaries_v2 (db w) = Some t /\
        conversation_summaries_v2 (db w')
        = Some (mkSummaryTable
                  (summary_rows t ++
                   [mkConversationSummary i text 0 (Z.of_nat (length messages))
                      None (clock w)]) i) /\
        (forall s, s ∈ summary_rows t -> summary_id s < i) /\
        requests w' = S (requests w)
  | (Failure e, w') =>
      operation e = "create base summary"%string /\ db w' = db w
  | (Die _, w') => db w' = db w
  end.
Proof.
  unfold createBaseSummary.
  destruct (llm_config persona) as [config|]; [|reflexivity].
  destruct (createLLMModel config) as [msg|model]; [reflexivity|].
  match goal with
  | |- context [askModel ?op model ?system ?prompt] =>
      pose proof (storeSummary_run op model system prompt 0%nat
                    (Z.of_nat (length messages)) w) as Hrun
  end.
  destruct (bind _ _ w) as [[i|e|c] w']; cbn.
  - destruct Hrun as (t & text & Ht & -> & ->). exists t, text. cbn.
    split; [exact Ht|]. split; [reflexivity|]. split; [|reflexivity].
    intros s. apply next_rowid_fresh.
  - destruct Hrun as [Hop ->]. split; [exact Hop | reflexivity].
  - destruct Hrun as [_ ->]. reflexivity.
Qed.

Lemma createRecursiveSummary_run summaries targetLevel persona w :
  match createRecursiveSummary summaries targetLevel persona w with
  | (Success i, w') =>
      exists t text,
        conversation_summaries_v2 (db w) = Some t /\
        i = next_rowid t /\
        w' = mkWorld
               (set_summaries
                  (Some (mkSummaryTable
                           (summary_rows t ++
                            [mkConversationSummary i text targetLevel
                               (foldr Z.add 0 (message_count <$> summaries))
                               None (clock w)])
                           i))
                  (db w))
               (blocksCache w) (clock w) (S (requests w))
  | (Failure e, w') =>
      operation e = "create recursive summary"%string /\ db w' = db w
  | (Die _, w') => db w' = db w
  end.
Proof.
  unfold createRecursiveSummary.
  destruct (llm_config persona) as [config|]; [|reflexivity].
  destruct (createLLMModel config) as [msg|model]; [reflexivity|].
  match goal with
  | |- context [askModel ?op model ?system ?prompt] =>
      pose proof (storeSummary_run op model system prompt targetLevel
                    (fold_left (fun sum s => sum + message_count s) summaries 0) w)
        as Hrun
  end.
  assert (Hsum : forall l acc,
             fold_left (fun sum s => sum + message_count s) l acc
             = acc + foldr Z.add 0 (message_count <$> l)).
  { induction l as [|s l IH]; intros acc; cbn; [lia|]. rewrite IH. lia. }
  destruct (bind _ _ w) as [[i|e|c] w']; cbn.
  - destruct Hrun as (t & text & Ht & -> & ->). exists t, text.
    split; [exact Ht|]. split; [reflexivity|]. now rewrite Hsum.
  - destruct Hrun as [Hop ->]. split; [exact Hop | reflexivity].
  - destruct Hrun as [_ ->]. reflexivity.
Qed.

(** X15. [createRecursiveSummary], by outcome, for summaries whose
    counts add up within 2^53, where numbers are added as integers are.
    On success one row has been appended: its level is the target level
    as given, its [message_count] the sum of the counts of the
    summaries, it has no parent, and its id, which is returned, is
    larger than every id the table held. The rows of the summaries
    themselves are left as they were: marking them is a separate call.
    A typed failure has the operation [create recursive summary]; after
    a failure or a defect the tables are unchanged. *)
Theorem createRecursiveSummary_spec summaries targetLevel persona w :
  exactlySummed summaries ->
  match createRecursiveSummary summaries targetLevel persona w with
  | (Success i, w') =>
      exists t text,
        conversation_summaries_v2 (db w) = Some t /\
        conversation_summaries_v2 (db w')
        = Some (mkSummaryTable
                  (summary_rows t ++
                   [mkConversationSummary i text targetLevel
                      (foldr Z.add 0 (message_count <$> summaries))
                      None (clock w)]) i) /\
        (forall s, s ∈ summary_rows t -> summary_id s < i) /\
        requests w' = S (requests w)
  | (Failure e, w') =>
      operation e = "create recursive summary"%string /\ db w' = db w
  | (Die _, w') => db w' = db w
  end.
Proof.
  intros _.
  pose proof (createRecursiveSummary_run summaries targetLevel persona w) as Hrun.
  destruct (createRecursiveSummary _ _ _ w) as [[i|e|c] w']; [|exact Hrun..].
  destruct Hrun as (t & text & Ht & -> & ->). exists t, text. cbn.
  split; [exact Ht|]. split; [reflexivity|]. split; [|reflexivity].
  intros s. apply next_rowid_fresh.
Qed.

(** X16. Without [llm_config], or with the format [azure_openai] or
    [none], both summarizers die with a thrown [Error] before anything
    else happens: the world is unchanged, so no request was sent and
    nothing was stored. *)
Theorem summarizers_need_a_supported_model persona w :
  llm_config persona = None \/
  (exists config, llm_config persona = Some config /\
                  (format config = azure_openai \/ format config = none)) ->
  exists msg,
    (forall messages,
       createBaseSummary messages persona w = (Die (CauseText msg), w)) /\
    (forall summaries targetLevel,
       createRecursiveSummary summaries targetLevel persona w
       = (Die (CauseText msg), w)).
Proof.
  unfold createBaseSummary, createRecursiveSummary, createLLMModel.
  intros [-> | (config & -> & [-> | ->])]; eexists; split; reflexivity.
Qed.

End Summarizers.


Lemma summarizers_need_a_supported_model_witness :
  exists msg,
    (forall messages,
       createBaseSummary (H := Fixtures.online) messages Fixtures.azurePersona
         (Fixtures.ladderWorld 10)
       = (Die (CauseText msg), Fixtures.ladderWorld 10)) /\
    (forall summaries targetLevel,
       createRecursiveSummary (H := Fixtures.online) summaries targetLevel
         Fixtures.azurePersona (Fixtures.ladderWorld 10)
       = (Die (CauseText msg), Fixtures.ladderWorld 10)).
Proof.
  apply (summarizers_need_a_supported_model (H := Fixtures.online)
           Fixtures.azurePersona (Fixtures.ladderWorld 10)).
  right. eexists. split; [reflexivity|]. now left.
Defined.

(** The two summaries of level 1 of a store, of 200 messages each, are
    consolidated into a summary of level 2 that counts 400. *)
Lemma createRecursiveSummary_spec_witness :
  let summaries :=
    [mkConversationSummary 2 (js "first") 1 200 None 1700000001000;
     mkConversationSummary 3 (js "second") 1 200 None 1700000002000] in
  let run :=
    createRecursiveSummary (H := Fixtures.online) summaries 2 Fixtures.summarizer
      Fixtures.promotedWorld in
  fst run = Success 4 /\
  exists t text,
    conversation_summaries_v2 (db Fixtures.promotedWorld) = Some t /\
    conversation_summaries_v2 (db (snd run))
    = Some (mkSummaryTable
              (summary_rows t ++
               [mkConversationSummary 4 text 2 400 None 1700000100000]) 4) /\
    (forall s, s ∈ summary_rows t -> summary_id s < 4) /\
    requests (snd run) = 1%nat.
Proof.
  intros summaries run.
  assert (Hrun : createRecursiveSummary (H := Fixtures.online) summaries 2
                   Fixtures.summarizer Fixtures.promotedWorld
                 = (Success 4, snd run)) by (vm_compute; reflexivity).
  pose proof (createRecursiveSummary_spec (H := Fixtures.online) summaries 2
                Fixtures.summarizer Fixtures.promotedWorld) as Hspec.
  rewrite Hrun in Hspec. split; [reflexivity|].
  apply Hspec. unfold exactlySummed. cbn. lia.
Defined.

(** Two messages are summarized into the third row of a ladder of two;
    a model out of reach fails the call; without the table the model is
    asked all the same, and then the INSERT throws. *)
Example createBaseSummary_examples :
  let messages := [mkMessage user (Some (js "hello")); mkMessage tool None] in
  let noTable := with_db (set_summaries None Fixtures.emptyDb) Fixtures.fresh in
  createBaseSummary (H := Fixtures.online) messages Fixtures.summarizer
    (Fixtures.ladderWorld 2)
  = (Success 3,
     mkWorld
       (set_summaries
          (Some (mkSummaryTable
                   (Fixtures.baseSummaries 2 ++
                    [mkConversationSummary 3 (js "A summary.") 0 2 None 1700000100000])
                   3))
          Fixtures.emptyDb)
       ∅ 1700000100000 1) /\
  createBaseSummary (H := Fixtures.offline) messages Fixtures.summarizer
    (Fixtures.ladderWorld 2)
  = (Failure (mkError "create base summary" CauseRejected),
     with_requests 1 (Fixtures.ladderWorld 2)) /\
  createBaseSummary (H := Fixtures.online) messages Fixtures.summarizer noTable
  = (Die (CauseSql (NoSuchTable "conversation_summaries_v2")),
     with_requests 1 noTable).
Proof. cbv zeta. repeat split; vm_compute; reflexivity. Qed.


(** ** Consolidation and the promotion cycle *)

Lemma consolidatedInto_twice p s :
  consolidatedInto p (consolidatedInto p s) = consolidatedInto p s.
Proof. reflexivity. Qed.

Lemma markSummariesConsolidated_run foreign_keys summaryIds parentId : forall w t,
  conversation_summaries_v2 (db w) = Some t ->
  (foreign_keys = true ->
   exists parent, parent ∈ summary_rows t /\ summary_id parent = parentId) ->
  exists w',
    markSummariesConsolidated foreign_keys summaryIds parentId w = (Success tt, w') /\
    conversation_summaries_v2 (db w')
    = Some (mkSummaryTable
              ((fun s => if decide (summary_id s ∈ summaryIds)
                         then consolidatedInto parentId s else s)
                 <$> summary_rows t)
              (summary_seq t)) /\
    memory_blocks (db w') = memory_blocks (db w) /\
    blocksCache w' = blocksCache w /\ clock w' = clock w /\
    requests w' = requests w.
Proof.
  induction summaryIds as [|i rest IH]; intros w t Ht Hparent.
  - exists w. split; [reflexivity|]. split; [|auto].
    rewrite Ht. f_equal. destruct t as [rows sq]. cbn. f_equal.
    clear. induction rows as [|s rows IHr]; cbn; [reflexivity|].
    now rewrite <- IHr.
  - cbn [markSummariesConsolidated]. unfold bind at 1.
    unfold exec_write at 1, update_parent. rewrite Ht.
    assert (Hfk : foreign_keys &&
                  existsb (fun s => summary_id s =? i) (summary_rows t) &&
                  negb (existsb (fun s => summary_id s =? parentId) (summary_rows t))
                  = false).
    { destruct foreign_keys; [|reflexivity].
      destruct (Hparent eq_refl) as (parent & Hin & Hid).
      assert (existsb (fun s => summary_id s =? parentId) (summary_rows t) = true)
        as ->.
      { apply existsb_exists. exists parent. split.
        - now apply list_elem_of_In.
        - now apply Z.eqb_eq. }
      now rewrite andb_false_r. }
    rewrite Hfk.
    match goal with
    | |- context [with_db (set_summaries (Some ?t1) _) w] =>
        destruct (IH (with_db (set_summaries (Some t1) (db w)) w) t1 eq_refl)
          as (w' & Hrun & Htable & Hblocks & Hcache & Hclock & Hreq)
    end.
    { intros Hfkt. destruct (Hparent Hfkt) as (parent & Hin & Hid). cbn.
      eexists. split; [apply list_elem_of_fmap; eexists; split; [reflexivity | exact Hin]|].
      destruct (summary_id parent =? i); exact Hid. }
    exists w'. split; [exact Hrun|]. split; [|auto].
    rewrite Htable. cbn. f_equal. f_equal.
    rewrite <- list_fmap_compose. apply list_fmap_ext. intros k s _. cbn.
    destruct (summary_id s =? i) eqn:Hsi.
    + apply Z.eqb_eq in Hsi. cbn.
      rewrite (decide_True (P := summary_id s ∈ i :: rest)) by (subst i; now left).
      now destruct (decide (summary_id s ∈ rest)).
    + apply Z.eqb_neq in Hsi.
      destruct (decide (summary_id s ∈ rest)) as [Hin | Hout].
      * rewrite decide_True by now right. reflexivity.
      * rewrite decide_False; [reflexivity|].
        intros [Heq | Hin]%elem_of_cons; congruence.
Qed.

(** X17. [markSummariesConsolidated(ids, parent)] succeeds when the
    table exists and, in case foreign keys are enforced, the parent is
    a row of it. Every row whose id is among [ids] then has
    [parent_summary_id = parent]; the other rows, and the order of the
    rows, are unchanged; an id that matches no row is passed over. *)
Theorem markSummariesConsolidated_spec foreign_keys summaryIds parentId w t :
  conversation_summaries_v2 (db w) = Some t ->
  (foreign_keys = true ->
   exists parent, parent ∈ summary_rows t /\ summary_id parent = parentId) ->
  exists w',
    markSummariesConsolidated foreign_keys summaryIds parentId w = (Success tt, w') /\
    summaryRows w'
    = (fun s => if decide (summary_id s ∈ summaryIds)
                then consolidatedInto parentId s else s) <$> summary_rows t.
Proof.
  intros Ht Hparent.
  destruct (markSummariesConsolidated_run foreign_keys summaryIds parentId w t
              Ht Hparent) as (w' & Hrun & Htable & _).
  exists w'. split; [exact Hrun|]. unfold summaryRows. now rewrite Htable.
Qed.


Lemma markSummariesConsolidated_spec_witness :
  exists w',
    markSummariesConsolidated true [2; 7; 3] 1 Fixtures.promotedWorld
    = (Success tt, w') /\
    summaryRows w'
    = [mkConversationSummary 1 (js "base") 0 20 None 1700000000000;
       mkConversationSummary 2 (js "first") 1 200 (Some 1) 1700000001000;
       mkConversationSummary 3 (js "second") 1 200 (Some 1) 1700000002000].
Proof.
  destruct (markSummariesConsolidated_spec true [2; 7; 3] 1 Fixtures.promotedWorld
              _ eq_refl) as (w' & Hrun & Hrows).
  - intros _. eexists. split; [now left | reflexivity].
  - exists w'. split; [exact Hrun|]. rewrite Hrows. vm_compute. reflexivity.
Defined.


Lemma NoDup_fmap_elem_inj {A B} (f : A -> B) (l : list A) x y :
  NoDup (f <$> l) -> x ∈ l -> y ∈ l -> f x = f y -> x = y.
Proof.
  intros Hnd [k Hk]%list_elem_of_lookup [k' Hk']%list_elem_of_lookup Hf.
  assert (k = k') as <-.
  { eapply (NoDup_lookup _ _ _ (f x) Hnd).
    - now rewrite list_lookup_fmap, Hk.
    - now rewrite list_lookup_fmap, Hk', Hf. }
  congruence.
Qed.

Lemma filter_fmap_fixed {A} (P Q : A -> Prop) `{forall x, Decision (P x)}
    `{forall x, Decision (Q x)} (f : A -> A) (l : list A) :
  (forall s, s ∈ l -> (P (f s) <-> Q s) /\ (Q s -> f s = s)) ->
  filter P (f <$> l) = filter Q l.
Proof.
  induction l as [|x l IH]; intros Hl; [reflexivity|].
  destruct (Hl x) as [Hiff Hfix]; [now left|].
  rewrite fmap_cons, !filter_cons.
  rewrite IH by (intros s Hs; apply Hl; now right).
  destruct (decide (P (f x))) as [Hp | Hp], (decide (Q x)) as [Hq | Hq];
    try tauto.
  now rewrite Hfix.
Qed.

Lemma elem_of_take_elem {A} (x : A) n l : x ∈ take n l -> x ∈ l.
Proof. intros (k & Hk & _)%elem_of_take. eapply list_elem_of_lookup_2, Hk. Qed.

Lemma filter_none {A} (P : A -> Prop) `{forall x, Decision (P x)} (l : list A) :
  (forall x, x ∈ l -> ~ P x) -> filter P l = [].
Proof.
  induction l as [|x l IH]; intros Hl; [reflexivity|].
  rewrite filter_cons, decide_False by (apply Hl; now left).
  apply IH. intros y Hy. apply Hl. now right.
Qed.

Lemma filter_all {A} (P : A -> Prop) `{forall x, Decision (P x)} (l : list A) :
  (forall x, x ∈ l -> P x) -> filter P l = l.
Proof.
  induction l as [|x l IH]; intros Hl; [reflexivity|].
  rewrite filter_cons, decide_True by (apply Hl; now left).
  f_equal. apply IH. intros y Hy. apply Hl. now right.
Qed.

Lemma filter_take_keys {A B} `{EqDecision B} (key : A -> B) (l : list A) n :
  NoDup (key <$> l) ->
  filter (fun s => key s ∉ key <$> take n l) l = drop n l.
Proof.
  intros Hnd.
  rewrite <- (take_drop n l), fmap_app in Hnd.
  apply NoDup_app in Hnd as (_ & Hdisjoint & _).
  transitivity (filter (fun s => key s ∉ key <$> take n l) (take n l ++ drop n l));
    [now rewrite take_drop|].
  rewrite filter_app.
  assert (filter (fun s => key s ∉ key <$> take n l) (take n l) = []) as ->.
  { apply filter_none. intros s Hs Hnot. apply Hnot.
    apply list_elem_of_fmap. eauto. }
  cbn. apply filter_all. intros s Hs Hin.
  apply (Hdisjoint (key s)); [exact Hin|].
  apply list_elem_of_fmap. eauto.
Qed.

Lemma insertByCreatedAt_front x l :
  match l with [] => True | z :: _ => created_at x <= created_at z end ->
  insertByCreatedAt x l = x :: l.
Proof.
  destruct l as [|z l]; [reflexivity|]. cbn. intros Hz.
  destruct (created_at z <? created_at x) eqn:Hlt; [|reflexivity].
  apply Z.ltb_lt in Hlt. lia.
Qed.

Lemma filter_insertByCreatedAt (P : ConversationSummary -> Prop)
    `{forall x, Decision (P x)} x l :
  StronglySorted (fun a b => created_at a <= created_at b) l ->
  filter P (insertByCreatedAt x l)
  = if decide (P x) then insertByCreatedAt x (filter P l) else filter P l.
Proof.
  intros Hs. induction Hs as [|y l Hs IH Hy]; cbn [insertByCreatedAt].
  - rewrite filter_cons. now destruct (decide (P x)).
  - destruct (created_at y <? created_at x) eqn:Hlt.
    + rewrite !filter_cons, IH.
      destruct (decide (P y)), (decide (P x)); cbn [insertByCreatedAt];
        try reflexivity.
      now rewrite Hlt.
    + rewrite filter_cons. destruct (decide (P x)); [|reflexivity].
      rewrite insertByCreatedAt_front; [reflexivity|].
      apply Z.ltb_ge in Hlt.
      destruct (filter P (y :: l)) as [|z rest] eqn:Hf; [exact I|].
      assert (Hz : z ∈ y :: l).
      { eapply (list_elem_of_filter P). rewrite Hf. now left. }
      apply elem_of_cons in Hz as [-> | Hz]; [exact Hlt|].
      rewrite Forall_forall in Hy. specialize (Hy z Hz). lia.
Qed.

Lemma filter_orderByCreatedAt (P : ConversationSummary -> Prop)
    `{forall x, Decision (P x)} l :
  filter P (orderByCreatedAt l) = orderByCreatedAt (filter P l).
Proof.
  induction l as [|x l IH]; [reflexivity|].
  cbn [orderByCreatedAt foldr]. fold (orderByCreatedAt l).
  rewrite filter_insertByCreatedAt by apply orderByCreatedAt_sorted.
  rewrite filter_cons, IH. now destruct (decide (P x)).
Qed.

Section PromotionCycle.
Context `{Env} {plan : Plan}.

(** X18. One round of promotion. Let the ids of the table be unique,
    let the check propose [level] with [summaries], whose counts add up
    within 2^53, and let [createRecursiveSummary] of these succeed with
    the id [p]. Then marking the summaries as consolidated into [p]
    succeeds, also when foreign keys are enforced, and afterwards: the
    unconsolidated summaries of the level below are those of before
    without the summaries, [recursiveThreshold] fewer, and none of them
    is older than one of the summaries; the new row is unconsolidated
    at [level], has the id [p] and the total of the message counts;
    each of the summaries is in the table with the parent [p]; at every
    other level the unconsolidated summaries are those of before. *)
Theorem promotion_cycle foreign_keys config persona t w level summaries p w1 :
  conversation_summaries_v2 (db w) = Some t ->
  NoDup (summary_id <$> summary_rows t) ->
  checkRecursiveSummarizationNeeded config w = (Success (Needed level summaries), w) ->
  exactlySummed summaries ->
  createRecursiveSummary summaries level persona w = (Success p, w1) ->
  exists w2 t2 parent,
    markSummariesConsolidated foreign_keys (summary_id <$> summaries) p w1
    = (Success tt, w2) /\
    conversation_summaries_v2 (db w2) = Some t2 /\
    unconsolidated t2 (level - 1)
    = filter (fun s => summary_id s ∉ summary_id <$> summaries)
        (unconsolidated t (level - 1)) /\
    (length (unconsolidated t2 (level - 1)) + recursiveThreshold config
     = length (unconsolidated t (level - 1)))%nat /\
    (forall s s', s ∈ summaries -> s' ∈ unconsolidated t2 (level - 1) ->
                  created_at s <= created_at s') /\
    parent ∈ unconsolidated t2 level /\ summary_id parent = p /\
    message_count parent = foldr Z.add 0 (message_count <$> summaries) /\
    (forall s, s ∈ summaries -> consolidatedInto p s ∈ summary_rows t2) /\
    (forall L, L <> (level - 1)%nat -> L <> level ->
               unconsolidated t2 L = unconsolidated t L).
Proof.
  intros Ht Hnd Hcheck _ Hcreate.
  (* what the check found *)
  destruct (checkLevels_spec (recursiveThreshold config) t w Ht (maxLevel config) 0%nat)
    as (r & Hrun & Hr).
  unfold checkRecursiveSummarizationNeeded in Hcheck. rewrite Hrun in Hcheck.
  injection Hcheck as ->.
  destruct Hr as (L & rest & _ & -> & Hlen & Hrows & Hsorted & _).
  replace (L + 1 - 1)%nat with L by lia.
  set (n := recursiveThreshold config) in *.
  set (U := unconsolidated t L) in *.
  set (ids := summary_id <$> summaries).
  (* the row that was created *)
  pose proof (createRecursiveSummary_run summaries (L + 1) persona w) as Hnew.
  rewrite Hcreate in Hnew. destruct Hnew as (t0 & text & Ht0 & -> & ->).
  rewrite Ht in Ht0. injection Ht0 as <-.
  set (new := mkConversationSummary (next_rowid t) text (L + 1)
                (foldr Z.add 0 (message_count <$> summaries)) None (clock w)).
  (* the consolidation *)
  match goal with
  | |- context [markSummariesConsolidated _ _ _ ?w1] =>
      destruct (markSummariesConsolidated_run foreign_keys ids (next_rowid t) w1
                  (mkSummaryTable (summary_rows t ++ [new]) (next_rowid t)) eq_refl)
        as (w2 & Hmark & Ht2 & _)
  end.
  { intros _. exists new. split; [|reflexivity]. cbn.
    apply elem_of_app. right. now left. }
  cbn [summary_rows summary_seq] in Ht2.
  set (markf := fun s => if decide (summary_id s ∈ ids)
                         then consolidatedInto (next_rowid t) s else s) in Ht2.
  (* facts about the ids *)
  assert (HU : forall s, s ∈ U ->
             s ∈ summary_rows t /\ summary_level s = L /\ parent_summary_id s = None).
  { intros s. apply unconsolidated_rows. }
  assert (Hsub : forall s, s ∈ summaries -> s ∈ U).
  { intros s Hs. rewrite <- Hrows. apply elem_of_app. now left. }
  assert (HndU : NoDup (summary_id <$> (summaries ++ rest))).
  { rewrite Hrows. apply (NoDup_fmap_2_strong summary_id).
    - intros x y Hx Hy. apply (NoDup_fmap_elem_inj summary_id (summary_rows t));
        auto; now apply HU.
    - apply NoDup_filter. eapply NoDup_fmap_1, Hnd. }
  rewrite fmap_app in HndU. apply NoDup_app in HndU as (_ & Hdisjoint & _).
  fold ids in Hdisjoint.
  assert (Hids : forall s, s ∈ summary_rows t -> summary_id s ∈ ids ->
             s ∈ summaries).
  { intros s Hs [s0 [Hid Hs0]]%list_elem_of_fmap.
    assert (s = s0) as ->; [|exact Hs0].
    apply (NoDup_fmap_elem_inj summary_id (summary_rows t)); auto.
    now apply HU, Hsub. }
  assert (Hnew_id : summary_id new ∉ ids).
  { intros [s0 [Hid Hs0]]%list_elem_of_fmap.
    assert (Hs0' : s0 ∈ summary_rows t) by now apply HU, Hsub.
    apply next_rowid_fresh in Hs0'. cbn in Hid. lia. }
  assert (Hmark_new : markf new = new).
  { unfold markf. now rewrite decide_False. }
  (* the level that was consolidated *)
  assert (Hlow : unconsolidated
                   (mkSummaryTable (markf <$> (summary_rows t ++ [new])) (next_rowid t)) L
                 = filter (fun s => summary_id s ∉ ids) U).
  { rewrite unconsolidated_where. unfold U. rewrite unconsolidated_where.
    cbn [summary_rows].
    rewrite (filter_fmap_fixed _
               (fun s => (summary_id s ∉ ids) /\ unconsolidatedAt L s = true)).
    - rewrite filter_app.
      assert (filter (fun s => (summary_id s ∉ ids) /\ unconsolidatedAt L s = true) [new]
              = []) as ->.
      { rewrite filter_cons, decide_False; [reflexivity|].
        intros [_ Hu]. unfold unconsolidatedAt in Hu. cbn in Hu.
        apply andb_true_iff in Hu as [Hu _]. apply Nat.eqb_eq in Hu. lia. }
      now rewrite app_nil_r, <- list_filter_filter.
    - intros s Hs. unfold markf.
      destruct (decide (summary_id s ∈ ids)) as [Hin | Hout].
      + split; [|tauto]. unfold unconsolidatedAt. cbn.
        rewrite andb_false_r. split; [discriminate | tauto].
      + tauto. }
  assert (Hleft : filter (fun s => summary_id s ∉ ids) U ≡ₚ rest).
  { rewrite <- Hrows, filter_app.
    rewrite (filter_none (fun s => summary_id s ∉ ids) summaries).
    - cbn. rewrite filter_all; [reflexivity|].
      intros s Hs Hin. apply (Hdisjoint (summary_id s)); [exact Hin|].
      now apply list_elem_of_fmap_2.
    - intros s Hs Hnot. apply Hnot. now apply list_elem_of_fmap_2. }
  exists w2, (mkSummaryTable (markf <$> (summary_rows t ++ [new])) (next_rowid t)), new.
  split; [exact Hmark|]. split; [exact Ht2|]. split; [exact Hlow|].
  split; [|split; [|split; [|split; [reflexivity|split; [reflexivity|split]]]]].
  - pose proof (Permutation_length Hrows) as HlenU.
    rewrite length_app in HlenU. rewrite Hlow, Hleft. lia.
  - intros s s' Hs Hs'. rewrite Hlow, Hleft in Hs'.
    exact (StronglySorted_app_1_elem_of _ _ _ _ _ Hsorted Hs Hs').
  - (* the new row *)
    apply unconsolidated_rows. cbn [summary_rows]. split; [|split; reflexivity].
    apply (list_elem_of_fmap_2' _ _ new); [|now rewrite Hmark_new].
    apply elem_of_app. right. now left.
  - (* the rows that were consolidated *)
    intros s Hs. cbn [summary_rows].
    assert (Hin : summary_id s ∈ ids) by now apply list_elem_of_fmap_2.
    replace (consolidatedInto (next_rowid t) s) with (markf s)
      by (unfold markf; now rewrite decide_True).
    apply list_elem_of_fmap_2, elem_of_app. left.
    now apply HU, Hsub.
  - (* the other levels *)
    intros L' HL HL'. rewrite !unconsolidated_where. cbn [summary_rows].
    rewrite (filter_fmap_fixed _ (fun s => unconsolidatedAt L' s = true)).
    + rewrite filter_app, filter_cons, decide_False, app_nil_r; [reflexivity|].
      unfold unconsolidatedAt. cbn. rewrite andb_true_r, Nat.eqb_eq. lia.
    + intros s [Hs | ->%list_elem_of_singleton]%elem_of_app;
        [|now rewrite Hmark_new].
      unfold markf. destruct (decide (summary_id s ∈ ids)) as [Hin | Hout]; [|tauto].
      assert (Hlevel : summary_level s = L)
        by (apply HU, Hsub, Hids; eauto).
      unfold unconsolidatedAt. cbn.
      assert ((summary_level s =? L')%nat = false) as ->
        by (apply Nat.eqb_neq; lia).
      cbn. split; [tauto | discriminate].
Qed.

End PromotionCycle.

(** Four base summaries of one timestamp in a store that reads its
    index backwards: the rows 4, 3 and 2 are promoted into row 5, and
    row 1 is the one that stays unconsolidated. *)
Lemma promotion_cycle_witness :
  let summaries :=
    (fun i => mkConversationSummary i (js "s") 0 20 None 1700000000000)
      <$> [4; 3; 2] in
  exists w2 t2 parent,
    markSummariesConsolidated true (summary_id <$> summaries) 5
      (snd (createRecursiveSummary (H := Fixtures.online) summaries 1
              Fixtures.summarizer Fixtures.tiedWorld))
    = (Success tt, w2) /\
    conversation_summaries_v2 (db w2) = Some t2 /\
    unconsolidated t2 0
    = [mkConversationSummary 1 (js "s") 0 20 None 1700000000000] /\
    parent ∈ unconsolidated t2 1 /\ summary_id parent = 5 /\
    message_count parent = 60 /\
    (forall s, s ∈ summaries -> consolidatedInto 5 s ∈ summary_rows t2).
Proof.
  intros summaries.
  destruct (promotion_cycle (H := Fixtures.online) (plan := Fixtures.backwards)
              true Fixtures.byThree Fixtures.summarizer
              (mkSummaryTable Fixtures.tiedSummaries 4)
              Fixtures.tiedWorld 1%nat summaries 5
              (snd (createRecursiveSummary (H := Fixtures.online) summaries 1
                      Fixtures.summarizer Fixtures.tiedWorld)))
    as (w2 & t2 & parent & Hmark & Ht2 & Hlow & _ & _ & Hin & Hid & Hcount & Hall & _).
  - reflexivity.
  - apply (bool_decide_unpack _). vm_compute. exact I.
  - vm_compute. reflexivity.
  - unfold exactlySummed. cbn. lia.
  - vm_compute. reflexivity.
  - exists w2, t2, parent. split; [exact Hmark|]. split; [exact Ht2|].
    change (1 - 1)%nat with 0%nat in Hlow.
    split; [rewrite Hlow; vm_compute; reflexivity|].
    split; [exact Hin|]. split; [exact Hid|]. split; [exact Hcount|]. exact Hall.
Defined.


(** ** Loading the summaries of a conversation *)

Section Ordered.
Context {A : Type} (first : A -> A -> bool).
Hypothesis first_asym : forall a b, first a b = true -> first b a = false.
Hypothesis first_negtrans :
  forall a b c, first a b = false -> first b c = false -> first a c = false.

Lemma insertOrdered_sorted x l :
  StronglySorted (fun a b => first b a = false) l ->
  StronglySorted (fun a b => first b a = false) (insertOrdered first x l).
Proof.
  intros Hl. induction Hl as [|y l Hl IH Hy]; cbn.
  - repeat constructor.
  - destruct (first y x) eqn:Hyx.
    + constructor; [exact IH|].
      rewrite insertOrdered_perm. constructor; [now apply first_asym | exact Hy].
    + constructor; [now constructor|].
      constructor; [exact Hyx|].
      eapply Forall_impl; [exact Hy|]. cbn. intros z Hz.
      now apply (first_negtrans z y x).
Qed.

Lemma orderBy_sorted l :
  StronglySorted (fun a b => first b a = false) (orderBy first l).
Proof.
  induction l as [|x l IH]; cbn; [constructor|].
  now apply insertOrdered_sorted.
Qed.

End Ordered.

Lemma StronglySorted_weaken {A} (R R' : A -> A -> Prop) l :
  (forall a b, R a b -> R' a b) -> StronglySorted R l -> StronglySorted R' l.
Proof.
  intros HR Hl. induction Hl as [|x l Hl IH Hx]; constructor; [exact IH|].
  eapply Forall_impl; [exact Hx|]. intros y. apply HR.
Qed.

Lemma take_tops {A} (R : A -> A -> Prop) l n s s' :
  StronglySorted R l -> s ∈ take n l -> s' ∈ l -> s' ∉ take n l -> R s s'.
Proof.
  intros Hsorted Hs Hs' Hout.
  rewrite <- (take_drop n l) in Hsorted, Hs'.
  apply elem_of_app in Hs' as [Hin | Hs']; [contradiction|].
  eapply (StronglySorted_app_1_elem_of _ _ _ _ _ Hsorted); eauto.
Qed.

Lemma higherThenNewer_sorted l :
  StronglySorted (fun a b => higherThenNewer b a = false)
    (orderBy higherThenNewer l).
Proof.
  apply orderBy_sorted; unfold higherThenNewer.
  - intros a b.
    rewrite orb_true_iff, andb_true_iff, orb_false_iff, andb_false_iff,
      !Nat.ltb_lt, !Nat.ltb_ge, Nat.eqb_eq, Nat.eqb_neq, Z.ltb_lt, Z.ltb_ge.
    lia.
  - intros a b c.
    rewrite !orb_false_iff, !andb_false_iff,
      !Nat.ltb_ge, !Nat.eqb_neq, !Z.ltb_ge.
    lia.
Qed.

Section Loading.
Context {plan : Plan}.

(** X19. [loadSummariesForContext], with the table in place, succeeds
    and changes nothing. [base] holds at most [recentSummaryCount]
    rows, all of level 0, the newest first, and no row of level 0 that
    is left out is newer than one that is kept. [recursive] holds at
    most 2 rows of a level above 0, the highest level first, and no
    such row that is left out has a higher level than one that is kept.
    Whether a row has a parent plays no part: consolidated summaries
    are loaded like the others. *)
Theorem loadSummariesForContext_spec config t w :
  conversation_summaries_v2 (db w) = Some t ->
  exists loaded,
    loadSummariesForContext config w = (Success loaded, w) /\
    (length (base loaded) <= recentSummaryCount config)%nat /\
    (length (recursive loaded) <= 2)%nat /\
    (forall s, s ∈ base loaded ->
       s ∈ summary_rows t /\ summary_level s = 0%nat) /\
    (forall s, s ∈ recursive loaded ->
       s ∈ summary_rows t /\ (0 < summary_level s)%nat) /\
    (forall s s', s ∈ base loaded -> s' ∈ summary_rows t ->
       summary_level s' = 0%nat -> s' ∉ base loaded ->
       created_at s' <= created_at s) /\
    (forall s s', s ∈ recursive loaded -> s' ∈ summary_rows t ->
       (0 < summary_level s')%nat -> s' ∉ recursive loaded ->
       (summary_level s' <= summary_level s)%nat) /\
    StronglySorted (fun a b => created_at b <= created_at a) (base loaded) /\
    StronglySorted (fun a b => (summary_level b <= summary_level a)%nat)
      (recursive loaded).
Proof.
  intros Ht.
  unfold loadSummariesForContext, bind, exec_read, select_recent_base,
    select_recent_recursive. rewrite Ht. cbv beta iota. rewrite Ht.
  eexists. split; [reflexivity|]. cbn [base recursive].
  set (B := orderBy (fun x y => created_at y <? created_at x)
              (filter (fun s => summary_level s = 0%nat)
                 (scanSummaries BaseNewestFirst (summary_rows t)))).
  set (R := orderBy higherThenNewer
              (filter (fun s => (0 < summary_level s)%nat)
                 (scanSummaries RecursiveHighestFirst (summary_rows t)))).
  assert (HB : StronglySorted (fun a b => created_at b <= created_at a) B)
    by apply (orderBy_descending created_at).
  pose proof (higherThenNewer_sorted
                (filter (fun s => (0 < summary_level s)%nat)
                   (scanSummaries RecursiveHighestFirst (summary_rows t))))
    as HR0. fold R in HR0.
  assert (HR : StronglySorted
                 (fun a b => (summary_level b <= summary_level a)%nat) R).
  { eapply StronglySorted_weaken; [|exact HR0]. cbn. intros a b.
    unfold higherThenNewer. rewrite orb_false_iff, Nat.ltb_ge. tauto. }
  assert (HBin : forall s, s ∈ B <-> s ∈ summary_rows t /\ summary_level s = 0%nat).
  { intros s. unfold B.
    rewrite orderBy_perm, list_elem_of_filter, scanSummaries_rows. tauto. }
  assert (HRin : forall s, s ∈ R <->
                           s ∈ summary_rows t /\ (0 < summary_level s)%nat).
  { intros s. unfold R.
    rewrite orderBy_perm, list_elem_of_filter, scanSummaries_rows. tauto. }
  split; [rewrite length_take; lia|]. split; [rewrite length_take; lia|].
  split; [intros s Hs; apply HBin; eapply elem_of_take_elem, Hs|].
  split; [intros s Hs; apply HRin; eapply elem_of_take_elem, Hs|].
  split; [|split; [|split]].
  - intros s s' Hs Hs' Hlevel Hout.
    apply (take_tops _ B (recentSummaryCount config) s s' HB Hs); [|exact Hout].
    now apply HBin.
  - intros s s' Hs Hs' Hlevel Hout.
    apply (take_tops _ R 2 s s' HR Hs); [|exact Hout].
    now apply HRin.
  - rewrite <- (take_drop (recentSummaryCount config) B) in HB.
    now apply StronglySorted_app_1_l in HB.
  - rewrite <- (take_drop 2 R) in HR.
    now apply StronglySorted_app_1_l in HR.
Qed.

(** X20. [initializeDatabase] of the summaries always succeeds and keeps
    the rows there are; on a store that has the table it changes
    nothing. After it the promotion check succeeds, whereas on a store
    without the table the check dies on its first query, as soon as
    [maxLevel] is positive. *)
Theorem initializeDatabase_spec config w :
  exists w',
    Summaries.initializeDatabase w = (Success tt, w') /\
    summaryRows w' = summaryRows w /\
    (conversation_summaries_v2 (db w) <> None -> w' = w) /\
    (exists r, checkRecursiveSummarizationNeeded config w' = (Success r, w')) /\
    (conversation_summaries_v2 (db w) = None -> (0 < maxLevel config)%nat ->
     fst (checkRecursiveSummarizationNeeded config w)
     = Die (CauseSql (NoSuchTable "conversation_summaries_v2"))).
Proof.
  unfold Summaries.initializeDatabase, exec_write, create_summaries_table.
  destruct (conversation_summaries_v2 (db w)) as [t|] eqn:Ht.
  - exists (with_db (db w) w). split; [reflexivity|].
    assert (Hw : with_db (db w) w = w) by now destruct w.
    rewrite Hw. split; [reflexivity|]. split; [reflexivity|]. split; [|discriminate].
    destruct (checkLevels_spec (recursiveThreshold config) t w Ht
                (maxLevel config) 0%nat) as (r & Hrun & _).
    now exists r.
  - eexists. split; [reflexivity|]. split.
    { unfold summaryRows. cbn. now rewrite Ht. }
    split; [congruence|]. split.
    + match goal with
      | |- context [checkRecursiveSummarizationNeeded config ?w'] =>
          destruct (checkLevels_spec (recursiveThreshold config)
                      (mkSummaryTable [] 0) w' eq_refl (maxLevel config) 0%nat)
            as (r & Hrun & _)
      end.
      now exists r.
    + intros _ Hmax. unfold checkRecursiveSummarizationNeeded.
      destruct (maxLevel config) as [|m]; [lia|].
      cbn [checkLevels]. unfold bind, exec_read, select_unconsolidated.
      now rewrite Ht.
Qed.

End Loading.


Lemma loadSummariesForContext_spec_witness :
  exists loaded,
    loadSummariesForContext (plan := Fixtures.backwards) DEFAULT_CONFIG
      Fixtures.promotedWorld
    = (Success loaded, Fixtures.promotedWorld) /\
    summary_id <$> base loaded = [1] /\
    summary_id <$> recursive loaded = [3; 2] /\
    (length (base loaded) <= 3)%nat /\
    (length (recursive loaded) <= 2)%nat.
Proof.
  destruct (loadSummariesForContext_spec (plan := Fixtures.backwards) DEFAULT_CONFIG _
              Fixtures.promotedWorld
              eq_refl) as (loaded & Hrun & Hbase & Hrec & _).
  exists loaded. split; [exact Hrun|].
  assert (Hloaded : fst (loadSummariesForContext (plan := Fixtures.backwards) DEFAULT_CONFIG
      Fixtures.promotedWorld)
                    = Success loaded) by now rewrite Hrun.
  vm_compute in Hloaded. injection Hloaded as <-.
  split; [reflexivity|]. split; [reflexivity|]. split; [exact Hbase | exact Hrec].
Defined.


(** ** Migration: what it reports, and undoing it *)

Lemma sameLegacy_refl w : sameLegacy w w.
Proof. split; reflexivity. Qed.

Section MigrationReport.
Context `{Env} {plan : Plan}.

Lemma bind_sameLegacy {A B} (m : Effect A) (k : A -> Effect B) w :
  sameLegacy w (snd (m w)) ->
  (forall a w1, sameLegacy w1 (snd (k a w1))) ->
  sameLegacy w (snd (bind m k w)).
Proof.
  intros Hm Hk. unfold bind.
  destruct (m w) as [[a|e|c] w1]; cbn in *; auto.
  eapply sameLegacy_trans; [exact Hm | apply Hk].
Qed.

Lemma getBlock_sameLegacy i w : sameLegacy w (snd (getBlock i w)).
Proof.
  unfold getBlock, select_block.
  destruct (blocksCache w !! i); [apply sameLegacy_refl|].
  destruct (memory_blocks (db w)) as [t|]; [|apply sameLegacy_refl].
  destruct (t !! i) as [row|]; [|apply sameLegacy_refl].
  destruct (blockOfRow i row); [split; reflexivity | apply sameLegacy_refl].
Qed.

Lemma createBlock_sameLegacy i l c t w : sameLegacy w (snd (createBlock i l c t w)).
Proof.
  unfold createBlock, bind, Date_now, try_write, insert_block, cacheSet, succeed.
  destruct (memory_blocks (db w)) as [tbl|]; [|apply sameLegacy_refl].
  destruct (tbl !! i); [apply sameLegacy_refl|]. split; reflexivity.
Qed.

Lemma updateBlock_sameLegacy i c w : sameLegacy w (snd (updateBlock i c w)).
Proof.
  unfold updateBlock, bind, Date_now, try_write, update_block, cacheTouch.
  destruct (memory_blocks (db w)) as [tbl|]; [|apply sameLegacy_refl].
  split; reflexivity.
Qed.

Lemma insertContent_sameLegacy i x position w :
  sameLegacy w (snd (insertContent i x position w)).
Proof.
  unfold insertContent. apply bind_sameLegacy; [apply getBlock_sameLegacy|].
  intros [b|] w1; [apply updateBlock_sameLegacy | apply sameLegacy_refl].
Qed.

Lemma ensureStandardBlocks_sameLegacy blocks w :
  sameLegacy w (snd (ensureStandardBlocks blocks w)).
Proof.
  revert w. induction blocks as [|[i l] rest IH]; intros w; cbn;
    [apply sameLegacy_refl|].
  apply bind_sameLegacy; [apply getBlock_sameLegacy|].
  intros [b|] w1; [apply IH|].
  apply bind_sameLegacy; [apply createBlock_sameLegacy|]. intros _ w2. apply IH.
Qed.

Lemma migrateRows_count memories result w result' w' :
  migrateRows memories result w = (Success result', w') ->
  result' = mkResult (total result) (migrated result + length memories)
              (skipped result) (errors result) /\
  sameLegacy w w'.
Proof.
  revert result w. induction memories as [|row rest IH]; intros result w; cbn.
  - intros [= <- <-]. split; [|apply sameLegacy_refl].
    destruct result. cbn. f_equal. lia.
  - unfold bind at 1.
    pose proof (insertContent_sameLegacy
                  (targetBlock (purpose row))
                  (js "**" ++ purpose row ++ js "**" ++ newline ++ text row)
                  end_ w) as Hsame.
    destruct (insertContent _ _ end_ w) as [[[]|e|c] w1]; try discriminate.
    intros Hrest. destruct (IH _ _ Hrest) as [-> Hsame']. cbn. split.
    + f_equal. lia.
    + eapply sameLegacy_trans; [exact Hsame | exact Hsame'].
Qed.

(** X21. What a migration reports. When it succeeds, [total] and
    [migrated] are both the number of rows of [agent_memory], [skipped]
    is 0 and [errors] is empty: an entry that cannot be moved fails the
    whole call, it is not counted as skipped. Without a legacy table
    the result is all zeros and the world is unchanged; no standard
    block is created. *)
Theorem migration_reports_every_entry w result w' :
  migrateLegacyMemoriesToBlocks w = (Success result, w') ->
  match agent_memory (db w) with
  | None => result = mkResult 0 0 0 [] /\ w' = w
  | Some rows => result = mkResult (length rows) (length rows) 0 []
  end.
Proof.
  unfold migrateLegacyMemoriesToBlocks.
  unfold bind at 1. unfold try_read at 1, legacy_table_exists.
  destruct (agent_memory (db w)) as [rows|] eqn:Hrows; cbn [negb];
    [|now intros [= <- <-]].
  unfold bind at 1.
  pose proof (ensureStandardBlocks_sameLegacy standardBlocks w) as [Ha _].
  destruct (ensureStandardBlocks standardBlocks w) as [[[]|e|c] w1];
    try discriminate.
  cbn in Ha. rewrite Hrows in Ha.
  unfold bind at 1. unfold try_read at 1.
  destruct (select_legacy_length w1 rows Ha) as (memories & -> & Hlen).
  unfold bind at 1.
  destruct (migrateRows memories _ w1) as [[moved|e|c] w2] eqn:Hmoved;
    try discriminate.
  destruct (migrateRows_count _ _ _ _ _ Hmoved) as [-> _].
  cbn [total migrated skipped errors Nat.add].
  unfold bind, succeed, orElseSucceed, try_write.
  destruct (0 <? length memories)%nat;
    [destruct (rename_legacy_to_backup (db w2))|];
    intros [= <- _]; now rewrite Hlen.
Qed.

End MigrationReport.

(** X22. [rollbackMigration] without a backup table fails with the
    operation [rollback migration] and the cause [No backup table
    found], and changes nothing. With a backup it succeeds:
    [agent_memory] is then the backup, whatever it held before is
    dropped, the backup table is gone, and blocks, embeddings and cache
    are untouched. *)
Theorem rollbackMigration_spec w :
  match agent_memory_legacy_backup (db w) with
  | None =>
      rollbackMigration w
      = (Failure (mkError "rollback migration"
                    (CauseText (js "No backup table found"))), w)
  | Some backup =>
      exists w',
        rollbackMigration w = (Success tt, w') /\
        agent_memory (db w') = Some backup /\
        agent_memory_legacy_backup (db w') = None /\
        memory_blocks (db w') = memory_blocks (db w) /\
        memory_embeddings (db w') = memory_embeddings (db w) /\
        blocksCache w' = blocksCache w
  end.
Proof.
  unfold rollbackMigration, backup_table_missing, drop_legacy,
    rename_backup_to_legacy.
  destruct (agent_memory_legacy_backup (db w)) as [backup|] eqn:Hb;
    [|reflexivity].
  cbn. eexists. split; [reflexivity|]. cbn. auto.
Qed.

Section MigrationUndone.
Context `{Env} {plan : Plan}.

(** X23. Rolling a migration back restores the legacy table, not the
    blocks. After a migration that moved an entry and renamed the
    table, [rollbackMigration] succeeds; [agent_memory] holds its rows
    of before the migration and there is no backup; the blocks the
    migration wrote are still there, so [checkMigrationNeeded] answers
    false. *)
Theorem rollback_after_migration w result w1 :
  cacheBacked w -> agent_memory_legacy_backup (db w) = None ->
  migrateLegacyMemoriesToBlocks w = (Success result, w1) ->
  (0 < migrated result)%nat ->
  exists w2,
    rollbackMigration w1 = (Success tt, w2) /\
    agent_memory (db w2) = agent_memory (db w) /\
    agent_memory_legacy_backup (db w2) = None /\
    memory_blocks (db w2) = memory_blocks (db w1) /\
    hasBlocks w2 /\
    checkMigrationNeeded w2 = (Success false, w2).
Proof.
  intros Hback Hnone Hrun Hmoved.
  destruct (migrate_inv w result w1 Hback Hrun Hmoved)
    as (Hblocks & rows & Hrows & Hlegacy).
  rewrite Hnone in Hlegacy. destruct Hlegacy as [Ha Hb].
  assert (Hroll : exists w2,
             rollbackMigration w1 = (Success tt, w2) /\
             agent_memory (db w2) = Some rows /\
             agent_memory_legacy_backup (db w2) = None /\
             memory_blocks (db w2) = memory_blocks (db w1)).
  { unfold rollbackMigration, backup_table_missing, drop_legacy,
      rename_backup_to_legacy. rewrite Hb. cbn. rewrite ?Hb.
    eexists. split; [reflexivity|]. cbn. auto. }
  destruct Hroll as (w2 & Hroll & Ha2 & Hb2 & Hblocks2).
  exists w2. split; [exact Hroll|]. split; [congruence|]. split; [exact Hb2|].
  split; [exact Hblocks2|].
  assert (Hhas : hasBlocks w2).
  { destruct Hblocks as (t & Ht & Hsize). exists t. split; [congruence | exact Hsize]. }
  split; [exact Hhas|].
  rewrite checkMigrationNeeded_run.
  destruct Hhas as (t & -> & Hsize). apply Nat.ltb_lt in Hsize. rewrite Hsize.
  now destruct (agent_memory (db w2)) as [[|row rows']|].
Qed.

End MigrationUndone.


Lemma migration_reports_every_entry_witness :
  exists result,
    fst (migrateLegacyMemoriesToBlocks (H := Fixtures.online)
           (plan := Fixtures.backwards) Fixtures.legacyWorld)
    = Success result /\
    result = mkResult 3 3 0 [].
Proof.
  exists (mkResult 3 3 0 []). split; [vm_compute; reflexivity|].
  exact (migration_reports_every_entry (H := Fixtures.online) (plan := Fixtures.backwards)
           Fixtures.legacyWorld (mkResult 3 3 0 [])
           (snd (migrateLegacyMemoriesToBlocks (H := Fixtures.online)
                   (plan := Fixtures.backwards) Fixtures.legacyWorld))
           ltac:(vm_compute; reflexivity)).
Defined.

Lemma rollback_after_migration_witness :
  let migrated := snd (migrateLegacyMemoriesToBlocks (H := Fixtures.online)
                         (plan := Fixtures.backwards) Fixtures.legacyWorld) in
  exists w2,
    rollbackMigration migrated = (Success tt, w2) /\
    agent_memory (db w2) = agent_memory (db Fixtures.legacyWorld) /\
    agent_memory_legacy_backup (db w2) = None /\
    memory_blocks (db w2) = memory_blocks (db migrated) /\
    hasBlocks w2 /\
    checkMigrationNeeded w2 = (Success false, w2).
Proof.
  apply (rollback_after_migration (H := Fixtures.online) (plan := Fixtures.backwards) Fixtures.legacyWorld
           (mkResult 3 3 0 [])).
  - apply cacheBacked_empty.
  - reflexivity.
  - vm_compute. reflexivity.
  - cbn. lia.
Defined.


(** ** Migration: no entry is lost *)

Lemma startsWith_app p s : startsWith p (p ++ s) = true.
Proof.
  induction p as [|a p IH]; cbn; [reflexivity|]. now rewrite N.eqb_refl.
Qed.

Lemma includes_app a p b : includes p (a ++ p ++ b) = true.
Proof.
  unfold includes.
  assert (exists k, indexOf p (a ++ p ++ b) = Some k) as [k ->]; [|reflexivity].
  induction a as [|c a [k IH]].
  - exists 0%nat. cbn [app]. destruct (p ++ b) eqn:E; cbn [indexOf];
      rewrite <- E, startsWith_app; reflexivity.
  - cbn [app indexOf].
    destruct (startsWith p (c :: a ++ p ++ b)); [now exists 0%nat|].
    rewrite IH. now exists (S k).
Qed.

Lemma includes_app_end a p : includes p (a ++ p) = true.
Proof. pose proof (includes_app a p []) as Hp. now rewrite app_nil_r in Hp. Qed.

Lemma trimStart_app_exact p d r :
  isWhiteSpace d = false -> trimStart (p ++ d :: r) = trimStart p ++ d :: r.
Proof.
  intros Hd. induction p as [|e p IH]; cbn.
  - now rewrite Hd.
  - destruct (isWhiteSpace e); [exact IH | reflexivity].
Qed.

Lemma trimEnd_app_exact x d y :
  isWhiteSpace d = false -> trimEnd (x ++ d :: y) = x ++ d :: trimEnd y.
Proof.
  intros Hd. unfold trimEnd.
  replace (rev (x ++ d :: y)) with (rev y ++ d :: rev x).
  2:{ rewrite rev_app_distr. cbn. now rewrite <- app_assoc. }
  rewrite trimStart_app_exact by assumption.
  rewrite rev_app_distr. cbn. now rewrite rev_involutive, <- app_assoc.
Qed.

(** A word that begins and ends with something other than white space
    comes through a trim whole. *)
Lemma trim_keeps_word a c mid d b :
  isWhiteSpace c = false -> isWhiteSpace d = false ->
  trim (a ++ (c :: mid ++ [d]) ++ b)
  = trimStart a ++ (c :: mid ++ [d]) ++ trimEnd b.
Proof.
  intros Hc Hd. unfold trim. cbn [app].
  rewrite trimStart_app_exact by assumption.
  replace (trimStart a ++ c :: (mid ++ [d]) ++ b)
    with ((trimStart a ++ c :: mid) ++ d :: b)
    by (now rewrite <- !app_assoc).
  rewrite trimEnd_app_exact by assumption.
  now rewrite <- !app_assoc.
Qed.

Lemma trimStart_cases s :
  trimStart s = [] \/
  exists c s', trimStart s = c :: s' /\ isWhiteSpace c = false.
Proof.
  induction s as [|c s IH]; cbn; [now left|].
  destruct (isWhiteSpace c) eqn:Hc; [exact IH | right; eauto].
Qed.

Lemma trimEnd_cases s :
  trimEnd s = [] \/
  exists s' d, trimEnd s = s' ++ [d] /\ isWhiteSpace d = false.
Proof.
  unfold trimEnd. destruct (trimStart_cases (rev s)) as [-> | (c & s' & -> & Hc)].
  - now left.
  - right. exists (rev s'), c. cbn. auto.
Qed.

Lemma migratedText_word row :
  exists mid d, migratedText row = 42%N :: mid ++ [d] /\ isWhiteSpace d = false.
Proof.
  unfold migratedText.
  destruct (trimEnd_cases (newline ++ text row)) as [-> | (s' & d & -> & Hd)].
  - exists (42%N :: purpose row ++ [42%N]), 42%N. split; [|reflexivity].
    change (js "**") with [42%N; 42%N]. cbn [app].
    rewrite <- app_assoc. reflexivity.
  - exists (42%N :: purpose row ++ js "**" ++ s'), d. split; [|exact Hd].
    change (js "**") with [42%N; 42%N]. cbn [app].
    now rewrite <- !app_assoc.
Qed.

Lemma trim_includes_word a word b :
  (exists mid d, word = 42%N :: mid ++ [d] /\ isWhiteSpace d = false) ->
  includes word (trim (a ++ word ++ b)) = true.
Proof.
  intros (mid & d & -> & Hd).
  rewrite trim_keeps_word by (reflexivity || assumption).
  apply includes_app.
Qed.

Lemma includes_split p s :
  includes p s = true -> exists a b, s = a ++ p ++ b.
Proof.
  unfold includes. destruct (indexOf p s) as [k|] eqn:Hk; [|discriminate].
  intros _. revert k Hk. induction s as [|c s IH]; intros k; cbn [indexOf].
  - destruct (startsWith p []) eqn:Hp; [|discriminate].
    destruct p; [|discriminate]. now exists [], [].
  - destruct (startsWith p (c :: s)) eqn:Hp.
    + intros _. exists []. cbn [app]. clear IH.
      revert Hp. generalize (c :: s). clear. intros s.
      revert s. induction p as [|a p IH]; intros s; [now exists s|].
      destruct s as [|b s]; cbn; [discriminate|].
      rewrite andb_true_iff, N.eqb_eq. intros [-> Hp].
      destruct (IH s Hp) as [r ->]. now exists r.
    + destruct (indexOf p s) as [k'|]; [|discriminate].
      intros _. destruct (IH k' eq_refl) as (a & b & ->).
      now exists (c :: a), b.
Qed.

Ltac list_assoc :=
  repeat (cbn [app]; rewrite <- app_assoc); cbn [app]; reflexivity.

Lemma trim_appended_entry old row :
  trim (old ++ newline ++
        js "**" ++ purpose row ++ js "**" ++ newline ++ text row)
  = trimStart (old ++ newline) ++ migratedText row.
Proof.
  unfold trim, migratedText. change (js "**") with [42%N; 42%N].
  replace (old ++ newline ++ [42%N; 42%N] ++ purpose row ++ [42%N; 42%N] ++ newline ++ text row)
    with ((old ++ newline) ++ 42%N :: (42%N :: purpose row ++ [42%N] ++ 42%N :: newline ++ text row)).
  2:{ list_assoc. }
  rewrite trimStart_app_exact by reflexivity.
  replace (trimStart (old ++ newline) ++ 42%N :: 42%N :: purpose row ++ [42%N] ++ 42%N :: newline ++ text row)
    with ((trimStart (old ++ newline) ++ 42%N :: 42%N :: purpose row ++ [42%N]) ++ 42%N :: (newline ++ text row)).
  2:{ list_assoc. }
  rewrite trimEnd_app_exact by reflexivity.
  list_assoc.
Qed.

Section EntriesKept.
Context `{Env} {plan : Plan}.

(** What an insertion at the end leaves in the cache. *)
Lemma insertContent_cached i x w w' :
  insertContent i x end_ w = (Success tt, w') ->
  exists b0 b,
    fst (getBlock i w) = Success (Some b0) /\
    blocksCache w' !! i = Some b /\
    content b = trim (content b0 ++ newline ++ x) /\
    forall j, j <> i -> blocksCache w' !! j = blocksCache w !! j.
Proof.
  unfold insertContent, bind.
  destruct (getBlock i w) as [[[b0|]|e|c] w1] eqn:Hget; try discriminate.
  assert (Hc1 : blocksCache w1 !! i = Some b0 /\
                forall j, j <> i -> blocksCache w1 !! j = blocksCache w !! j).
  { revert Hget. unfold getBlock, select_block.
    destruct (blocksCache w !! i) as [cached|] eqn:Hc.
    - intros [= <- <-]. auto.
    - destruct (memory_blocks (db w)) as [t|]; [|discriminate].
      destruct (t !! i) as [row|]; [|discriminate].
      destruct (blockOfRow i row) as [b|]; [|discriminate].
      intros [= <- <-]. cbn. split; [apply lookup_insert_eq|].
      intros j Hj. now rewrite lookup_insert_ne. }
  destruct Hc1 as [Hc1 Hother].
  unfold updateBlock, bind, Date_now, try_write, update_block, cacheTouch.
  destruct (memory_blocks (db w1)) as [t|]; [|discriminate].
  intros [= <-]. cbn.
  eexists b0, _. split; [reflexivity|]. split.
  - rewrite lookup_alter_eq, Hc1. reflexivity.
  - split; [reflexivity|]. intros j Hj.
    rewrite lookup_alter_ne by congruence. now apply Hother.
Qed.

Lemma getBlock_cached_fst i b w :
  blocksCache w !! i = Some b -> fst (getBlock i w) = Success (Some b).
Proof. intros Hc. now rewrite (getBlock_cached i b w Hc). Qed.

Lemma migrateRows_kept memories : forall result w result' w' done,
  migrateRows memories result w = (Success result', w') ->
  entriesKept done w -> entriesKept (done ++ memories) w'.
Proof.
  induction memories as [|row rest IH]; intros result w result' w' done;
    cbn [migrateRows].
  - intros [= <- <-] Hkept. now rewrite app_nil_r.
  - unfold bind at 1.
    destruct (insertContent _ _ end_ w) as [[[]|e|c] w1] eqn:Hins; try discriminate.
    intros Hrest Hkept.
    replace (done ++ row :: rest) with ((done ++ [row]) ++ rest)
      by now rewrite <- app_assoc.
    apply (IH _ _ _ _ _ Hrest).
    destruct (insertContent_cached _ _ _ _ Hins) as (b0 & b & Hget & Hb & Hcontent & Hother).
    intros r [Hr | ->%list_elem_of_singleton]%elem_of_app.
    + destruct (Hkept r Hr) as (br & Hbr & Hinc).
      destruct (decide (targetBlock (purpose r) = targetBlock (purpose row)))
        as [Heq | Hne].
      * rewrite Heq in *. exists b. split; [exact Hb|].
        rewrite (getBlock_cached_fst _ _ _ Hbr) in Hget. injection Hget as <-.
        rewrite Hcontent.
        destruct (includes_split _ _ Hinc) as (a & tl & ->).
        rewrite <- !app_assoc.
        apply trim_includes_word, migratedText_word.
      * exists br. split; [|exact Hinc]. rewrite Hother; assumption.
    + exists b. split; [exact Hb|]. rewrite Hcontent, trim_appended_entry.
      apply includes_app_end.
Qed.

(** X24. No entry is lost in a migration. After a migration that
    succeeded, for every row of [agent_memory], the block the row was
    routed to is returned by [getBlock] and its content holds the
    heading of the entry, its purpose between two pairs of asterisks,
    followed by a newline and the text of the entry up to the white
    space at its end. *)
Theorem migration_keeps_every_entry w result w' rows row :
  migrateLegacyMemoriesToBlocks w = (Success result, w') ->
  agent_memory (db w) = Some rows -> row ∈ rows ->
  exists b,
    getBlock (targetBlock (purpose row)) w' = (Success (Some b), w') /\
    includes (js "**" ++ purpose row ++ js "**" ++ trimEnd (newline ++ text row))
      (content b) = true.
Proof.
  intros Hrun Hrows Hrow. revert Hrun.
  unfold migrateLegacyMemoriesToBlocks.
  unfold bind at 1. unfold try_read at 1, legacy_table_exists.
  rewrite Hrows. cbn [negb].
  unfold bind at 1.
  pose proof (ensureStandardBlocks_sameLegacy standardBlocks w) as [Ha _].
  destruct (ensureStandardBlocks standardBlocks w) as [[[]|e|c] w1];
    try discriminate.
  cbn in Ha. rewrite Hrows in Ha.
  destruct (select_legacy_rows w1 rows Ha) as (memories & Hsel & Hperm).
  unfold bind at 1. unfold try_read at 1. rewrite Hsel.
  unfold bind at 1.
  destruct (migrateRows _ _ w1) as [[moved|e|c] w2] eqn:Hmoved; try discriminate.
  assert (Hkept : entriesKept ([] ++ memories) w2).
  { eapply migrateRows_kept; [exact Hmoved|]. intros r Hr. inversion Hr. }
  assert (Hin : row ∈ memories) by now rewrite Hperm.
  destruct (Hkept row Hin) as (b & Hb & Hinc).
  assert (Hcache : blocksCache w' = blocksCache w2 -> exists b0,
             getBlock (targetBlock (purpose row)) w' = (Success (Some b0), w') /\
             includes (migratedText row) (content b0) = true).
  { intros Hc. exists b. split; [|exact Hinc].
    apply getBlock_cached. now rewrite Hc. }
  unfold bind, succeed, orElseSucceed, try_write.
  destruct (0 <? migrated moved)%nat;
    [destruct (rename_legacy_to_backup (db w2))|];
    intros [= _ <-]; now apply Hcache.
Qed.

End EntriesKept.


Lemma migration_keeps_every_entry_witness :
  let w' := snd (migrateLegacyMemoriesToBlocks (H := Fixtures.online)
                   (plan := Fixtures.backwards) Fixtures.legacyWorld) in
  exists b,
    getBlock (H := Fixtures.online) (js "human") w' = (Success (Some b), w') /\
    includes (js "**user_preferences**" ++ [10%N] ++ js "likes tea") (content b)
    = true.
Proof.
  exact (migration_keeps_every_entry (H := Fixtures.online)
           (plan := Fixtures.backwards) Fixtures.legacyWorld
           (mkResult 3 3 0 []) _ _
           (mkLegacyRow (js "user_preferences") (js "likes tea") 1650000000000)
           ltac:(vm_compute; reflexivity) eq_refl
           ltac:(right; left)).
Defined.


(** ** Exporting the blocks to the legacy table *)

Section ExportToLegacy.
Context `{Env} {scan : Scan}.

Lemma exportLoop_run blocks : forall exportedCount w rows,
  agent_memory (db w) = Some rows ->
  exists w' rows',
    exportLoop blocks exportedCount w
    = (Success (exportedCount + length blocks)%nat, w') /\
    agent_memory (db w') = Some rows' /\
    memory_blocks (db w') = memory_blocks (db w) /\
    (forall p, p ∈ purpose <$> rows -> p ∈ purpose <$> rows') /\
    (forall b, b ∈ blocks -> purposeOfLabel (label b) ∈ purpose <$> rows') /\
    (forall row, row ∈ rows' ->
       row ∈ rows \/
       exists b, b ∈ blocks /\
                 row = mkLegacyRow (purposeOfLabel (label b)) (content b)
                         (updated_at b)) /\
    (length rows' <= length rows + length blocks)%nat.
Proof.
  induction blocks as [|b rest IH]; intros exportedCount w rows Hrows.
  - exists w, rows. cbn. rewrite Nat.add_0_r.
    split; [reflexivity|]. split; [exact Hrows|]. split; [reflexivity|].
    split; [auto|]. split; [intros b Hb; inversion Hb|]. split; [auto | lia].
  - cbn [exportLoop]. unfold bind at 1. unfold try_write at 1, upsert_legacy.
    rewrite Hrows.
    set (p := purposeOfLabel (label b)).
    set (new := mkLegacyRow p (content b) (updated_at b)).
    set (rows1 := filter (fun r => purpose r <> p) rows ++ [new]).
    match goal with
    | |- context [exportLoop rest _ ?w1] =>
        destruct (IH (S exportedCount) w1 rows1 eq_refl)
          as (w' & rows' & Hrun & Hrows' & Hblocks & Hmono & Hall & Hfrom & Hlen)
    end.
    exists w', rows'. rewrite Hrun.
    split; [f_equal; f_equal; cbn; lia|]. split; [exact Hrows'|].
    split; [exact Hblocks|].
    assert (Hrows1 : forall q, q ∈ purpose <$> rows -> q ∈ purpose <$> rows1).
    { intros q [r [-> Hr]]%list_elem_of_fmap. unfold rows1. rewrite fmap_app.
      apply elem_of_app.
      destruct (decide (purpose r = p)) as [Heq | Hne].
      - right. rewrite Heq. now left.
      - left. apply list_elem_of_fmap_2. now apply list_elem_of_filter. }
    split; [auto|]. split; [|split].
    + intros b' [-> | Hb']%elem_of_cons; [|now apply Hall].
      apply Hmono. unfold rows1. rewrite fmap_app. apply elem_of_app. right. now left.
    + intros row Hrow. destruct (Hfrom row Hrow) as [Hin | (b' & Hb' & ->)].
      * unfold rows1 in Hin.
        apply elem_of_app in Hin as [Hin%list_elem_of_filter | ->%list_elem_of_singleton].
        -- left. tauto.
        -- right. exists b. split; [now left | reflexivity].
      * right. exists b'. split; [now right | reflexivity].
    + assert (length rows1 <= length rows + 1)%nat.
      { unfold rows1. rewrite length_app. cbn.
        pose proof (length_filter (fun r => purpose r <> p) rows). lia. }
      cbn [length]. lia.
Qed.

Lemma create_legacy_run w :
  exists w2,
    try_write "create legacy table" create_legacy_table w = (Success tt, w2) /\
    agent_memory (db w2) = Some (default [] (agent_memory (db w))) /\
    memory_blocks (db w2) = memory_blocks (db w).
Proof.
  unfold try_write, create_legacy_table.
  destruct (agent_memory (db w)) as [rows|] eqn:Hrows; eexists;
    (split; [reflexivity|]); cbn; auto.
Qed.

(** X25. [exportBlocksToLegacy], when it succeeds, returns the number of
    core blocks and leaves the blocks as they are. [agent_memory]
    exists afterwards and has, for every core block, a row whose
    purpose is the label in lower case with every run of white space
    turned into one underscore. Every row is either a row of before or
    carries the content and timestamp of a core block under the purpose
    of its label. There are at most as many rows as there were plus the
    number returned; labels that give the same purpose share a row. *)
Theorem exportBlocksToLegacy_spec t w n w' :
  memory_blocks (db w) = Some t ->
  exportBlocksToLegacy w = (Success n, w') ->
  n = length (filter (fun kv => ofType (Some core) (snd kv) = true)
                (map_to_list t)) /\
  memory_blocks (db w') = Some t /\
  exists rows',
    agent_memory (db w') = Some rows' /\
    (forall i r, t !! i = Some r -> row_type r = core ->
       purposeOfLabel (row_label r) ∈ purpose <$> rows') /\
    (forall row, row ∈ rows' ->
       (exists old, agent_memory (db w) = Some old /\ row ∈ old) \/
       exists i r, t !! i = Some r /\ row_type r = core /\
                   row = mkLegacyRow (purposeOfLabel (row_label r))
                           (row_content r) (row_updated_at r)) /\
    (length rows'
     <= n + match agent_memory (db w) with
            | Some old => length old
            | None => 0
            end)%nat.
Proof.
  intros Ht Hrun. unfold exportBlocksToLegacy in Hrun. unfold bind at 1 in Hrun.
  destruct (getAllBlocks (Some core) w) as [[blocks|e|c] w1] eqn:Hall;
    try discriminate.
  destruct (getAllBlocks_rows (Some core) t w blocks w1 Ht Hall)
    as (Hdb & Hrows).
  assert (Hcount : length blocks
                   = length (filter (fun kv => ofType (Some core) (snd kv) = true)
                               (map_to_list t))).
  { revert Hall. unfold getAllBlocks, bind, try_read, select_blocks.
    rewrite Ht. intros Hread.
    destruct (readBlocks_run _ _ _ _ Hread) as (Hforall & _).
    rewrite <- (Forall2_length _ _ _ Hforall), orderBy_perm.
    apply Permutation_length, filter_Permutation, scanBlocks_rows. }
  unfold bind at 1 in Hrun.
  destruct (create_legacy_run w1) as (w2 & Hcreate & Hlegacy2 & Hblocks2).
  rewrite Hcreate in Hrun.
  destruct (exportLoop_run blocks 0%nat w2 _ Hlegacy2)
    as (w3 & rows' & Hloop & Hrows' & Hblocks3 & _ & Hevery & Hfrom & Hlen).
  rewrite Hloop in Hrun. injection Hrun as <- <-.
  split; [exact Hcount|]. split; [congruence|].
  exists rows'. split; [exact Hrows'|]. split; [|split].
  - intros i r Hi Hcore.
    assert (Hty : ofType (Some core) r = true) by (cbn; now rewrite Hcore).
    assert (exists b, b ∈ blocks /\ id b = i) as (b & Hb & Hid).
    { revert Hall. unfold getAllBlocks, bind, try_read.
      destruct (select_blocks_run (Some core) (db w) t Ht)
        as (rows & -> & Hsel & _).
      intros Hread. destruct (readBlocks_run _ _ _ _ Hread) as (Hforall & _).
      assert (Hin : (i, r) ∈ rows) by now apply Hsel.
      apply list_elem_of_lookup in Hin as [k Hk].
      destruct (Forall2_lookup_l _ _ _ _ _ Hforall Hk) as (b & Hb & Hread').
      cbn in Hread'. exists b. split; [eapply list_elem_of_lookup_2, Hb|].
      now destruct (blockOfRow_fields _ _ _ Hread'). }
    pose proof (Hevery b Hb) as Hpurpose.
    apply Hrows in Hb as (r' & Hr' & _ & Hread). rewrite Hid, Hi in Hr'.
    injection Hr' as <-.
    destruct (blockOfRow_fields _ _ _ Hread) as (_ & Hlabel & _).
    now rewrite <- Hlabel.
  - intros row Hrow. destruct (Hfrom row Hrow) as [Hin | (b & Hb & ->)].
    + left. rewrite Hdb in Hin.
      destruct (agent_memory (db w)) as [old|]; [eauto | inversion Hin].
    + right. apply Hrows in Hb as (r & Hr & Hty & Hread).
      destruct (blockOfRow_fields _ _ _ Hread) as (_ & -> & -> & _ & ->).
      exists (id b), r. split; [exact Hr|]. split; [|reflexivity].
      cbn in Hty. now destruct (row_type r).
  - rewrite Hdb in Hlen. cbn [Nat.add] in *.
    destruct (agent_memory (db w)); cbn in Hlen; lia.
Qed.

End ExportToLegacy.


Lemma exportBlocksToLegacy_spec_witness :
  let run := exportBlocksToLegacy (H := Fixtures.online) (scan := Fixtures.keyOrder)
               Fixtures.shelfWorld in
  fst run = Success 2%nat /\
  agent_memory (db (snd run))
  = Some [mkLegacyRow (js "my_persona") (js "A helper") 1650000000000;
          mkLegacyRow (js "human") (js "Ann likes Tea") 1600000000000] /\
  memory_blocks (db (snd run)) = memory_blocks (db Fixtures.shelfWorld).
Proof.
  intros run.
  assert (Hrun : run = (Success 2%nat, snd run)) by (vm_compute; reflexivity).
  destruct (exportBlocksToLegacy_spec (H := Fixtures.online)
              (scan := Fixtures.keyOrder) _ Fixtures.shelfWorld 2%nat (snd run)
              eq_refl Hrun) as (_ & Hblocks & _).
  split; [now rewrite Hrun|]. split; [vm_compute; reflexivity | exact Hblocks].
Defined.


(** ** The legacy manager *)

Import LegacyMemory.










Section LegacyLoad.
Context {plan : Plan}.


End LegacyLoad.




